(** * p6psgmmlc: the per-channel MML compiler and the object-file header

    A shallow embedding of [mml_compiler.c] / [mml_compiler.h] and of the
    object assembly at the end of [main.c].

    Conventions of the embedding.
    - C [int], [long], [int32_t] values are integers in [Z]; the narrowing
      casts the source performs ([(uint8_t)x], [(uint16_t)x], the
      [uint16_t] accumulator of [parse_para]) are written out with [u8]
      and [u16].  Signed arithmetic is never wrapped: the only quantities
      that grow are bounded by the length of the line being compiled (the
      one sum that could leave 32 bits, [octave + v] in the [>] and [<]
      commands for an operand near [INT_MAX], is out of the octave range
      either way).
    - A character read by [peek]/[get] is its code in [Z], -1 at the end of
      the line, exactly as the [int] the C functions return.
    - [MML_Compiler] is threaded through every function as explicit state,
      in a small state monad [M].
    - The output buffer [c->out[0 .. out_len)] is the list [out]; [out_len]
      is its length and [out_cap] the capacity given to
      [mml_channel_init].  A store through an index that lies outside
      [0 .. out_len) (undefined behaviour in C) leaves the list unchanged.
    - The text of [error_msg] is not modelled; [error] and [error_col]
      are. *)

From Stdlib Require Import ZArith Zquot String Ascii Lia Bool.
From stdpp Require Import base list.

Local Open Scope Z_scope.

(** ** Data model ([mml_compiler.h]) *)

Inductive MML_Error : Type :=
| MML_OK
| MML_ERR_SYNTAX
| MML_ERR_FUNC_RANGE
| MML_ERR_OCTAVE
| MML_ERR_OUT_OF_NEST
| MML_ERR_CLOSE_NEST
| MML_ERR_DUP_EXIT
| MML_ERR_RETURN_IN_NEST
| MML_ERR_NOTE_OVERFLOW
| MML_ERR_INTERNAL.

Definition is_ok (e : MML_Error) : bool :=
  match e with MML_OK => true | _ => false end.

Definition LOOP_NOEXIT : Z := 0.
Definition MML_MAX_NEST : Z := 4.
Definition NOERROR : Z := -1.
Definition INT_MAX : Z := 2147483647.
Definition UINT16_MAX : Z := 65535.

Record MML_LoopState : Type := mkLoop {
  loop_start : Z;
  exit_mark : Z;
  saved_l_len96 : Z;
  saved_lp_len96 : Z;
  saved_octave : Z;
  saved_octave_last : Z
}.

Record MML_Compiler : Type := mkCompiler {
  src : string;
  pos : nat;
  len : nat;
  line : Z;
  col : Z;
  out : list Z;
  out_cap : Z;
  nest_depth : Z;
  l_len96 : Z;
  lp_len96 : Z;
  octave : Z;
  octave_last : Z;
  key_shift : Z;
  loops : list MML_LoopState;
  error : MML_Error;
  error_col : Z
}.

Definition out_len (c : MML_Compiler) : Z := Z.of_nat (length (out c)).

(** Field updates. *)

Definition set_pos (v : nat) (c : MML_Compiler) : MML_Compiler :=
  mkCompiler (src c) v (len c) (line c) (col c) (out c) (out_cap c)
    (nest_depth c) (l_len96 c) (lp_len96 c) (octave c) (octave_last c)
    (key_shift c) (loops c) (error c) (error_col c).

Definition set_col (v : Z) (c : MML_Compiler) : MML_Compiler :=
  mkCompiler (src c) (pos c) (len c) (line c) v (out c) (out_cap c)
    (nest_depth c) (l_len96 c) (lp_len96 c) (octave c) (octave_last c)
    (key_shift c) (loops c) (error c) (error_col c).

Definition set_out (v : list Z) (c : MML_Compiler) : MML_Compiler :=
  mkCompiler (src c) (pos c) (len c) (line c) (col c) v (out_cap c)
    (nest_depth c) (l_len96 c) (lp_len96 c) (octave c) (octave_last c)
    (key_shift c) (loops c) (error c) (error_col c).

Definition set_nest_depth (v : Z) (c : MML_Compiler) : MML_Compiler :=
  mkCompiler (src c) (pos c) (len c) (line c) (col c) (out c) (out_cap c)
    v (l_len96 c) (lp_len96 c) (octave c) (octave_last c)
    (key_shift c) (loops c) (error c) (error_col c).

Definition set_l_len96 (v : Z) (c : MML_Compiler) : MML_Compiler :=
  mkCompiler (src c) (pos c) (len c) (line c) (col c) (out c) (out_cap c)
    (nest_depth c) v (lp_len96 c) (octave c) (octave_last c)
    (key_shift c) (loops c) (error c) (error_col c).

Definition set_lp_len96 (v : Z) (c : MML_Compiler) : MML_Compiler :=
  mkCompiler (src c) (pos c) (len c) (line c) (col c) (out c) (out_cap c)
    (nest_depth c) (l_len96 c) v (octave c) (octave_last c)
    (key_shift c) (loops c) (error c) (error_col c).

Definition set_octave_field (v : Z) (c : MML_Compiler) : MML_Compiler :=
  mkCompiler (src c) (pos c) (len c) (line c) (col c) (out c) (out_cap c)
    (nest_depth c) (l_len96 c) (lp_len96 c) v (octave_last c)
    (key_shift c) (loops c) (error c) (error_col c).

Definition set_octave_last (v : Z) (c : MML_Compiler) : MML_Compiler :=
  mkCompiler (src c) (pos c) (len c) (line c) (col c) (out c) (out_cap c)
    (nest_depth c) (l_len96 c) (lp_len96 c) (octave c) v
    (key_shift c) (loops c) (error c) (error_col c).

Definition set_key_shift (v : Z) (c : MML_Compiler) : MML_Compiler :=
  mkCompiler (src c) (pos c) (len c) (line c) (col c) (out c) (out_cap c)
    (nest_depth c) (l_len96 c) (lp_len96 c) (octave c) (octave_last c)
    v (loops c) (error c) (error_col c).

Definition set_loops (v : list MML_LoopState) (c : MML_Compiler)
  : MML_Compiler :=
  mkCompiler (src c) (pos c) (len c) (line c) (col c) (out c) (out_cap c)
    (nest_depth c) (l_len96 c) (lp_len96 c) (octave c) (octave_last c)
    (key_shift c) v (error c) (error_col c).

Definition set_error_field (v : MML_Error) (c : MML_Compiler)
  : MML_Compiler :=
  mkCompiler (src c) (pos c) (len c) (line c) (col c) (out c) (out_cap c)
    (nest_depth c) (l_len96 c) (lp_len96 c) (octave c) (octave_last c)
    (key_shift c) (loops c) v (error_col c).

Definition set_error_col (v : Z) (c : MML_Compiler) : MML_Compiler :=
  mkCompiler (src c) (pos c) (len c) (line c) (col c) (out c) (out_cap c)
    (nest_depth c) (l_len96 c) (lp_len96 c) (octave c) (octave_last c)
    (key_shift c) (loops c) (error c) v.

(** ** The state monad *)

Definition M (A : Type) : Type := MML_Compiler -> A * MML_Compiler.

Definition ret {A} (a : A) : M A := fun c => (a, c).

Definition bind {A B} (m : M A) (k : A -> M B) : M B :=
  fun c => let (a, c') := m c in k a c'.

Definition gets {A} (f : MML_Compiler -> A) : M A := fun c => (f c, c).

Definition modify (f : MML_Compiler -> MML_Compiler) : M unit :=
  fun c => (tt, f c).

Declare Scope compiler_scope.
Delimit Scope compiler_scope with M.
Bind Scope compiler_scope with M.
Notation "x <- m ;; k" := (bind m (fun x => k))
  (at level 100, m at next level, k at level 200, right associativity)
  : compiler_scope.
Notation "m ;; k" := (bind m (fun _ => k))
  (at level 100, k at level 200, right associativity) : compiler_scope.
Local Open Scope compiler_scope.

(** ** Characters and narrowing casts *)

Definition chr (a : ascii) : Z := Z.of_N (N_of_ascii a).

Definition u8 (x : Z) : Z := x mod 256.
Definition u16 (x : Z) : Z := x mod 65536.

Definition isdigit (ch : Z) : bool := (48 <=? ch) && (ch <=? 57).

Definition toupper (ch : Z) : Z :=
  if (97 <=? ch) && (ch <=? 122) then ch - 32 else ch.

(** [strlen]: the number of characters before the first NUL. *)
Fixpoint strlen (s : string) : nat :=
  match s with
  | EmptyString => 0%nat
  | String a s' => if (N_of_ascii a =? 0)%N then 0%nat else S (strlen s')
  end.

(** ** Scanner *)

Definition remaining (c : MML_Compiler) : nat := (len c - pos c)%nat.

(** [c->src[c->pos]] as an [unsigned char]. *)
Definition char_at (c : MML_Compiler) : Z :=
  match String.get (pos c) (src c) with
  | Some a => chr a
  | None => 0
  end.

Definition peek (c : MML_Compiler) : Z :=
  if (len c <=? pos c)%nat then -1 else char_at c.

Definition get : M Z := fun c =>
  if (len c <=? pos c)%nat then (-1, c)
  else
    let ch := char_at c in
    let c1 := set_pos (S (pos c)) c in
    if ch =? chr "010" then (ch, c1)
    else (ch, set_col (col c1 + 1) c1).

Definition is_blank (ch : Z) : bool :=
  (ch =? chr " ") || (ch =? chr "009") || (ch =? chr "013").

(** The [for (;;)] of [skip_space] consumes one character per iteration,
    so it iterates at most [remaining c] times; with no fuel left the
    line is exhausted and the loop breaks. *)
Fixpoint skip_space_loop (fuel : nat) : M unit := fun c =>
  match fuel with
  | O => (tt, c)
  | S fuel' =>
      if is_blank (peek c) then (get ;; skip_space_loop fuel') c
      else (tt, c)
  end.

Definition skip_space : M unit := fun c =>
  skip_space_loop (remaining c) c.

(** The digit loop of [parse_unsigned]: [v] is a [long] clamped at
    [INT_MAX]. *)
Fixpoint parse_unsigned_loop (fuel : nat) (v : Z) : M Z := fun c =>
  match fuel with
  | O => (v, c)
  | S fuel' =>
      let ch := peek c in
      if isdigit ch then
        (get ;;
         let v1 := v * 10 + (ch - chr "0") in
         parse_unsigned_loop fuel' (if v1 >? INT_MAX then INT_MAX else v1)) c
      else (v, c)
  end.

Definition parse_unsigned : M (option Z) :=
  skip_space ;;
  ch <- gets peek ;;
  if negb (isdigit ch) then ret None
  else
    fuel <- gets remaining ;;
    v <- parse_unsigned_loop fuel 0 ;;
    ret (Some v).

Definition parse_signed : M (option Z) :=
  skip_space ;;
  ch <- gets peek ;;
  sign <- (if (ch =? chr "+") || (ch =? chr "-")
           then get ;; ret (if ch =? chr "-" then -1 else 1)
           else ret 1) ;;
  r <- parse_unsigned ;;
  match r with
  | None => ret None
  | Some v => ret (Some (sign * v))
  end.

Definition sign_byte (v : Z) : Z :=
  if v >=? 0 then v else Z.lor 128 (- v).

(** ** Errors and the emitter *)

(** [set_error]: the first error of a line is kept.  Every call in the
    source passes a message, so [error_col] is filled in whenever it is
    still [NOERROR]. *)
Definition set_error (e : MML_Error) : M unit := fun c =>
  if is_ok (error c) then
    let c1 := set_error_field e c in
    if error_col c1 =? NOERROR then (tt, set_error_col (col c1) c1)
    else (tt, c1)
  else (tt, c).

Definition ensure_space (need : Z) : M bool := fun c =>
  if out_len c + need >? out_cap c then
    (modify (fun c => set_error_col (col c) c) ;;
     set_error MML_ERR_INTERNAL ;;
     ret false) c
  else (true, c).

Definition emit_byte (v : Z) : M unit :=
  ok <- ensure_space 1 ;;
  if ok then modify (fun c => set_out (out c ++ [u8 v]) c)
  else ret tt.

Definition emit_word_le (v : Z) : M unit :=
  ok <- ensure_space 2 ;;
  if ok then
    modify (fun c =>
      set_out (out c ++ [u8 (Z.land (u16 v) 255); u8 (Z.shiftr (u16 v) 8)]) c)
  else ret tt.

(** [buf[i] = v] for a [uint8_t] buffer and a [size_t] index computed by
    subtraction; an index outside the buffer stores nothing. *)
Definition store_byte (i : Z) (v : Z) (buf : list Z) : list Z :=
  if 0 <=? i then <[Z.to_nat i := u8 v]> buf else buf.

(** [c->out[i] = v]. *)
Definition poke (i : Z) (v : Z) (c : MML_Compiler) : MML_Compiler :=
  set_out (store_byte i v (out c)) c.

(** ** Notes, PARA and lengths *)

Definition notename_to_tonenum (name : Z) : Z :=
  let up := toupper name in
  if up =? chr "C" then 1
  else if up =? chr "D" then 3
  else if up =? chr "E" then 5
  else if up =? chr "F" then 6
  else if up =? chr "G" then 8
  else if up =? chr "A" then 10
  else if up =? chr "B" then 12
  else -1.

Definition PARA_F_MINUS : Z := 128.
Definition PARA_F_PLUS : Z := 64.
Definition PARA_F_PERCENT : Z := 32.
Definition PARA_F_TIE : Z := 16.
Definition PARA_F_NOVALUE : Z := 1.

Definition has_flag (flag bit : Z) : bool := negb (Z.land flag bit =? 0).

(** The digit loop of [parse_para].  [value] is a [uint16_t]: the product
    [value * 10U + digit] is computed in 32 bits and narrowed by the
    assignment before the comparison with [UINT16_MAX]. *)
Fixpoint parse_para_loop (fuel : nat) (value : Z) : M Z := fun c =>
  match fuel with
  | O => (value, c)
  | S fuel' =>
      let ch := peek c in
      if negb (isdigit ch) then (value, c)
      else
        let digit := ch - chr "0" in
        let value1 := u16 (value * 10 + digit) in
        let value2 := if value1 >=? UINT16_MAX then UINT16_MAX else value1 in
        (get ;; parse_para_loop fuel' value2) c
  end.

(** [parse_para] returns the pair (flag, value). *)
Definition parse_para : M (Z * Z) :=
  skip_space ;;
  ch <- gets peek ;;
  flag <- (if ch =? chr "%"
           then get ;; skip_space ;; ret PARA_F_PERCENT
           else ret 0) ;;
  ch <- gets peek ;;
  flag <- (if ch =? chr "-"
           then get ;; skip_space ;; ret (Z.lor flag PARA_F_MINUS)
           else if ch =? chr "+"
           then get ;; skip_space ;; ret (Z.lor flag PARA_F_PLUS)
           else ret flag) ;;
  ch <- gets peek ;;
  if negb (isdigit ch) then ret (Z.lor flag PARA_F_NOVALUE, 0)
  else
    fuel <- gets remaining ;;
    value <- parse_para_loop fuel 0 ;;
    ret (flag, value).

(** The [for] loop of [apply_dots], on the pair ([len96], [half]). *)
Fixpoint apply_dots_loop (n : nat) (len96 half : Z) : M (option Z) :=
  match n with
  | O => ret (Some len96)
  | S n' =>
      if negb (Z.rem half 2 =? 0) then ret None
      else
        let half1 := Z.quot half 2 in
        modify (fun c => set_error_col (error_col c + 1) c) ;;
        apply_dots_loop n' (len96 + half1) half1
  end.

Definition apply_dots (base_len96 dots : Z) : M (option Z) :=
  r <- apply_dots_loop (Z.to_nat dots) base_len96 base_len96 ;;
  match r with
  | None => ret None
  | Some len96 =>
      if (len96 <=? 0) || (len96 >? 32767) then ret None
      else ret (Some len96)
  end.

(** The dot-counting loop of [parse_length_96]; each iteration that
    continues consumes a ['.']. *)
Fixpoint count_dots (fuel : nat) (dots : Z) : M Z :=
  skip_space ;;
  ch <- gets peek ;;
  if ch =? chr "." then
    match fuel with
    | O => ret dots
    | S fuel' => get ;; count_dots fuel' (dots + 1)
    end
  else ret dots.

Definition is_len_denominator (value : Z) : bool :=
  (value =? 1) || (value =? 2) || (value =? 3) || (value =? 4) ||
  (value =? 6) || (value =? 8) || (value =? 12) || (value =? 16) ||
  (value =? 24) || (value =? 32) || (value =? 48) || (value =? 96).

(** The base length of one term of a length specification: the part of
    [parse_length_96] before the dots.  [None] is [return 0]. *)
Definition length_base (flag value : Z) : M (option Z) :=
  if has_flag flag PARA_F_PERCENT then
    if has_flag flag PARA_F_NOVALUE then
      set_error MML_ERR_FUNC_RANGE ;; ret None
    else if (value <? 1) || (value >? 255) then
      set_error MML_ERR_FUNC_RANGE ;; ret None
    else ret (Some value)
  else if has_flag flag PARA_F_NOVALUE then
    l <- gets l_len96 ;; ret (Some l)
  else if is_len_denominator value then ret (Some (96 / value))
  else set_error MML_ERR_FUNC_RANGE ;; ret None.

(** The dots of one term: counted, then applied. *)
Definition length_dots (base_len : Z) : M (option Z) :=
  modify (fun c => set_error_col (col c) c) ;;
  fuel <- gets remaining ;;
  dots <- count_dots fuel 0 ;;
  if dots >? 0 then
    modify (fun c => set_error_col (error_col c + 1) c) ;;
    r <- apply_dots base_len dots ;;
    match r with
    | None => set_error MML_ERR_FUNC_RANGE ;; ret None
    | Some l => ret (Some l)
    end
  else ret (Some base_len).

(** [parse_length_96] returns [Some (len96, flag)] for [return 1] and
    [None] for [return 0].  The function recurses after each ['^'] it
    consumes; [parse_length_96_rec] and the ['^'] loop [length_carets]
    recurse on a common fuel, and every recursive call follows a [get] of a
    ['^'], so a fuel of twice the remaining characters plus one is never
    exhausted. *)
Fixpoint parse_length_96_rec (fuel : nat) : M (option (Z * Z)) :=
  match fuel with
  | O => ret None
  | S fuel' =>
      pv <- parse_para ;;
      modify (fun c => set_error_col (col c) c) ;;
      b <- length_base (fst pv) (snd pv) ;;
      match b with
      | None => ret None
      | Some base_len =>
          d <- length_dots base_len ;;
          match d with
          | None => ret None
          | Some base_len =>
              modify (set_error_col NOERROR) ;;
              t <- length_carets fuel' base_len ;;
              match t with
              | None => ret None
              | Some total => ret (Some (total, fst pv))
              end
          end
      end
  end
with length_carets (fuel : nat) (base_len : Z) : M (option Z) :=
  skip_space ;;
  ch <- gets peek ;;
  if negb (ch =? chr "^") then ret (Some base_len)
  else
    match fuel with
    | O => ret None
    | S fuel' =>
        get ;;
        r <- parse_length_96_rec fuel' ;;
        match r with
        | None => ret None
        | Some (add_len, _) => length_carets fuel' (base_len + add_len)
        end
    end.

Definition parse_length_96 : M (option (Z * Z)) := fun c =>
  parse_length_96_rec (2 * remaining c + 1) c.

Definition make_note_header (c : MML_Compiler) (tone len96 : Z) (tie : bool)
  : Z :=
  let header := Z.shiftl (if tie then 1 else 0) 6 in
  let header :=
    if len96 =? l_len96 c then Z.lor header (Z.shiftl 0 4)
    else if len96 =? lp_len96 c then Z.lor header (Z.shiftl 1 4)
    else if len96 <=? 255 then Z.lor header (Z.shiftl 2 4)
    else Z.lor header (Z.shiftl 3 4) in
  Z.lor header (Z.land (u8 tone) 15).

(** ** Octave helpers *)

Definition set_octave (n : Z) : M unit :=
  if (n <? 1) || (n >? 8) then set_error MML_ERR_OCTAVE
  else modify (set_octave_field n).

Definition emit_octave (n : Z) : M unit :=
  if (n <? 1) || (n >? 8) then set_error MML_ERR_OCTAVE
  else emit_byte (128 + u8 n) ;; modify (set_octave_last n).

(** ** Notes and rests *)

(** The pitch part of [compile_note]: the tone number and the octave the
    note is emitted in, or [None] when the function returns with an
    error.  A rest takes neither accidental nor transposition. *)
Definition note_pitch (ch : Z) : M (option (Z * Z)) :=
  octave0 <- gets octave ;;
  modify (fun c => set_error_col (col c) c) ;;
  if ch =? chr "R" then ret (Some (0, octave0))
  else
    let tone := notename_to_tonenum ch in
    if tone <? 0 then set_error MML_ERR_SYNTAX ;; ret None
    else
      skip_space ;;
      a <- gets peek ;;
      tone <- (if (a =? chr "#") || (a =? chr "+") then get ;; ret (tone + 1)
               else if a =? chr "-" then get ;; ret (tone - 1)
               else ret tone) ;;
      let tone := if tone >? 12 then 12 else tone in
      let tone := if tone <? 1 then 1 else tone in
      ks <- gets key_shift ;;
      if negb (ks =? 0) then
        let tone := tone + ks in
        let ot := if tone >? 12 then (octave0 + 1, tone - 12)
                  else if tone <? 1 then (octave0 - 1, tone + 12)
                  else (octave0, tone) in
        if (fst ot <? 1) || (fst ot >? 8) then
          set_error MML_ERR_NOTE_OVERFLOW ;; ret None
        else ret (Some (snd ot, fst ot))
      else ret (Some (tone, octave0)).

(** The emission part of [compile_note], from the octave comparison to
    the length bytes. *)
Definition note_emit (tone octave0 len96 : Z) (tie : bool) : M unit :=
  ol <- gets octave_last ;;
  (if negb (ol =? octave0) then emit_octave octave0 else ret tt) ;;
  onpu <- gets (fun c => make_note_header c tone len96 tie) ;;
  emit_byte onpu ;;
  l <- gets l_len96 ;;
  lp <- gets lp_len96 ;;
  if negb (len96 =? l) && negb (len96 =? lp) then
    if len96 <=? 255 then emit_byte (u8 len96)
    else emit_word_le (u16 len96)
  else ret tt.

Definition compile_note (note : Z) : M unit :=
  p <- note_pitch (toupper note) ;;
  match p with
  | None => ret tt
  | Some (tone, octave0) =>
      modify (set_error_col NOERROR) ;;
      r <- parse_length_96 ;;
      match r with
      | None => ret tt
      | Some (len96, flag) =>
          if has_flag flag PARA_F_PLUS then set_error MML_ERR_FUNC_RANGE
          else if has_flag flag PARA_F_MINUS then set_error MML_ERR_FUNC_RANGE
          else
            skip_space ;;
            a <- gets peek ;;
            tie <- (if a =? chr "&" then get ;; ret true else ret false) ;;
            note_emit tone octave0 len96 tie
      end
  end.

(** ** Commands *)

(** [skip_space(c); if (peek(c) != ',') goto err; (void)get(c);] *)
Definition expect_comma : M bool :=
  skip_space ;;
  ch <- gets peek ;;
  if ch =? chr "," then get ;; ret true else ret false.

(** Run a numeric parser and continue with its value, or take the error
    exit. *)
Definition operand (p : M (option Z)) (err : M unit) (k : Z -> M unit)
  : M unit :=
  r <- p ;;
  match r with
  | None => err
  | Some v => k v
  end.

Definition comma (err : M unit) (k : M unit) : M unit :=
  ok <- expect_comma ;;
  if ok then k else err.

Definition func_range : M unit := set_error MML_ERR_FUNC_RANGE.

(** [while ((ch = peek(c)) >= 0 && ch != '\n') (void)get(c);] *)
Fixpoint discard_line (fuel : nat) : M unit := fun c =>
  let ch := peek c in
  if (ch >=? 0) && negb (ch =? chr "010") then
    match fuel with
    | O => (tt, c)
    | S fuel' => (get ;; discard_line fuel') c
    end
  else (tt, c).

(** [while ((ch = get(c)) >= 0 && ch != '\n');] *)
Fixpoint skip_comment (fuel : nat) : M unit :=
  ch <- get ;;
  if (ch >=? 0) && negb (ch =? chr "010") then
    match fuel with
    | O => ret tt
    | S fuel' => skip_comment fuel'
    end
  else ret tt.

Definition zero_loop : MML_LoopState := mkLoop 0 LOOP_NOEXIT 0 0 0 0.

(** [c->loops[idx]], read and written. *)
Definition loop_load (idx : Z) (c : MML_Compiler) : MML_LoopState :=
  if 0 <=? idx then default zero_loop (loops c !! Z.to_nat idx)
  else zero_loop.

Definition loop_store (idx : Z) (ls : MML_LoopState) (c : MML_Compiler)
  : MML_Compiler :=
  if 0 <=? idx then set_loops (<[Z.to_nat idx := ls]> (loops c)) c else c.

(** Each [case] of the [switch] in [compile_command] is a definition of
    its own, named after its command character. *)

Definition command_O : M unit :=
  operand parse_unsigned func_range set_octave.

Definition command_gt : M unit :=
  r <- parse_unsigned ;;
  v <- match r with
       | None => modify (fun c => set_error_col (col c - 1) c) ;; ret 1
       | Some v => ret v
       end ;;
  o <- gets octave ;;
  set_octave (o + v).

Definition command_lt : M unit :=
  r <- parse_unsigned ;;
  v <- match r with
       | None => modify (fun c => set_error_col (col c - 1) c) ;; ret 1
       | Some v => ret v
       end ;;
  o <- gets octave ;;
  set_octave (o - v).

Definition command_V : M unit :=
  operand parse_unsigned func_range (fun v =>
    if (v <? 0) || (v >? 15) then func_range
    else emit_byte (144 + u8 v)).

Definition command_lparen : M unit :=
  r <- parse_unsigned ;;
  let v := match r with None => 1 | Some v => v end in
  if (v <? 1) || (v >? 15) then func_range
  else emit_byte (176 + u8 v).

Definition command_rparen : M unit :=
  r <- parse_unsigned ;;
  let v := match r with None => 1 | Some v => v end in
  if (v <? 1) || (v >? 15) then func_range
  else emit_byte (160 + u8 v).

Definition command_I : M unit :=
  operand parse_unsigned func_range (fun v =>
    if (v <? 0) || (v >? 255) then func_range
    else emit_byte 244 ;; emit_byte (u8 v)).

Definition command_J : M unit :=
  nd <- gets nest_depth ;;
  if nd >? 0 then
    set_error MML_ERR_RETURN_IN_NEST ;; modify (set_nest_depth 0)
  else emit_byte 254.

Definition command_L : M unit :=
  r <- parse_length_96 ;;
  match r with
  | None => ret tt
  | Some (len96, flag) =>
      if has_flag flag PARA_F_NOVALUE then func_range
      else if has_flag flag PARA_F_MINUS then func_range
      else if (len96 <? 0) || (len96 >? 255) then func_range
      else
        (if negb (has_flag flag PARA_F_PLUS)
         then modify (set_l_len96 len96) ;; emit_byte 249
         else modify (set_lp_len96 len96) ;; emit_byte 247) ;;
        emit_byte (u8 len96)
  end.

Definition command_M : M unit :=
  skip_space ;;
  nxt <- gets peek ;;
  if nxt =? chr "%" then
    get ;;
    operand parse_signed func_range (fun v =>
      if (v <? -127) || (v >? 127) then func_range
      else emit_byte 253 ;; emit_byte (u8 (sign_byte v)))
  else
    operand parse_unsigned func_range (fun n1 =>
    comma func_range (
    operand parse_unsigned func_range (fun n2 =>
    comma func_range (
    operand parse_unsigned func_range (fun n3 =>
    comma func_range (
    operand parse_signed func_range (fun n4 =>
      emit_byte 245 ;;
      emit_byte (u8 n1) ;;
      emit_byte (u8 n2) ;;
      emit_byte (u8 n3) ;;
      emit_byte (u8 (sign_byte n4))))))))).

Definition command_N : M unit := emit_byte 246.

Definition command_P : M unit :=
  operand parse_unsigned func_range (fun v =>
    if v =? 1 then emit_byte 237
    else if v =? 2 then emit_byte 238
    else if v =? 3 then emit_byte 239
    else func_range).

Definition command_Q : M unit :=
  operand parse_unsigned func_range (fun v =>
    if (v <? 0) || (v >? 255) then func_range
    else emit_byte 250 ;; emit_byte (u8 v)).

Definition command_S : M unit :=
  operand parse_signed func_range (fun n1 =>
  comma func_range (
  operand parse_unsigned func_range (fun n2 =>
  comma func_range (
  operand parse_signed func_range (fun n3 =>
  comma func_range (
  operand parse_signed func_range (fun n4 =>
  comma func_range (
  operand parse_signed func_range (fun n5 =>
    emit_byte 234 ;;
    emit_byte (u8 n1) ;;
    if negb (n1 =? 0) then
      emit_byte (u8 n2) ;;
      emit_byte (u8 n3) ;;
      emit_byte (u8 n4) ;;
      emit_byte (u8 (sign_byte n5))
    else ret tt))))))))).

Definition command_T : M unit :=
  operand parse_unsigned func_range (fun n1 =>
    if (n1 <? 1) || (n1 >? 255) then func_range
    else
      comma func_range (
      operand parse_unsigned func_range (fun n2 =>
        if (n2 <? 0) || (n2 >? 255) then func_range
        else emit_byte 248 ;; emit_byte (u8 n1) ;; emit_byte (u8 n2)))).

Definition command_U : M unit :=
  skip_space ;;
  nxt <- gets peek ;;
  if nxt =? chr "%" then
    get ;;
    operand parse_signed func_range (fun v =>
      if (v <? -127) || (v >? 127) then func_range
      else emit_byte 251 ;; emit_byte (u8 (sign_byte v)))
  else if (nxt =? chr "+") || (nxt =? chr "-") then
    operand parse_signed func_range (fun v =>
      if (v <? -127) || (v >? 127) then func_range
      else emit_byte 252 ;; emit_byte (u8 v))
  else func_range.

Definition command_W : M unit :=
  skip_space ;;
  nxt <- gets peek ;;
  if (nxt =? chr "+") || (nxt =? chr "-") then
    operand parse_signed func_range (fun v =>
      if (v <? -31) || (v >? 31) then func_range
      else emit_byte 236 ;; emit_byte (u8 v))
  else
    operand parse_unsigned func_range (fun v =>
      if (v <? 0) || (v >? 31) then func_range
      else emit_byte 235 ;; emit_byte (u8 v)).

Definition command_X : M unit :=
  nd <- gets nest_depth ;;
  if nd >? 0 then
    set_error MML_ERR_RETURN_IN_NEST ;; modify (set_nest_depth 0)
  else
    emit_byte 233 ;;
    fuel <- gets remaining ;;
    discard_line fuel.

Definition command_underscore : M unit :=
  operand parse_signed func_range (fun v =>
    if (v <? -12) || (v >? 12) then func_range
    else modify (set_key_shift v)).

Definition command_open : M unit :=
  nd <- gets nest_depth ;;
  if nd >=? MML_MAX_NEST then
    func_range ;; modify (set_nest_depth 0)
  else
    emit_byte 240 ;;
    emit_byte 0 ;;
    modify (fun c =>
      loop_store nd (mkLoop (out_len c) LOOP_NOEXIT 0 0 0 0)
        (set_nest_depth (nd + 1) c)).

(** The tail of the [']'] case: leaving the loop level [idx] restores the
    defaults a [':'] saved there and clears the saved copies. *)
Definition restore_saved (idx : Z) (c : MML_Compiler) : MML_Compiler :=
  let ls := loop_load idx c in
  let c1 :=
    if negb (saved_l_len96 ls =? 0) then set_l_len96 (saved_l_len96 ls) c
    else c in
  let c2 :=
    if negb (saved_lp_len96 ls =? 0) then set_lp_len96 (saved_lp_len96 ls) c1
    else c1 in
  let c3 :=
    if negb (saved_octave ls =? 0)
    then set_octave_last (saved_octave_last ls)
           (set_octave_field (saved_octave ls) c2)
    else c2 in
  let ls' :=
    mkLoop (loop_start ls) (exit_mark ls)
      0
      0
      (if negb (saved_octave ls =? 0) then 0 else saved_octave ls)
      (if negb (saved_octave ls =? 0) then 0 else saved_octave_last ls) in
  loop_store idx ls' c3.

Definition command_close : M unit :=
  nd <- gets nest_depth ;;
  if nd <=? 0 then set_error MML_ERR_OUT_OF_NEST
  else
    operand parse_unsigned func_range (fun count =>
      if (count <? 2) || (count >? 255) then func_range
      else
        ls <- gets (loop_load (nd - 1)) ;;
        modify (poke (loop_start ls - 1) count) ;;
        jump_pos <- gets out_len ;;
        let offset := loop_start ls - (jump_pos + 3) in
        (if (offset >=? -256) && (offset <=? -1) then
           emit_byte 241 ;;
           emit_byte (u8 (Z.land (offset + 1) 255))
         else
           emit_byte 242 ;;
           emit_word_le (u16 offset)) ;;
        (if negb (exit_mark ls =? LOOP_NOEXIT) then
           modify (fun c =>
             let jump_pos := out_len c in
             let colon_pos := exit_mark ls - 3 in
             let ex16 := u16 (jump_pos - (colon_pos + 3)) in
             poke (colon_pos + 2) (u8 (Z.shiftr ex16 8))
               (poke (colon_pos + 1) (u8 (Z.land ex16 255)) c))
         else ret tt) ;;
        modify (set_nest_depth (nd - 1)) ;;
        modify (restore_saved (nd - 1))).

Definition command_colon : M unit :=
  nd <- gets nest_depth ;;
  if nd <=? 0 then
    set_error MML_ERR_OUT_OF_NEST ;; modify (set_nest_depth 0)
  else
    ls <- gets (loop_load (nd - 1)) ;;
    if negb (exit_mark ls =? LOOP_NOEXIT) then
      set_error MML_ERR_DUP_EXIT ;; modify (set_nest_depth 0)
    else
      emit_byte 243 ;;
      emit_word_le 0 ;;
      modify (fun c =>
        loop_store (nd - 1)
          (mkLoop (loop_start ls) (out_len c) (l_len96 c) (lp_len96 c)
             (u8 (octave c)) (u8 (octave_last c))) c).

Definition command_semicolon : M unit :=
  fuel <- gets remaining ;;
  discard_line fuel.

Definition compile_command (command : Z) : M unit :=
  let ch := toupper command in
  if ch =? chr "O" then command_O
  else if ch =? chr ">" then command_gt
  else if ch =? chr "<" then command_lt
  else if ch =? chr "V" then command_V
  else if ch =? chr "(" then command_lparen
  else if ch =? chr ")" then command_rparen
  else if ch =? chr "I" then command_I
  else if ch =? chr "J" then command_J
  else if ch =? chr "L" then command_L
  else if ch =? chr "M" then command_M
  else if ch =? chr "N" then command_N
  else if ch =? chr "P" then command_P
  else if ch =? chr "Q" then command_Q
  else if ch =? chr "S" then command_S
  else if ch =? chr "T" then command_T
  else if ch =? chr "U" then command_U
  else if ch =? chr "W" then command_W
  else if ch =? chr "X" then command_X
  else if ch =? chr "_" then command_underscore
  else if ch =? chr "[" then command_open
  else if ch =? chr "]" then command_close
  else if ch =? chr ":" then command_colon
  else if ch =? chr ";" then command_semicolon
  else set_error MML_ERR_SYNTAX.

(** ** Statements, lines and channels *)

(** [strchr("ABCDEFGR", up) != NULL]; [strchr] also finds the terminating
    NUL, which [get] never returns from inside a line. *)
Definition is_note_letter (up : Z) : bool :=
  ((chr "A" <=? up) && (up <=? chr "G")) || (up =? chr "R") || (up =? 0).

Definition compile_statement : M unit :=
  skip_space ;;
  ch <- gets peek ;;
  if ch <? 0 then ret tt
  else if ch =? chr ";" then
    fuel <- gets remaining ;;
    skip_comment fuel
  else if ch =? chr "010" then get ;; ret tt
  else
    ch <- get ;;
    let up := toupper ch in
    if is_note_letter up then compile_note up
    else compile_command up.

Definition mml_channel_init (out_size : Z) : MML_Compiler :=
  {| src := EmptyString; pos := 0; len := 0; line := 0; col := 0;
     out := []; out_cap := out_size;
     nest_depth := 0; l_len96 := 24; lp_len96 := 192;
     octave := 4; octave_last := 4; key_shift := 0;
     loops := replicate (Z.to_nat MML_MAX_NEST) zero_loop;
     error := MML_OK; error_col := 0 |}.

(** The assignments at the head of [mml_compile_line]. *)
Definition begin_line (s : string) (line_no : Z) (c : MML_Compiler)
  : MML_Compiler :=
  {| src := s; pos := 0; len := strlen s; line := line_no; col := 1;
     out := out c; out_cap := out_cap c;
     nest_depth := nest_depth c; l_len96 := l_len96 c;
     lp_len96 := lp_len96 c;
     octave := octave c; octave_last := octave_last c;
     key_shift := key_shift c;
     loops := loops c;
     error := MML_OK; error_col := NOERROR |}.

(** [while (c->pos < c->len && c->error == MML_OK) compile_statement(c);]
    Each statement consumes at least one character, so the loop body runs
    at most [remaining c] times. *)
Fixpoint compile_line_loop (fuel : nat) : M unit := fun c =>
  if (pos c <? len c)%nat && is_ok (error c) then
    match fuel with
    | O => (tt, c)
    | S fuel' => (compile_statement ;; compile_line_loop fuel') c
    end
  else (tt, c).

Definition mml_compile_line (s : string) (line_no : Z) : M MML_Error :=
  modify (begin_line s line_no) ;;
  fuel <- gets remaining ;;
  compile_line_loop fuel ;;
  gets error.

Definition mml_finish_channel : M MML_Error :=
  nd <- gets nest_depth ;;
  if negb (nd =? 0) then
    set_error MML_ERR_CLOSE_NEST ;;
    gets error
  else
    emit_byte 255 ;;
    modify (set_error_field MML_OK) ;;
    ret MML_OK.

(** One channel compiled from a single line and finished: the result of
    [mml_compile_line], the result of [mml_finish_channel] and the bytes
    [out[0 .. out_len)]. *)
Definition channel_bytes (out_size : Z) (s : string)
  : MML_Error * MML_Error * list Z :=
  let r1 := mml_compile_line s 1 (mml_channel_init out_size) in
  let r2 := mml_finish_channel (snd r1) in
  (fst r1, fst r2, out (snd r2)).

(** ** Object file assembly ([main.c]) *)

Definition CH_BUF_SIZE : Z := 32768.
Definition CH1_START_OFFSET : Z := 8.
Definition ch_offset : list Z := [0; 2; 4].

Definition put_word_le (at_ : Z) (v : Z) (buf : list Z) : list Z :=
  store_byte (at_ + 1) (Z.shiftr (u16 v) 8)
    (store_byte at_ (Z.land (u16 v) 255) buf).

Fixpoint memcpy (at_ : Z) (data : list Z) (buf : list Z) : list Z :=
  match data with
  | [] => buf
  | x :: data' => memcpy (at_ + 1) data' (store_byte at_ x buf)
  end.

(** [psgch[i].offset], three [uint16_t]. *)
Definition channel_offsets (ch1 ch2 : list Z) : list Z :=
  let o0 := CH1_START_OFFSET in
  let o1 := u16 (o0 + Z.of_nat (length ch1)) in
  let o2 := u16 (o1 + Z.of_nat (length ch2)) in
  [o0; o1; o2].

Definition totallen (ch1 ch2 ch3 : list Z) : Z :=
  default 0 (channel_offsets ch1 ch2 !! 2%nat) + Z.of_nat (length ch3).

(** The loop that fills [outbuf]: for each channel the start address word,
    then the bytecode.  [outbuf] is the block [malloc(totallen)] returned;
    [malloc] does not initialise it. *)
Definition fill_channel (baseaddr : Z) (offs : list Z) (outbuf : list Z)
    (ich : nat * list Z) : list Z :=
  let off := default 0 (offs !! fst ich) in
  memcpy off (snd ich)
    (put_word_le (default 0 (ch_offset !! fst ich)) (baseaddr + off) outbuf).

Definition object_image (baseaddr : Z) (ch1 ch2 ch3 : list Z)
    (outbuf : list Z) : list Z :=
  foldl (fill_channel baseaddr (channel_offsets ch1 ch2)) outbuf
    [(0%nat, ch1); (1%nat, ch2); (2%nat, ch3)].

(** ** The driver loop ([main.c]) *)

(** A line is the C string [fgets] stored in [line]; a pointer into it is
    the suffix that starts there.  [head_code p] is [*p] (NUL at the end
    of the string) and [string_tail p] is [p + 1]. *)
Definition head_code (p : string) : Z :=
  match p with
  | EmptyString => 0
  | String a _ => chr a
  end.

Definition string_tail (p : string) : string :=
  match p with
  | EmptyString => EmptyString
  | String _ p' => p'
  end.

(** The loop [while] over [*p == ' ' || *p == '\t'] with body [p++]. *)
Fixpoint skip_blanks (p : string) : string :=
  match p with
  | EmptyString => p
  | String a p' =>
      if (chr a =? chr " ") || (chr a =? chr "009") then skip_blanks p'
      else p
  end.

(** The loop [while] over [isdigit] of [*p] with body [p++]. *)
Fixpoint skip_digits (p : string) : string :=
  match p with
  | EmptyString => p
  | String a p' => if isdigit (chr a) then skip_digits p' else p
  end.

(** The loop [while] over [*p == ' '] with body [p++]. *)
Fixpoint skip_spaces (p : string) : string :=
  match p with
  | EmptyString => p
  | String a p' => if chr a =? chr " " then skip_spaces p' else p
  end.

(** The head of the [while (fgets ...)] body: leading blanks, then an
    optional line number with the spaces and the one double quote that
    may follow it. *)
Definition strip_prefix (line : string) : string :=
  let p := skip_blanks line in
  if isdigit (head_code p) then
    let p := skip_spaces (skip_digits p) in
    if head_code p =? chr "034" then string_tail p else p
  else p.

Definition LINE_BUF_SIZE : nat := 400.
Definition PSG_NCH : nat := 3.

(** [psgch_t]: [buf] is the [out] of [mmlcp], [offset] is computed by
    the assembly. *)
Record psgch_t : Type := mkPsgch {
  mmlcp : MML_Compiler;
  last_line : string
}.

(** The locals of [main] that the line loop updates.  What
    [print_mmlc_error] writes to [stderr] is not modelled. *)
Record main_state : Type := mkMain {
  psgch : list psgch_t;
  lineno : Z;
  abort : bool;
  x_disabled : bool
}.

(** [strncpy(last_line, line, sizeof(last_line))] followed by the
    terminating NUL in the last byte. *)
Definition save_last_line (line : string) : string :=
  String.substring 0 (LINE_BUF_SIZE - 1) line.

(** One turn of [for (int i = 0; i < PSG_NCH; i++)] in the line loop. *)
Definition compile_on_channel (p line : string) (st : main_state) (i : nat)
  : main_state :=
  if negb (x_disabled st)
     && (toupper (head_code p) =? chr "D" + Z.of_nat i) then
    match psgch st !! i with
    | Some ch =>
        let r := mml_compile_line (string_tail p) (lineno st) (mmlcp ch) in
        mkMain
          (<[i := mkPsgch (snd r) (save_last_line line)]> (psgch st))
          (lineno st)
          (if is_ok (fst r) then abort st else true)
          (x_disabled st)
    | None => st
    end
  else st.

(** The body of [while (fgets(line, sizeof(line), ifp) != NULL)]. *)
Definition process_line (st : main_state) (line : string) : main_state :=
  let st1 := mkMain (psgch st) (lineno st + 1) (abort st) (x_disabled st) in
  let p := strip_prefix line in
  let st2 := foldl (compile_on_channel p line) st1 (seq 0 PSG_NCH) in
  if toupper (head_code p) =? chr "X" then
    mkMain (psgch st2) (lineno st2) (abort st2) (negb (x_disabled st2))
  else st2.

Definition main_init : main_state :=
  mkMain (replicate PSG_NCH (mkPsgch (mml_channel_init CH_BUF_SIZE) EmptyString))
    0 false false.

(** One turn of the loop that closes the channels. *)
Definition finish_on_channel (st : main_state) (i : nat) : main_state :=
  match psgch st !! i with
  | Some ch =>
      let r := mml_finish_channel (mmlcp ch) in
      mkMain (<[i := mkPsgch (snd r) (last_line ch)]> (psgch st))
        (lineno st)
        (if is_ok (fst r) then abort st else true)
        (x_disabled st)
  | None => st
  end.

(** [main] from the opening of the input to the test of [abort]: the
    lines [fgets] returned, in order, then the finish of every channel. *)
Definition main_compile (lines : list string) : main_state :=
  foldl finish_on_channel (foldl process_line main_init lines)
    (seq 0 PSG_NCH).

(** The bytecode of the three channels, or [None] when [main] stops at
    [if (abort)] without writing the output. *)
Definition main_channels (lines : list string) : option (list (list Z)) :=
  let st := main_compile lines in
  if abort st then None
  else Some (map (fun ch => out (mmlcp ch)) (psgch st)).

(** * Vocabulary of the properties *)

(** [frame R m]: running [m] takes every state to an [R]-related one. *)
Definition frame (R : relation MML_Compiler) {A} (m : M A) : Prop :=
  forall c, R c (snd (m c)).

(** [scan_only c c']: from [c] to [c'] only the cursor ([pos], [col]) and
    the diagnostic fields changed; the cursor moved forward inside the
    line, and an error present in [c] is still present in [c']. *)
Record scan_only (c c' : MML_Compiler) : Prop := mkScanOnly {
  so_src : src c' = src c;
  so_len : len c' = len c;
  so_line : line c' = line c;
  so_out : out c' = out c;
  so_cap : out_cap c' = out_cap c;
  so_nest : nest_depth c' = nest_depth c;
  so_l : l_len96 c' = l_len96 c;
  so_lp : lp_len96 c' = lp_len96 c;
  so_octave : octave c' = octave c;
  so_octave_last : octave_last c' = octave_last c;
  so_key_shift : key_shift c' = key_shift c;
  so_loops : loops c' = loops c;
  so_pos : (pos c <= pos c')%nat;
  so_bound : (pos c <= len c)%nat -> (pos c' <= len c')%nat;
  so_err : error c <> MML_OK -> error c' <> MML_OK
}.

(** The four length forms of a note header, in the order the source tests
    them, and the length bytes that follow the header in each form. *)
Definition length_form (c : MML_Compiler) (L : Z) : Z :=
  if L =? l_len96 c then 0
  else if L =? lp_len96 c then 1
  else if L <=? 255 then 2
  else 3.

Definition length_bytes (c : MML_Compiler) (L : Z) : list Z :=
  match length_form c L with
  | 2 => [u8 L]
  | 3 => [Z.land (u16 L) 255; Z.shiftr (u16 L) 8]
  | _ => []
  end.

(** [emitted bs c c']: going from [c] to [c'] kept the default lengths and
    any error, and, if [c'] carries no error, appended exactly [bs]. *)
Definition emitted (bs : list Z) (c c' : MML_Compiler) : Prop :=
  l_len96 c' = l_len96 c /\
  lp_len96 c' = lp_len96 c /\
  (error c <> MML_OK -> error c' <> MML_OK) /\
  (error c' = MML_OK -> out c' = out c ++ bs).

(** [ks_indep m]: [m] neither reads nor writes [key_shift]; it commutes
    with any change of that field. *)
Definition ks_indep {A} (m : M A) : Prop :=
  forall k c,
    m (set_key_shift k c) = (fst (m c), set_key_shift k (snd (m c))).

(** The errors the length parser and the emitter raise. *)
Definition rest_error (e : MML_Error) : Prop :=
  e = MML_ERR_FUNC_RANGE \/ e = MML_ERR_INTERNAL \/ e = MML_ERR_OCTAVE.

(** [new_error_in P c c']: the error of [c'] is the one of [c], or a new
    one of a kind in [P]. *)
Definition new_error_in (P : MML_Error -> Prop) : relation MML_Compiler :=
  fun c c' => error c' = error c \/ P (error c').

Abbreviation rest_frame := (frame (new_error_in rest_error)).

(** [advance c c']: the cursor stayed in the same line and did not move
    back. *)
Definition advance (c c' : MML_Compiler) : Prop :=
  len c' = len c /\ (pos c <= pos c')%nat.

(** The condition of the [while] in [mml_compile_line]. *)
Definition line_loop_condition (c : MML_Compiler) : bool :=
  (pos c <? len c)%nat && is_ok (error c).

(** The part of the channel invariant the note encoding relies on: the
    key shift is in range, the default length is positive, and no loop
    level holds a negative saved length. *)
Definition channel_inv (c : MML_Compiler) : Prop :=
  -12 <= key_shift c <= 12
  /\ 1 <= l_len96 c
  /\ Forall (fun ls => 0 <= saved_l_len96 ls) (loops c).

Definition keeps_inv (c c' : MML_Compiler) : Prop :=
  channel_inv c -> channel_inv c'.

(** [carets n]: a run of [n] characters ['^']. *)
Fixpoint carets (n : nat) : string :=
  match n with
  | O => EmptyString
  | S n' => String "^" (carets n')
  end.

(** ** Vocabulary of the further properties *)

(** The value a sign-and-magnitude byte stands for: bit 7 is the sign,
    bits 6-0 the absolute value. *)
Definition sign_magnitude_value (b : Z) : Z :=
  if Z.testbit b 7 then - Z.land b 127 else b.

(** The tone a note letter and the character after it denote, before
    transposition: the accidental applied and the result clipped to
    1..12. *)
Definition accidental_tone (ch a : Z) : Z :=
  let t := notename_to_tonenum ch in
  let t := if (a =? chr "#") || (a =? chr "+") then t + 1
           else if a =? chr "-" then t - 1
           else t in
  let t := if t >? 12 then 12 else t in
  if t <? 1 then 1 else t.

(** The state of a channel after [mml_channel_init] and the given lines,
    each with its line number. *)
Definition channel_after (out_size : Z) (lines : list (string * Z))
  : MML_Compiler :=
  foldl (fun c l => snd (mml_compile_line (fst l) (snd l) c))
    (mml_channel_init out_size) lines.

(** A loop level holds, for each saved default, either 0 (nothing
    saved) or a value of the range of the default it was copied from. *)
Definition loop_wf (ls : MML_LoopState) : Prop :=
  (saved_l_len96 ls = 0 \/ 1 <= saved_l_len96 ls <= 255)
  /\ (saved_lp_len96 ls = 0 \/ 1 <= saved_lp_len96 ls <= 255)
  /\ (saved_octave ls = 0
      \/ (1 <= saved_octave ls <= 8 /\ 1 <= saved_octave_last ls <= 8)).

(** The ranges of the channel state. *)
Record channel_wf (c : MML_Compiler) : Prop := mkChannelWf {
  wf_octave : 1 <= octave c <= 8;
  wf_octave_last : 1 <= octave_last c <= 8;
  wf_nest : 0 <= nest_depth c <= MML_MAX_NEST;
  wf_l : 1 <= l_len96 c <= 255;
  wf_lp : 1 <= lp_len96 c <= 255;
  wf_ks : -12 <= key_shift c <= 12;
  wf_loops_len : length (loops c) = Z.to_nat MML_MAX_NEST;
  wf_loops : Forall loop_wf (loops c)
}.

Definition keeps_wf (c c' : MML_Compiler) : Prop :=
  channel_wf c -> channel_wf c'.

(** [grows c c']: the buffer capacity is the same, no byte was taken
    back, and the output still fits if it did. *)
Definition grows (c c' : MML_Compiler) : Prop :=
  out_cap c' = out_cap c
  /\ (length (out c) <= length (out c'))%nat
  /\ (out_len c <= out_cap c -> out_len c' <= out_cap c').

(** [emit_only c c']: from [c] to [c'] only the output and the
    diagnostic fields changed. *)
Record emit_only (c c' : MML_Compiler) : Prop := mkEmitOnly {
  eo_src : src c' = src c;
  eo_pos : pos c' = pos c;
  eo_len : len c' = len c;
  eo_col : col c' = col c;
  eo_cap : out_cap c' = out_cap c;
  eo_nest : nest_depth c' = nest_depth c;
  eo_l : l_len96 c' = l_len96 c;
  eo_lp : lp_len96 c' = lp_len96 c;
  eo_octave : octave c' = octave c;
  eo_octave_last : octave_last c' = octave_last c;
  eo_key_shift : key_shift c' = key_shift c;
  eo_loops : loops c' = loops c
}.

(** [note_only c c']: as [emit_only], but [octave_last] may have changed
    too. *)
Record note_only (c c' : MML_Compiler) : Prop := mkNoteOnly {
  no_src : src c' = src c;
  no_pos : pos c' = pos c;
  no_len : len c' = len c;
  no_cap : out_cap c' = out_cap c;
  no_nest : nest_depth c' = nest_depth c;
  no_l : l_len96 c' = l_len96 c;
  no_lp : lp_len96 c' = lp_len96 c;
  no_octave : octave c' = octave c;
  no_key_shift : key_shift c' = key_shift c;
  no_loops : loops c' = loops c
}.

(** The jump bytes the [']'] case emits for the backward offset
    [offset]: F1 and one byte when the offset fits -256..-1, F2 and a
    16-bit little-endian word otherwise. *)
Definition close_jump (offset : Z) : list Z :=
  if (offset >=? -256) && (offset <=? -1)
  then [241; Z.land (offset + 1) 255]
  else [242; Z.land (u16 offset) 255; Z.shiftr (u16 offset) 8].

(** The two stores by which the [']'] case writes the exit offset into
    the operand of the [':'] of the loop level [ls]. *)
Definition patch_exit (ls : MML_LoopState) (c : MML_Compiler)
  : MML_Compiler :=
  let jump_pos := out_len c in
  let colon_pos := exit_mark ls - 3 in
  let ex16 := u16 (jump_pos - (colon_pos + 3)) in
  poke (colon_pos + 2) (u8 (Z.shiftr ex16 8))
    (poke (colon_pos + 1) (u8 (Z.land ex16 255)) c).

(** [loop_run c0 c2 c4 A B]: a loop with an exit, [[ A : B ]n], compiled
    without error.  [c0] is the state at the [[], [c2] the state at the
    [:] and [c4] the state at the []].  The statements of the two parts
    of the body have appended the bytes [A] and [B]; at the [:] and at
    the []] the nesting depth is the one the [[] set, and the level of
    this loop in [loops] is as the [[] and the [:] left it.  Loops
    nested in [A] or [B] are allowed: they use the levels above and have
    closed again. *)
Record loop_run (c0 c2 c4 : MML_Compiler) (A B : list Z) : Prop :=
  mkLoopRun {
  lr_nest : 0 <= nest_depth c0;
  lr_loops : length (loops c0) = Z.to_nat MML_MAX_NEST;
  lr_open : error (snd (command_open c0)) = MML_OK;
  lr_out_A : out c2 = out (snd (command_open c0)) ++ A;
  lr_nest_A : nest_depth c2 = nest_depth (snd (command_open c0));
  lr_level_A : loop_load (nest_depth c0) c2
               = loop_load (nest_depth c0) (snd (command_open c0));
  lr_colon : error (snd (command_colon c2)) = MML_OK;
  lr_out_B : out c4 = out (snd (command_colon c2)) ++ B;
  lr_nest_B : nest_depth c4 = nest_depth (snd (command_colon c2));
  lr_level_B : loop_load (nest_depth c0) c4
               = loop_load (nest_depth c0) (snd (command_colon c2));
  lr_close : error (snd (command_close c4)) = MML_OK
}.

(** [all_chars P s]: every character of [s] satisfies [P]. *)
Fixpoint all_chars (P : Z -> bool) (s : string) : bool :=
  match s with
  | EmptyString => true
  | String a s' => P (chr a) && all_chars P s'
  end.

(** The state of the channels that [main] keeps while it reads lines:
    three channels, each with the capacity it was created with and an
    output that fits. *)
Definition main_inv (st : main_state) : Prop :=
  length (psgch st) = PSG_NCH
  /\ Forall (fun ch => out_cap (mmlcp ch) = CH_BUF_SIZE
                       /\ out_len (mmlcp ch) <= CH_BUF_SIZE) (psgch st).

(** [consumed_newline c]: the character the cursor has just passed is a
    newline. *)
Definition consumed_newline (c : MML_Compiler) : Prop :=
  (0 < pos c)%nat /\ char_at (set_pos (pos c - 1) c) = chr "010".

(** [chars_between c i j]: the characters of the line at the positions
    [i], ..., [j - 1]. *)
Definition chars_between (c : MML_Compiler) (i j : nat) : list Z :=
  map (fun k => char_at (set_pos k c)) (seq i (j - i)).



(** * Properties *)

(** ** Reasoning about the state monad *)

Lemma bind_eq {A B} (m : M A) (k : A -> M B) (c : MML_Compiler) :
  bind m k c = k (fst (m c)) (snd (m c)).
Proof. unfold bind. destruct (m c); reflexivity. Qed.

Section Frame.
Context (R : relation MML_Compiler) `{!PreOrder R}.

Lemma frame_ret {A} (a : A) : frame R (ret a).
Proof. intros c; simpl; reflexivity. Qed.

Lemma frame_gets {A} (f : MML_Compiler -> A) : frame R (gets f).
Proof. intros c; simpl; reflexivity. Qed.

Lemma frame_modify (f : MML_Compiler -> MML_Compiler) :
  (forall c, R c (f c)) -> frame R (modify f).
Proof. intros H c; simpl; apply H. Qed.

Lemma frame_bind {A B} (m : M A) (k : A -> M B) :
  frame R m -> (forall a, frame R (k a)) -> frame R (bind m k).
Proof.
  intros Hm Hk c. rewrite bind_eq.
  transitivity (snd (m c)); [apply Hm | apply Hk].
Qed.
End Frame.

Ltac frame_step :=
  first
    [ apply frame_ret; typeclasses eauto
    | apply frame_gets; typeclasses eauto
    | apply frame_bind; [ typeclasses eauto | | intro ]
    | match goal with
      | |- frame _ (if ?b then _ else _) => destruct b
      | |- frame _ (match ?x with Some _ => _ | None => _ end) => destruct x
      | |- frame _ (match ?x with (_, _) => _ end) => destruct x
      end ].

(** ** What the scanner and the parsers leave alone *)

#[local] Instance scan_only_preorder : PreOrder scan_only.
Proof.
  split.
  - intros c. constructor; auto.
  - intros a b c [] []. constructor; try congruence; try lia; auto.
Qed.

Lemma scan_only_set_col v c : scan_only c (set_col v c).
Proof. constructor; simpl; auto. Qed.

Lemma scan_only_set_error_col v c : scan_only c (set_error_col v c).
Proof. constructor; simpl; auto. Qed.

Lemma is_ok_false e : e <> MML_OK -> is_ok e = false.
Proof. destruct e; simpl; congruence. Qed.

Lemma is_ok_true e : is_ok e = true <-> e = MML_OK.
Proof. destruct e; simpl; split; congruence. Qed.

Lemma scan_only_get : frame scan_only get.
Proof.
  intros c. unfold get.
  destruct (len c <=? pos c)%nat eqn:E; [reflexivity|].
  apply Nat.leb_gt in E.
  destruct (char_at c =? chr "010"); constructor; simpl; auto; lia.
Qed.

Lemma scan_only_skip_space_loop fuel : frame scan_only (skip_space_loop fuel).
Proof.
  induction fuel as [|fuel IH]; intros c; simpl; [reflexivity|].
  destruct (is_blank (peek c)); [|reflexivity].
  apply (frame_bind scan_only); [apply scan_only_get | intros _; apply IH].
Qed.

Lemma scan_only_skip_space : frame scan_only skip_space.
Proof. intros c. apply scan_only_skip_space_loop. Qed.

Lemma scan_only_set_error e : frame scan_only (set_error e).
Proof.
  intros c. unfold set_error.
  destruct (is_ok (error c)) eqn:E; [|reflexivity].
  apply is_ok_true in E.
  destruct (_ =? _); constructor; simpl; auto; congruence.
Qed.

Lemma scan_only_parse_unsigned_loop fuel v :
  frame scan_only (parse_unsigned_loop fuel v).
Proof.
  revert v. induction fuel as [|fuel IH]; intros v c; simpl; [reflexivity|].
  destruct (isdigit (peek c)); [|reflexivity].
  apply (frame_bind scan_only); [apply scan_only_get | intros _; apply IH].
Qed.

Create HintDb scan discriminated.
#[local] Hint Resolve scan_only_get scan_only_skip_space scan_only_set_error
  scan_only_parse_unsigned_loop scan_only_set_col scan_only_set_error_col
  : scan.

Ltac scan_tac :=
  repeat (first [ frame_step
                | apply frame_modify; intro; solve [auto with scan]
                | solve [auto with scan] ]).

Lemma scan_only_parse_unsigned : frame scan_only parse_unsigned.
Proof. unfold parse_unsigned. scan_tac. Qed.
#[local] Hint Resolve scan_only_parse_unsigned : scan.

Lemma scan_only_parse_signed : frame scan_only parse_signed.
Proof. unfold parse_signed. scan_tac. Qed.

Lemma scan_only_parse_para_loop fuel v :
  frame scan_only (parse_para_loop fuel v).
Proof.
  revert v. induction fuel as [|fuel IH]; intros v c; simpl; [reflexivity|].
  destruct (isdigit (peek c)); simpl; [|reflexivity].
  apply (frame_bind scan_only); [apply scan_only_get | intros _; apply IH].
Qed.
#[local] Hint Resolve scan_only_parse_signed scan_only_parse_para_loop : scan.

Lemma scan_only_parse_para : frame scan_only parse_para.
Proof. unfold parse_para. scan_tac. Qed.

Lemma scan_only_apply_dots_loop n a h :
  frame scan_only (apply_dots_loop n a h).
Proof.
  revert a h. induction n as [|n IH]; intros a h; simpl; scan_tac.
Qed.
#[local] Hint Resolve scan_only_parse_para scan_only_apply_dots_loop : scan.

Lemma scan_only_apply_dots b d : frame scan_only (apply_dots b d).
Proof. unfold apply_dots. scan_tac. Qed.

Lemma scan_only_count_dots fuel d : frame scan_only (count_dots fuel d).
Proof.
  revert d. induction fuel as [|fuel IH]; intros d; simpl; scan_tac.
Qed.
#[local] Hint Resolve scan_only_apply_dots scan_only_count_dots : scan.

Lemma scan_only_length_base f v : frame scan_only (length_base f v).
Proof. unfold length_base. scan_tac. Qed.

Lemma scan_only_length_dots b : frame scan_only (length_dots b).
Proof. unfold length_dots. scan_tac. Qed.
#[local] Hint Resolve scan_only_length_base scan_only_length_dots : scan.

Lemma scan_only_parse_length_96_rec fuel :
  frame scan_only (parse_length_96_rec fuel)
  /\ forall b, frame scan_only (length_carets fuel b).
Proof.
  induction fuel as [|fuel [IH1 IH2]]; split; intros; simpl; scan_tac.
Qed.

Lemma scan_only_parse_length_96 : frame scan_only parse_length_96.
Proof. intros c. apply scan_only_parse_length_96_rec. Qed.
#[local] Hint Resolve scan_only_parse_length_96 : scan.

Lemma scan_only_note_pitch ch : frame scan_only (note_pitch ch).
Proof. unfold note_pitch. scan_tac. Qed.
#[local] Hint Resolve scan_only_note_pitch : scan.

(** ** A parser that gives up has recorded an error *)

Lemma set_error_sets e c :
  e <> MML_OK -> error (snd (set_error e c)) <> MML_OK.
Proof.
  intros He. unfold set_error.
  destruct (is_ok (error c)) eqn:E.
  - destruct (_ =? _); simpl; exact He.
  - simpl. intros H. rewrite H in E. discriminate.
Qed.

Lemma remaining_scan_only c c' :
  scan_only c c' -> (remaining c' <= remaining c)%nat.
Proof. intros []. unfold remaining. lia. Qed.

Lemma chr_nonneg a : 0 <= chr a.
Proof. unfold chr. apply N2Z.is_nonneg. Qed.

Lemma peek_nonneg_inside c : 0 <= peek c -> (pos c < len c)%nat.
Proof.
  unfold peek. destruct (len c <=? pos c)%nat eqn:E; [lia|].
  intros _. apply Nat.leb_gt in E. exact E.
Qed.

Lemma remaining_get c :
  (pos c < len c)%nat -> remaining (snd (get c)) = pred (remaining c).
Proof.
  intros H. unfold get.
  destruct (len c <=? pos c)%nat eqn:E; [apply Nat.leb_le in E; lia|].
  destruct (_ =? _); unfold remaining; simpl; lia.
Qed.

Lemma length_base_None f v c :
  fst (length_base f v c) = None ->
  error (snd (length_base f v c)) <> MML_OK.
Proof.
  unfold length_base.
  repeat match goal with
         | |- context [if ?b then _ else _] => destruct b
         end;
    rewrite ?bind_eq; simpl; try discriminate;
    intros _; apply set_error_sets; discriminate.
Qed.

Lemma length_dots_None b c :
  fst (length_dots b c) = None ->
  error (snd (length_dots b c)) <> MML_OK.
Proof.
  unfold length_dots. rewrite !bind_eq. simpl.
  destruct (_ >? 0); [|simpl; discriminate].
  rewrite !bind_eq. simpl.
  destruct (fst (apply_dots _ _ _)); simpl; [discriminate|].
  rewrite bind_eq. simpl. intros _. apply set_error_sets; discriminate.
Qed.

Lemma note_pitch_None ch c :
  fst (note_pitch ch c) = None ->
  error (snd (note_pitch ch c)) <> MML_OK.
Proof.
  unfold note_pitch. rewrite !bind_eq. simpl.
  destruct (ch =? chr "R"); [simpl; discriminate|].
  destruct (_ <? 0).
  - rewrite bind_eq. simpl. intros _. apply set_error_sets; discriminate.
  - rewrite !bind_eq. simpl.
    destruct (negb _); [|simpl; discriminate].
    destruct (_ || _); [|simpl; discriminate].
    rewrite bind_eq. simpl. intros _. apply set_error_sets; discriminate.
Qed.

(** With the fuel [parse_length_96] passes, the recursion never runs dry:
    a [None] result always comes with an error. *)
Lemma parse_length_96_rec_None fuel :
  (forall c, (2 * remaining c + 1 <= fuel)%nat ->
     fst (parse_length_96_rec fuel c) = None ->
     error (snd (parse_length_96_rec fuel c)) <> MML_OK)
  /\ (forall b c, (2 * remaining c <= fuel)%nat ->
     fst (length_carets fuel b c) = None ->
     error (snd (length_carets fuel b c)) <> MML_OK).
Proof.
  induction fuel as [|fuel [IH1 IH2]].
  - split; [intros c H; lia|].
    intros b c Hf. simpl. rewrite !bind_eq. simpl.
    destruct (negb _) eqn:E; [simpl; discriminate|].
    exfalso.
    pose proof (remaining_scan_only _ _ (scan_only_skip_space c)) as Hr.
    assert (0 <= peek (snd (skip_space c))) as Hp.
    { apply negb_false_iff in E; apply Z.eqb_eq in E. rewrite E. apply chr_nonneg. }
    apply peek_nonneg_inside in Hp. unfold remaining in *. lia.
  - split.
    + intros c Hf. simpl. rewrite !bind_eq. simpl.
      set (c1 := snd (parse_para c)).
      set (pv := fst (parse_para c)).
      set (c2 := set_error_col (col c1) c1).
      assert (scan_only c c2) as H02.
      { transitivity c1; [apply scan_only_parse_para|].
        apply scan_only_set_error_col. }
      destruct (fst (length_base (fst pv) (snd pv) c2)) eqn:Eb.
      2:{ simpl. intros _. apply length_base_None; exact Eb. }
      rewrite !bind_eq.
      set (c3 := snd (length_base (fst pv) (snd pv) c2)).
      assert (scan_only c2 c3) as H23 by apply scan_only_length_base.
      destruct (fst (length_dots z c3)) eqn:Ed.
      2:{ simpl. intros _. apply length_dots_None; exact Ed. }
      rewrite !bind_eq. simpl.
      set (c4 := snd (length_dots z c3)).
      assert (scan_only c3 c4) as H34 by apply scan_only_length_dots.
      set (c5 := set_error_col NOERROR c4).
      assert (scan_only c c5) as H05.
      { transitivity c2; [exact H02|]. transitivity c3; [exact H23|].
        transitivity c4; [exact H34|]. apply scan_only_set_error_col. }
      apply remaining_scan_only in H05.
      destruct (fst (length_carets fuel z0 c5)) eqn:Ec; [simpl; discriminate|].
      simpl. intros _. apply IH2; [lia | exact Ec].
    + intros b c Hf. simpl. rewrite !bind_eq. simpl.
      set (c1 := snd (skip_space c)).
      pose proof (remaining_scan_only _ _ (scan_only_skip_space c)) as Hr.
      fold c1 in Hr.
      destruct (negb _) eqn:E; [simpl; discriminate|].
      assert (pos c1 < len c1)%nat as Hin.
      { apply peek_nonneg_inside.
        apply negb_false_iff in E; apply Z.eqb_eq in E. rewrite E. apply chr_nonneg. }
      rewrite !bind_eq.
      set (c2 := snd (get c1)).
      assert (remaining c2 = pred (remaining c1)) as Hg
        by (apply remaining_get; exact Hin).
      assert (1 <= remaining c1)%nat by (unfold remaining; lia).
      destruct (fst (parse_length_96_rec fuel c2)) as [[add fl]|] eqn:Ep.
      * pose proof (remaining_scan_only _ _
                      (proj1 (scan_only_parse_length_96_rec fuel) c2)) as Hr3.
        apply IH2. lia.
      * simpl. intros _. apply IH1; [lia | exact Ep].
Qed.

Lemma parse_length_96_None c :
  fst (parse_length_96 c) = None ->
  error (snd (parse_length_96 c)) <> MML_OK.
Proof.
  unfold parse_length_96.
  apply (proj1 (parse_length_96_rec_None _)). lia.
Qed.

(** ** Bytes and bit fields *)

Lemma u8_range x : 0 <= u8 x < 256.
Proof. unfold u8. apply Z.mod_pos_bound. lia. Qed.

Lemma u16_range x : 0 <= u16 x < 65536.
Proof. unfold u16. apply Z.mod_pos_bound. lia. Qed.

Lemma u8_small x : 0 <= x < 256 -> u8 x = x.
Proof. intros H. unfold u8. apply Z.mod_small. exact H. Qed.

Lemma u16_small x : 0 <= x < 65536 -> u16 x = x.
Proof. intros H. unfold u16. apply Z.mod_small. exact H. Qed.

Lemma land_255 x : Z.land x 255 = x mod 256.
Proof. change 255 with (Z.ones 8). rewrite Z.land_ones by lia. reflexivity. Qed.

Lemma land_15 x : Z.land x 15 = x mod 16.
Proof. change 15 with (Z.ones 4). rewrite Z.land_ones by lia. reflexivity. Qed.

Lemma shiftr_8 x : Z.shiftr x 8 = x / 256.
Proof. rewrite Z.shiftr_div_pow2 by lia. reflexivity. Qed.

Lemma u8_low_byte x : u8 (Z.land (u16 x) 255) = Z.land (u16 x) 255.
Proof.
  apply u8_small. rewrite land_255. apply Z.mod_pos_bound. lia.
Qed.

Lemma u8_high_byte x : u8 (Z.shiftr (u16 x) 8) = Z.shiftr (u16 x) 8.
Proof.
  apply u8_small. rewrite shiftr_8. pose proof (u16_range x) as H.
  split; [apply Z.div_pos; lia | apply Z.div_lt_upper_bound; lia].
Qed.

Lemma nibble_cases t :
  0 <= t < 16 ->
  t = 0 \/ t = 1 \/ t = 2 \/ t = 3 \/ t = 4 \/ t = 5 \/ t = 6 \/ t = 7 \/
  t = 8 \/ t = 9 \/ t = 10 \/ t = 11 \/ t = 12 \/ t = 13 \/ t = 14 \/ t = 15.
Proof. lia. Qed.

Lemma header_fields (tiebit form t : Z) :
  (tiebit = 0 \/ tiebit = 1) ->
  (form = 0 \/ form = 1 \/ form = 2 \/ form = 3) ->
  0 <= t < 16 ->
  let h := Z.lor (Z.lor (Z.shiftl tiebit 6) (Z.shiftl form 4)) t in
  0 <= h < 128 /\
  Z.land h 15 = t /\
  Z.land (Z.shiftr h 4) 3 = form /\
  Z.land (Z.shiftr h 6) 1 = tiebit.
Proof.
  intros Ht Hf Hn. apply nibble_cases in Hn.
  destruct Ht as [-> | ->];
    destruct Hf as [-> | [-> | [-> | ->]]];
    repeat (destruct Hn as [-> | Hn]); try subst t;
    vm_compute; intuition congruence.
Qed.

Lemma make_note_header_fields c tone L tie :
  let h := make_note_header c tone L tie in
  0 <= h < 128 /\
  Z.land h 15 = Z.land (u8 tone) 15 /\
  Z.land (Z.shiftr h 4) 3 = length_form c L /\
  Z.land (Z.shiftr h 6) 1 = (if tie then 1 else 0).
Proof.
  unfold make_note_header, length_form.
  assert (0 <= Z.land (u8 tone) 15 < 16) as Hn.
  { rewrite land_15. apply Z.mod_pos_bound. lia. }
  destruct (L =? l_len96 c); [|destruct (L =? lp_len96 c);
                               [|destruct (L <=? 255)]];
    destruct tie; apply header_fields; auto; tauto.
Qed.

Lemma tone_nibble tone : 0 <= tone <= 12 -> Z.land (u8 tone) 15 = tone.
Proof.
  intros H. rewrite u8_small by lia. rewrite land_15.
  apply Z.mod_small. lia.
Qed.

(** ** What the emitter appends *)

Lemma emitted_nil c : emitted [] c c.
Proof. unfold emitted. rewrite app_nil_r. auto. Qed.

Lemma emitted_app bs1 bs2 c c1 c2 :
  emitted bs1 c c1 -> emitted bs2 c1 c2 -> emitted (bs1 ++ bs2) c c2.
Proof.
  intros (Hl1 & Hp1 & He1 & Ho1) (Hl2 & Hp2 & He2 & Ho2).
  repeat split; try congruence; auto.
  intros H. rewrite Ho2 by exact H. rewrite Ho1; [symmetry; apply app_assoc|].
  destruct (error c1) eqn:E; try reflexivity;
    exfalso; (apply He2; [discriminate | exact H]).
Qed.

Lemma emitted_scan_only c c' : scan_only c c' -> emitted [] c c'.
Proof.
  intros []. unfold emitted. rewrite app_nil_r. auto.
Qed.

Lemma ensure_space_false need c :
  fst (ensure_space need c) = false ->
  scan_only c (snd (ensure_space need c))
  /\ error (snd (ensure_space need c)) <> MML_OK.
Proof.
  unfold ensure_space. destruct (_ >? _); [|simpl; discriminate].
  intros _. rewrite !bind_eq. simpl. split.
  - transitivity (set_error_col (col c) c); [apply scan_only_set_error_col|].
    apply scan_only_set_error.
  - apply set_error_sets. discriminate.
Qed.

Lemma ensure_space_true need c :
  fst (ensure_space need c) = true -> snd (ensure_space need c) = c.
Proof.
  unfold ensure_space. destruct (_ >? _); [|reflexivity].
  rewrite !bind_eq. simpl. discriminate.
Qed.

Lemma emit_byte_emitted v c : emitted [u8 v] c (snd (emit_byte v c)).
Proof.
  unfold emit_byte. rewrite bind_eq.
  destruct (fst (ensure_space 1 c)) eqn:E.
  - rewrite (ensure_space_true _ _ E). unfold emitted. simpl. auto.
  - destruct (ensure_space_false _ _ E) as [Hs He]. simpl.
    destruct Hs. unfold emitted. repeat split; auto. intros H. contradiction.
Qed.

Lemma emit_word_le_emitted v c :
  emitted [u8 (Z.land (u16 v) 255); u8 (Z.shiftr (u16 v) 8)] c
    (snd (emit_word_le v c)).
Proof.
  unfold emit_word_le. rewrite bind_eq.
  destruct (fst (ensure_space 2 c)) eqn:E.
  - rewrite (ensure_space_true _ _ E). unfold emitted. simpl. auto.
  - destruct (ensure_space_false _ _ E) as [Hs He]. simpl.
    destruct Hs. unfold emitted. repeat split; auto. intros H. contradiction.
Qed.

Lemma emit_octave_emitted n c : emitted [128 + n] c (snd (emit_octave n c)).
Proof.
  unfold emit_octave.
  destruct (n <? 1) eqn:E1; simpl.
  - pose proof (scan_only_set_error MML_ERR_OCTAVE c) as [].
    unfold emitted. repeat split; auto.
    intros H. exfalso. revert H. apply set_error_sets. discriminate.
  - destruct (n >? 8) eqn:E2; simpl.
    + pose proof (scan_only_set_error MML_ERR_OCTAVE c) as [].
      unfold emitted. repeat split; auto.
      intros H. exfalso. revert H. apply set_error_sets. discriminate.
    + rewrite bind_eq. simpl.
      pose proof (emit_byte_emitted (128 + u8 n) c) as (Hl & Hp & He & Ho).
      unfold emitted. simpl. repeat split; auto.
      intros H. rewrite Ho by exact H.
      rewrite (u8_small n) by lia. rewrite u8_small by lia. reflexivity.
Qed.

Lemma note_emit_emitted tone octave0 L tie c :
  emitted
    ((if octave_last c =? octave0 then [] else [128 + octave0])
       ++ [make_note_header c tone L tie] ++ length_bytes c L)
    c (snd (note_emit tone octave0 L tie c)).
Proof.
  unfold note_emit. rewrite !bind_eq. simpl.
  set (c1 := snd ((if negb (octave_last c =? octave0)
                   then emit_octave octave0 else ret tt) c)).
  assert (emitted (if octave_last c =? octave0 then [] else [128 + octave0])
            c c1) as H1.
  { subst c1. destruct (octave_last c =? octave0); simpl.
    - apply emitted_nil.
    - apply emit_octave_emitted. }
  assert (make_note_header c1 tone L tie = make_note_header c tone L tie) as Hh.
  { destruct H1 as (Hl1 & Hp1 & _).
    unfold make_note_header. rewrite Hl1, Hp1. reflexivity. }
  rewrite Hh.
  set (c2 := snd (emit_byte (make_note_header c tone L tie) c1)).
  assert (emitted [make_note_header c tone L tie] c1 c2) as H2.
  { pose proof (emit_byte_emitted (make_note_header c tone L tie) c1) as H.
    rewrite u8_small in H; [exact H|].
    pose proof (make_note_header_fields c tone L tie) as [Hr _]. lia. }
  set (m3 := if negb (L =? l_len96 c2) && negb (L =? lp_len96 c2)
             then if L <=? 255 then emit_byte (u8 L) else emit_word_le (u16 L)
             else ret tt).
  assert (emitted (length_bytes c L) c2 (snd (m3 c2))) as H3.
  { subst m3. unfold length_bytes, length_form.
    destruct H1 as (Hl1 & Hp1 & _), H2 as (Hl2 & Hp2 & _).
    rewrite Hl2, Hp2, Hl1, Hp1.
    destruct (L =? l_len96 c); simpl; [apply emitted_nil|].
    destruct (L =? lp_len96 c); simpl; [apply emitted_nil|].
    destruct (L <=? 255); simpl.
    - pose proof (emit_byte_emitted (u8 L) c2) as H.
      rewrite (u8_small (u8 L)) in H by apply u8_range. exact H.
    - pose proof (emit_word_le_emitted (u16 L) c2) as H.
      rewrite (u16_small (u16 L)) in H by apply u16_range.
      rewrite u8_low_byte, u8_high_byte in H. exact H. }
  exact (emitted_app _ _ _ _ _ H1 (emitted_app _ _ _ _ _ H2 H3)).
Qed.

(** ** Resolved lengths are positive *)

Lemma apply_dots_Some b d c l :
  fst (apply_dots b d c) = Some l -> 1 <= l <= 32767.
Proof.
  unfold apply_dots. rewrite bind_eq.
  destruct (fst (apply_dots_loop _ _ _ c)) as [x|]; simpl; [|discriminate].
  destruct (x <=? 0) eqn:E1; simpl; [discriminate|].
  destruct (x >? 32767) eqn:E2; simpl; [discriminate|].
  intros [= <-]. lia.
Qed.

Lemma is_len_denominator_cases v :
  is_len_denominator v = true ->
  v = 1 \/ v = 2 \/ v = 3 \/ v = 4 \/ v = 6 \/ v = 8 \/ v = 12 \/ v = 16 \/
  v = 24 \/ v = 32 \/ v = 48 \/ v = 96.
Proof. unfold is_len_denominator. lia. Qed.

Lemma length_base_pos f v c b :
  1 <= l_len96 c ->
  fst (length_base f v c) = Some b -> 1 <= b.
Proof.
  intros Hl. unfold length_base.
  destruct (has_flag f PARA_F_PERCENT).
  - destruct (has_flag f PARA_F_NOVALUE);
      [rewrite bind_eq; simpl; discriminate|].
    destruct (v <? 1) eqn:E1; simpl; [rewrite bind_eq; simpl; discriminate|].
    destruct (v >? 255); simpl; [rewrite bind_eq; simpl; discriminate|].
    intros [= <-]. lia.
  - destruct (has_flag f PARA_F_NOVALUE).
    + rewrite bind_eq. simpl. intros [= <-]. exact Hl.
    + destruct (is_len_denominator v) eqn:E;
        [|rewrite bind_eq; simpl; discriminate].
      simpl. intros [= <-].
      apply is_len_denominator_cases in E.
      repeat (destruct E as [-> | E]); try subst v; vm_compute; discriminate.
Qed.

Lemma length_dots_pos b c l :
  1 <= b -> fst (length_dots b c) = Some l -> 1 <= l.
Proof.
  intros Hb. unfold length_dots. rewrite !bind_eq. simpl.
  destruct (_ >? 0); [|simpl; intros [= <-]; exact Hb].
  rewrite !bind_eq. simpl.
  destruct (fst (apply_dots _ _ _)) as [x|] eqn:E; simpl.
  - intros [= <-]. apply apply_dots_Some in E. lia.
  - rewrite bind_eq. simpl. discriminate.
Qed.

Lemma parse_length_96_rec_pos fuel :
  (forall c L f, 1 <= l_len96 c ->
     fst (parse_length_96_rec fuel c) = Some (L, f) -> 1 <= L)
  /\ (forall b c L, 1 <= l_len96 c -> 1 <= b ->
     fst (length_carets fuel b c) = Some L -> 1 <= L).
Proof.
  induction fuel as [|fuel [IH1 IH2]].
  - split; [intros c L f _; simpl; discriminate|].
    intros b c L _ Hb. simpl. rewrite !bind_eq. simpl.
    destruct (negb _); simpl; [intros [= <-]; exact Hb | discriminate].
  - split.
    + intros c L f Hl. simpl. rewrite !bind_eq. simpl.
      set (pv := fst (parse_para c)).
      set (c2 := set_error_col _ (snd (parse_para c))).
      assert (scan_only c c2) as H02.
      { transitivity (snd (parse_para c)); [apply scan_only_parse_para|].
        apply scan_only_set_error_col. }
      destruct (fst (length_base (fst pv) (snd pv) c2)) as [b|] eqn:Eb;
        [|simpl; discriminate].
      apply length_base_pos in Eb; [|rewrite (so_l _ _ H02); exact Hl].
      rewrite !bind_eq.
      set (c3 := snd (length_base (fst pv) (snd pv) c2)).
      assert (scan_only c2 c3) as H23 by apply scan_only_length_base.
      destruct (fst (length_dots b c3)) as [d|] eqn:Ed; [|simpl; discriminate].
      apply length_dots_pos in Ed; [|exact Eb].
      rewrite !bind_eq. simpl.
      set (c5 := set_error_col NOERROR (snd (length_dots b c3))).
      assert (scan_only c3 c5) as H35.
      { transitivity (snd (length_dots b c3)); [apply scan_only_length_dots|].
        apply scan_only_set_error_col. }
      destruct (fst (length_carets fuel d c5)) as [t|] eqn:Ec;
        [|simpl; discriminate].
      simpl. intros [= <- _].
      apply (IH2 d c5); [|exact Ed|exact Ec].
      rewrite (so_l _ _ H35), (so_l _ _ H23), (so_l _ _ H02). exact Hl.
    + intros b c L Hl Hb. simpl. rewrite !bind_eq. simpl.
      set (c1 := snd (skip_space c)).
      assert (scan_only c c1) as H01 by apply scan_only_skip_space.
      destruct (negb _); [simpl; intros [= <-]; exact Hb|].
      rewrite !bind_eq.
      set (c2 := snd (get c1)).
      assert (scan_only c1 c2) as H12 by apply scan_only_get.
      assert (1 <= l_len96 c2) as Hl2
        by (rewrite (so_l _ _ H12), (so_l _ _ H01); exact Hl).
      destruct (fst (parse_length_96_rec fuel c2)) as [[add fl]|] eqn:Ep;
        [|simpl; discriminate].
      apply IH1 in Ep; [|exact Hl2].
      apply IH2; [|lia].
      rewrite (so_l _ _ (proj1 (scan_only_parse_length_96_rec fuel) c2)).
      exact Hl2.
Qed.

Lemma parse_length_96_pos c L f :
  1 <= l_len96 c -> fst (parse_length_96 c) = Some (L, f) -> 1 <= L.
Proof.
  unfold parse_length_96. apply (proj1 (parse_length_96_rec_pos _)).
Qed.

(** ** The pitch of a note *)

Lemma note_pitch_Some ch c tone octave0 :
  -12 <= key_shift c <= 12 ->
  fst (note_pitch ch c) = Some (tone, octave0) ->
  (ch = chr "R" /\ tone = 0 /\ octave0 = octave c)
  \/ (ch <> chr "R" /\ 1 <= tone <= 12).
Proof.
  intros Hk. unfold note_pitch. rewrite !bind_eq. simpl.
  destruct (ch =? chr "R") eqn:ER.
  - simpl. intros [= <- <-]. left. apply Z.eqb_eq in ER. auto.
  - right. split; [apply Z.eqb_neq; exact ER|].
    revert H. destruct (_ <? 0); [rewrite bind_eq; simpl; discriminate|].
    rewrite !bind_eq. simpl.
    set (c1 := set_error_col (col c) c).
    set (c2 := snd (skip_space c1)).
    set (acc := if (peek c2 =? chr "#") || (peek c2 =? chr "+")
                then get;; ret (notename_to_tonenum ch + 1)
                else if peek c2 =? chr "-"
                     then get;; ret (notename_to_tonenum ch - 1)
                     else ret (notename_to_tonenum ch)).
    assert (scan_only c (snd (acc c2))) as Hs.
    { transitivity c1; [apply scan_only_set_error_col|].
      transitivity c2; [apply scan_only_skip_space|].
      subst acc. destruct ((peek c2 =? chr "#") || (peek c2 =? chr "+")).
      - rewrite bind_eq. simpl. apply scan_only_get.
      - destruct (peek c2 =? chr "-"); [|reflexivity].
        rewrite bind_eq. simpl. apply scan_only_get. }
    rewrite (so_key_shift _ _ Hs).
    set (t0 := fst (acc c2)).
    set (t1 := if t0 >? 12 then 12 else t0).
    set (t2 := if t1 <? 1 then 1 else t1).
    assert (1 <= t2 <= 12) as Ht2.
    { subst t2 t1. destruct (t0 >? 12) eqn:E1.
      - simpl. lia.
      - destruct (t0 <? 1) eqn:E2; lia. }
    destruct (negb (key_shift c =? 0)); [|simpl; intros [= <- _]; exact Ht2].
    clearbody t2. clear t1. clearbody t0. clearbody acc.
    destruct (t2 + key_shift c >? 12) eqn:E3; cbn [fst snd].
    + destruct (_ || _); [rewrite bind_eq; simpl; discriminate|].
      simpl. intros [= <- _]. lia.
    + destruct (t2 + key_shift c <? 1) eqn:E4; cbn [fst snd].
      * destruct (_ || _); [rewrite bind_eq; simpl; discriminate|].
        simpl. intros [= <- _]. lia.
      * destruct (_ || _); [rewrite bind_eq; simpl; discriminate|].
        simpl. intros [= <- _]. lia.
Qed.

Lemma make_note_header_ext c c' tone L tie :
  l_len96 c' = l_len96 c -> lp_len96 c' = lp_len96 c ->
  make_note_header c' tone L tie = make_note_header c tone L tie.
Proof. intros Hl Hp. unfold make_note_header. rewrite Hl, Hp. reflexivity. Qed.

Lemma length_bytes_ext c c' L :
  l_len96 c' = l_len96 c -> lp_len96 c' = lp_len96 c ->
  length_bytes c' L = length_bytes c L.
Proof.
  intros Hl Hp. unfold length_bytes, length_form. rewrite Hl, Hp. reflexivity.
Qed.

(** What a note statement that compiles without error has appended. *)
Lemma compile_note_emitted note c :
  error (snd (compile_note note c)) = MML_OK ->
  exists tone octave0 L flag tie c1 c2,
    note_pitch (toupper note) c = (Some (tone, octave0), c1) /\
    parse_length_96 (set_error_col NOERROR c1) = (Some (L, flag), c2) /\
    out (snd (compile_note note c)) =
      out c ++ (if octave_last c =? octave0 then [] else [128 + octave0])
            ++ [make_note_header c tone L tie] ++ length_bytes c L.
Proof.
  unfold compile_note. rewrite bind_eq.
  destruct (note_pitch (toupper note) c) as [p c1] eqn:Ep.
  assert (scan_only c c1) as H01.
  { change c1 with (snd (Some 0, c1)) at 1. change c1 with (snd (p, c1)).
    rewrite <- Ep. apply scan_only_note_pitch. }
  cbn [fst snd]. destruct p as [[tone octave0]|].
  2:{ simpl. intros H. exfalso. revert H.
      change c1 with (snd (@None (Z * Z), c1)). rewrite <- Ep.
      apply note_pitch_None. rewrite Ep. reflexivity. }
  rewrite !bind_eq. cbn [modify fst snd].
  destruct (parse_length_96 (set_error_col NOERROR c1)) as [r c2] eqn:Er.
  assert (scan_only c1 c2) as H12.
  { transitivity (set_error_col NOERROR c1); [apply scan_only_set_error_col|].
    change c2 with (snd (r, c2)). rewrite <- Er.
    apply scan_only_parse_length_96. }
  cbn [fst snd]. destruct r as [[L flag]|].
  2:{ simpl. intros H. exfalso. revert H.
      change c2 with (snd (@None (Z * Z), c2)). rewrite <- Er.
      apply parse_length_96_None. rewrite Er. reflexivity. }
  destruct (has_flag flag PARA_F_PLUS).
  { intros H. exfalso. revert H. apply set_error_sets. discriminate. }
  destruct (has_flag flag PARA_F_MINUS).
  { intros H. exfalso. revert H. apply set_error_sets. discriminate. }
  rewrite !bind_eq. cbn [gets fst snd].
  set (c3 := snd (skip_space c2)).
  set (mt := if peek c3 =? chr "&" then get ;; ret true else ret false).
  set (c4 := snd (mt c3)). set (tie := fst (mt c3)).
  assert (scan_only c c4) as H04.
  { transitivity c1; [exact H01|]. transitivity c2; [exact H12|].
    transitivity c3; [apply scan_only_skip_space|].
    subst c4 mt. destruct (peek c3 =? chr "&"); [|reflexivity].
    rewrite bind_eq. simpl. apply scan_only_get. }
  intros Hok.
  exists tone, octave0, L, flag, tie, c1, c2.
  split; [reflexivity|]. split; [exact Er|].
  destruct (note_emit_emitted tone octave0 L tie c4) as (_ & _ & _ & Ho).
  rewrite Ho by exact Hok.
  rewrite (so_out _ _ H04), (so_octave_last _ _ H04).
  rewrite (make_note_header_ext c c4), (length_bytes_ext c c4);
    try apply (so_l _ _ H04); try apply (so_lp _ _ H04).
  reflexivity.
Qed.

(** ** Code that never looks at [key_shift] *)

Lemma ks_ret {A} (a : A) : ks_indep (ret a).
Proof. intros k c. reflexivity. Qed.

Lemma ks_gets {A} (f : MML_Compiler -> A) :
  (forall k c, f (set_key_shift k c) = f c) -> ks_indep (gets f).
Proof. intros H k c. unfold gets. rewrite H. reflexivity. Qed.

Lemma ks_modify (f : MML_Compiler -> MML_Compiler) :
  (forall k c, f (set_key_shift k c) = set_key_shift k (f c)) ->
  ks_indep (modify f).
Proof. intros H k c. unfold modify. rewrite H. reflexivity. Qed.

Lemma ks_bind {A B} (m : M A) (f : A -> M B) :
  ks_indep m -> (forall a, ks_indep (f a)) -> ks_indep (bind m f).
Proof.
  intros Hm Hf k c. rewrite !bind_eq. rewrite Hm. cbn [fst snd].
  apply Hf.
Qed.

Ltac ks_step :=
  first
    [ apply ks_ret
    | apply ks_gets; intros; reflexivity
    | apply ks_modify; intros; reflexivity
    | apply ks_bind; [ | intro ]
    | match goal with
      | |- ks_indep (if ?b then _ else _) => destruct b
      | |- ks_indep (match ?x with Some _ => _ | None => _ end) => destruct x
      | |- ks_indep (match ?x with (_, _) => _ end) => destruct x
      end ].

Create HintDb ks discriminated.
Ltac ks_tac := repeat (first [ ks_step | solve [auto with ks] ]).

Lemma ks_get : ks_indep get.
Proof.
  intros k c. unfold get, char_at. cbn.
  destruct (len c <=? pos c)%nat; [reflexivity|].
  destruct (_ =? _); reflexivity.
Qed.
#[local] Hint Resolve ks_get : ks.

Lemma ks_skip_space_loop fuel : ks_indep (skip_space_loop fuel).
Proof.
  induction fuel as [|fuel IH]; intros k c; [reflexivity|].
  cbn [skip_space_loop].
  change (peek (set_key_shift k c)) with (peek c).
  destruct (is_blank (peek c)); [|reflexivity].
  apply (ks_bind get (fun _ => skip_space_loop fuel)); [apply ks_get|].
  intros _. exact IH.
Qed.

Lemma ks_skip_space : ks_indep skip_space.
Proof. intros k c. apply ks_skip_space_loop. Qed.

Lemma ks_set_error e : ks_indep (set_error e).
Proof.
  intros k c. unfold set_error. cbn.
  destruct (is_ok (error c)); [|reflexivity].
  destruct (_ =? _); reflexivity.
Qed.
#[local] Hint Resolve ks_skip_space ks_set_error : ks.

Lemma ks_ensure_space need : ks_indep (ensure_space need).
Proof.
  intros k c. unfold ensure_space.
  change (out_len (set_key_shift k c)) with (out_len c).
  change (out_cap (set_key_shift k c)) with (out_cap c).
  destruct (_ >? _); [|reflexivity].
  revert k c. ks_tac.
Qed.
#[local] Hint Resolve ks_ensure_space : ks.

Lemma ks_emit_byte v : ks_indep (emit_byte v).
Proof. unfold emit_byte. ks_tac. Qed.

Lemma ks_emit_word_le v : ks_indep (emit_word_le v).
Proof. unfold emit_word_le. ks_tac. Qed.
#[local] Hint Resolve ks_emit_byte ks_emit_word_le : ks.

Lemma ks_emit_octave n : ks_indep (emit_octave n).
Proof. unfold emit_octave. ks_tac. Qed.
#[local] Hint Resolve ks_emit_octave : ks.

Lemma ks_parse_para_loop fuel v : ks_indep (parse_para_loop fuel v).
Proof.
  revert v. induction fuel as [|fuel IH]; intros v k c; [reflexivity|].
  cbn [parse_para_loop].
  change (peek (set_key_shift k c)) with (peek c).
  destruct (negb (isdigit (peek c))); [reflexivity|].
  apply (ks_bind get (fun _ => parse_para_loop fuel _)); [apply ks_get|].
  intros _. apply IH.
Qed.
#[local] Hint Resolve ks_parse_para_loop : ks.

Lemma ks_parse_para : ks_indep parse_para.
Proof. unfold parse_para. ks_tac. Qed.

Lemma ks_apply_dots_loop n a h : ks_indep (apply_dots_loop n a h).
Proof.
  revert a h. induction n as [|n IH]; intros a h; cbn [apply_dots_loop]; ks_tac.
Qed.
#[local] Hint Resolve ks_parse_para ks_apply_dots_loop : ks.

Lemma ks_apply_dots b d : ks_indep (apply_dots b d).
Proof. unfold apply_dots. ks_tac. Qed.

Lemma ks_count_dots fuel d : ks_indep (count_dots fuel d).
Proof.
  revert d. induction fuel as [|fuel IH]; intros d; cbn [count_dots]; ks_tac.
Qed.
#[local] Hint Resolve ks_apply_dots ks_count_dots : ks.

Lemma ks_length_base f v : ks_indep (length_base f v).
Proof. unfold length_base. ks_tac. Qed.

Lemma ks_length_dots b : ks_indep (length_dots b).
Proof. unfold length_dots. ks_tac. Qed.
#[local] Hint Resolve ks_length_base ks_length_dots : ks.

Lemma ks_parse_length_96_rec fuel :
  ks_indep (parse_length_96_rec fuel)
  /\ forall b, ks_indep (length_carets fuel b).
Proof.
  induction fuel as [|fuel [IH1 IH2]]; split; intros;
    cbn [parse_length_96_rec length_carets]; ks_tac.
Qed.

Lemma ks_parse_length_96 : ks_indep parse_length_96.
Proof.
  intros k c. unfold parse_length_96.
  change (remaining (set_key_shift k c)) with (remaining c).
  apply ks_parse_length_96_rec.
Qed.
#[local] Hint Resolve ks_parse_length_96 : ks.

Lemma ks_note_emit tone octave0 L tie :
  ks_indep (note_emit tone octave0 L tie).
Proof. unfold note_emit. ks_tac. Qed.
#[local] Hint Resolve ks_note_emit : ks.

(** The pitch of a rest: tone 0 in the logical octave, whatever the key
    shift. *)
Lemma note_pitch_rest c :
  note_pitch (chr "R") c = (Some (0, octave c), set_error_col (col c) c).
Proof. reflexivity. Qed.

Lemma ks_compile_rest : ks_indep (compile_note (chr "R")).
Proof.
  intros k c. unfold compile_note.
  change (toupper (chr "R")) with (chr "R").
  rewrite !bind_eq, !note_pitch_rest. cbn [fst snd].
  change (octave (set_key_shift k c)) with (octave c).
  change (set_error_col (col (set_key_shift k c)) (set_key_shift k c))
    with (set_key_shift k (set_error_col (col c) c)).
  generalize (set_error_col (col c) c) as c1. intros c1.
  revert k c1. fold (@ks_indep unit). ks_tac.
Qed.

(** ** Which errors the length parser and the emitter can raise *)

#[local] Instance new_error_in_preorder P : PreOrder (new_error_in P).
Proof.
  split.
  - intros c. left. reflexivity.
  - intros a b c [Hab|Hab] [Hbc|Hbc]; unfold new_error_in;
      [left; congruence | right; exact Hbc | right; congruence
      | right; exact Hbc].
Qed.

Lemma rest_unchanged c c' : error c' = error c -> new_error_in rest_error c c'.
Proof. intros H. left. exact H. Qed.

Lemma rest_get : rest_frame get.
Proof.
  intros c. unfold get. destruct (len c <=? pos c)%nat; [reflexivity|].
  destruct (_ =? _); left; reflexivity.
Qed.

Lemma rest_set_error e : rest_error e -> rest_frame (set_error e).
Proof.
  intros He c. unfold set_error.
  destruct (is_ok (error c)); [|reflexivity].
  destruct (_ =? _); right; exact He.
Qed.

Lemma rest_func_range : rest_frame (set_error MML_ERR_FUNC_RANGE).
Proof. apply rest_set_error. left. reflexivity. Qed.

Lemma rest_internal : rest_frame (set_error MML_ERR_INTERNAL).
Proof. apply rest_set_error. right. left. reflexivity. Qed.

Lemma rest_octave : rest_frame (set_error MML_ERR_OCTAVE).
Proof. apply rest_set_error. right. right. reflexivity. Qed.

Create HintDb rest discriminated.
#[local] Hint Resolve rest_get rest_func_range rest_internal rest_octave : rest.

Ltac rest_tac :=
  repeat (first [ frame_step
                | apply frame_modify; intro; apply rest_unchanged; reflexivity
                | solve [auto with rest] ]).

Lemma rest_skip_space_loop fuel : rest_frame (skip_space_loop fuel).
Proof.
  induction fuel as [|fuel IH]; intros c; simpl; [reflexivity|].
  destruct (is_blank (peek c)); [|reflexivity].
  apply (frame_bind (new_error_in rest_error));
    [apply rest_get | intros _; apply IH].
Qed.

Lemma rest_skip_space : rest_frame skip_space.
Proof. intros c. apply rest_skip_space_loop. Qed.
#[local] Hint Resolve rest_skip_space : rest.

Lemma rest_ensure_space need : rest_frame (ensure_space need).
Proof.
  intros c. unfold ensure_space. destruct (_ >? _); [|reflexivity].
  revert c. rest_tac.
Qed.
#[local] Hint Resolve rest_ensure_space : rest.

Lemma rest_emit_byte v : rest_frame (emit_byte v).
Proof. unfold emit_byte. rest_tac. Qed.

Lemma rest_emit_word_le v : rest_frame (emit_word_le v).
Proof. unfold emit_word_le. rest_tac. Qed.
#[local] Hint Resolve rest_emit_byte rest_emit_word_le : rest.

Lemma rest_emit_octave n : rest_frame (emit_octave n).
Proof. unfold emit_octave. rest_tac. Qed.

Lemma rest_parse_para_loop fuel v : rest_frame (parse_para_loop fuel v).
Proof.
  revert v. induction fuel as [|fuel IH]; intros v c; simpl; [reflexivity|].
  destruct (isdigit (peek c)); simpl; [|reflexivity].
  apply (frame_bind (new_error_in rest_error));
    [apply rest_get | intros _; apply IH].
Qed.
#[local] Hint Resolve rest_emit_octave rest_parse_para_loop : rest.

Lemma rest_parse_para : rest_frame parse_para.
Proof. unfold parse_para. rest_tac. Qed.

Lemma rest_apply_dots_loop n a h : rest_frame (apply_dots_loop n a h).
Proof.
  revert a h. induction n as [|n IH]; intros a h; simpl; rest_tac.
Qed.
#[local] Hint Resolve rest_parse_para rest_apply_dots_loop : rest.

Lemma rest_apply_dots b d : rest_frame (apply_dots b d).
Proof. unfold apply_dots. rest_tac. Qed.

Lemma rest_count_dots fuel d : rest_frame (count_dots fuel d).
Proof.
  revert d. induction fuel as [|fuel IH]; intros d; simpl; rest_tac.
Qed.
#[local] Hint Resolve rest_apply_dots rest_count_dots : rest.

Lemma rest_length_base f v : rest_frame (length_base f v).
Proof. unfold length_base. rest_tac. Qed.

Lemma rest_length_dots b : rest_frame (length_dots b).
Proof. unfold length_dots. rest_tac. Qed.
#[local] Hint Resolve rest_length_base rest_length_dots : rest.

Lemma rest_parse_length_96_rec fuel :
  rest_frame (parse_length_96_rec fuel)
  /\ forall b, rest_frame (length_carets fuel b).
Proof.
  induction fuel as [|fuel [IH1 IH2]]; split; intros; simpl; rest_tac.
Qed.

Lemma rest_parse_length_96 : rest_frame parse_length_96.
Proof. intros c. apply rest_parse_length_96_rec. Qed.

Lemma rest_note_emit tone octave0 L tie :
  rest_frame (note_emit tone octave0 L tie).
Proof. unfold note_emit. rest_tac. Qed.
#[local] Hint Resolve rest_parse_length_96 rest_note_emit : rest.

Lemma rest_compile_rest : rest_frame (compile_note (chr "R")).
Proof.
  intros c. unfold compile_note.
  change (toupper (chr "R")) with (chr "R").
  rewrite bind_eq, note_pitch_rest. cbn [fst snd].
  transitivity (set_error_col (col c) c); [left; reflexivity|].
  generalize (set_error_col (col c) c) as c1.
  fold (@frame (new_error_in rest_error) unit). rest_tac.
Qed.

(** ** The loops run to completion *)

(** Every loop of the source is modelled with a fuel taken from the
    number of characters left in the line.  The lemmas of this section
    show that the fuel is never what stops a loop: on exit the condition of
    the C loop is false. *)

#[local] Instance advance_preorder : PreOrder advance.
Proof.
  split.
  - intros c. split; auto.
  - intros a b c [H1 H2] [H3 H4]. split; [congruence | lia].
Qed.

Lemma scan_only_advance c c' : scan_only c c' -> advance c c'.
Proof. intros []. split; auto. Qed.

Lemma frame_scan_advance {A} (m : M A) :
  frame scan_only m -> frame advance m.
Proof. intros H c. apply scan_only_advance, H. Qed.

Lemma advance_unchanged c c' :
  len c' = len c -> pos c' = pos c -> advance c c'.
Proof. intros H1 H2. split; [exact H1 | lia]. Qed.

Create HintDb adv discriminated.

Ltac adv_tac :=
  repeat (first [ solve [auto with adv]
                | apply frame_scan_advance; solve [auto with scan]
                | frame_step
                | apply frame_modify; intro; apply advance_unchanged;
                  reflexivity ]).



Lemma isdigit_inside c : isdigit (peek c) = true -> (pos c < len c)%nat.
Proof.
  intros H. apply peek_nonneg_inside. unfold isdigit in H.
  apply andb_true_iff in H. lia.
Qed.


Lemma parse_para_loop_stops fuel :
  forall v c, (remaining c <= fuel)%nat ->
    isdigit (peek (snd (parse_para_loop fuel v c))) = false.
Proof.
  induction fuel as [|fuel IH]; intros v c Hf.
  - simpl. destruct (isdigit (peek c)) eqn:E; [|reflexivity].
    apply isdigit_inside in E. unfold remaining in Hf. lia.
  - cbn [parse_para_loop].
    destruct (isdigit (peek c)) eqn:E; cbn [negb]; [|exact E].
    rewrite bind_eq. apply IH.
    rewrite remaining_get by (apply isdigit_inside; exact E). lia.
Qed.

Lemma count_dots_stops fuel :
  forall d c, (remaining c <= fuel)%nat ->
    (peek (snd (count_dots fuel d c)) =? chr ".") = false.
Proof.
  induction fuel as [|fuel IH]; intros d c Hf; cbn [count_dots];
    rewrite !bind_eq; cbn [gets fst snd];
    pose proof (remaining_scan_only _ _ (scan_only_skip_space c)) as Hr;
    destruct (peek (snd (skip_space c)) =? chr ".") eqn:E; try exact E;
    assert (pos (snd (skip_space c)) < len (snd (skip_space c)))%nat as Hin
      by (apply peek_nonneg_inside; apply Z.eqb_eq in E; rewrite E;
          apply chr_nonneg).
  - unfold remaining in *. lia.
  - rewrite bind_eq. apply IH. rewrite remaining_get by exact Hin. lia.
Qed.

Lemma discard_line_stops fuel :
  forall c, (remaining c <= fuel)%nat ->
    let c' := snd (discard_line fuel c) in
    (peek c' >=? 0) && negb (peek c' =? chr "010") = false.
Proof.
  induction fuel as [|fuel IH]; intros c Hf; cbn [discard_line];
    destruct ((peek c >=? 0) && negb (peek c =? chr "010")) eqn:E;
    try exact E;
    assert (pos c < len c)%nat as Hin
      by (apply peek_nonneg_inside; apply andb_true_iff in E; lia).
  - unfold remaining in Hf. lia.
  - rewrite bind_eq. apply IH. rewrite remaining_get by exact Hin. lia.
Qed.

Lemma adv_discard_line fuel : frame advance (discard_line fuel).
Proof.
  induction fuel as [|fuel IH]; intros c; cbn [discard_line];
    destruct (_ && _); try reflexivity.
  apply (frame_bind advance); [|intros _; exact IH].
  apply frame_scan_advance, scan_only_get.
Qed.

Lemma adv_skip_comment fuel : frame advance (skip_comment fuel).
Proof.
  induction fuel as [|fuel IH]; cbn [skip_comment]; adv_tac.
Qed.

Lemma adv_ensure_space need : frame advance (ensure_space need).
Proof.
  intros c. unfold ensure_space. destruct (_ >? _); [|reflexivity].
  revert c. adv_tac.
Qed.
#[local] Hint Resolve adv_discard_line adv_skip_comment adv_ensure_space : adv.

Lemma adv_emit_byte v : frame advance (emit_byte v).
Proof. unfold emit_byte. adv_tac. Qed.

Lemma adv_emit_word_le v : frame advance (emit_word_le v).
Proof. unfold emit_word_le. adv_tac. Qed.
#[local] Hint Resolve adv_emit_byte adv_emit_word_le : adv.

Lemma adv_emit_octave n : frame advance (emit_octave n).
Proof. unfold emit_octave. adv_tac. Qed.

Lemma adv_set_octave n : frame advance (set_octave n).
Proof. unfold set_octave. adv_tac. Qed.
#[local] Hint Resolve adv_emit_octave adv_set_octave : adv.

Lemma adv_note_emit tone octave0 L tie :
  frame advance (note_emit tone octave0 L tie).
Proof. unfold note_emit. adv_tac. Qed.
#[local] Hint Resolve adv_note_emit : adv.

Lemma adv_compile_note note : frame advance (compile_note note).
Proof. unfold compile_note. adv_tac. Qed.

Lemma adv_expect_comma : frame advance expect_comma.
Proof. unfold expect_comma. adv_tac. Qed.
#[local] Hint Resolve adv_compile_note adv_expect_comma : adv.

Lemma adv_operand p err k :
  frame advance p -> frame advance err -> (forall v, frame advance (k v)) ->
  frame advance (operand p err k).
Proof. intros Hp He Hk. unfold operand. adv_tac. Qed.

Lemma adv_comma err k :
  frame advance err -> frame advance k -> frame advance (comma err k).
Proof. intros He Hk. unfold comma. adv_tac. Qed.

Lemma adv_func_range : frame advance func_range.
Proof. unfold func_range. adv_tac. Qed.

Lemma adv_parse_unsigned : frame advance parse_unsigned.
Proof. adv_tac. Qed.

Lemma adv_parse_signed : frame advance parse_signed.
Proof. adv_tac. Qed.
#[local] Hint Resolve adv_func_range adv_parse_unsigned adv_parse_signed : adv.

Lemma advance_poke i v c : advance c (poke i v c).
Proof. split; reflexivity. Qed.

Lemma advance_loop_store i ls c : advance c (loop_store i ls c).
Proof. unfold loop_store. destruct (0 <=? i); split; reflexivity. Qed.

Lemma advance_restore_saved i c : advance c (restore_saved i c).
Proof.
  unfold restore_saved.
  repeat match goal with
         | |- context [if ?b then _ else _] => destruct b
         end;
    (etransitivity; [|apply advance_loop_store]); split; reflexivity.
Qed.

Ltac cmd_tac :=
  repeat (first [ solve [auto with adv]
                | apply frame_scan_advance; solve [auto with scan]
                | apply adv_operand; [ | | intro ]
                | apply adv_comma
                | frame_step
                | apply frame_modify; intro;
                  first [ apply advance_unchanged; reflexivity
                        | apply advance_poke
                        | apply advance_restore_saved
                        | etransitivity;
                          [ | apply advance_loop_store ];
                          apply advance_unchanged; reflexivity
                        | etransitivity;
                          [ apply advance_poke | apply advance_poke ] ] ]).

Lemma adv_compile_command command : frame advance (compile_command command).
Proof.
  unfold compile_command.
  repeat match goal with
         | |- frame advance (if ?b then _ else _) => destruct b
         end.
  all: unfold command_O, command_gt, command_lt, command_V, command_lparen,
         command_rparen, command_I, command_J, command_L, command_M,
         command_N, command_P, command_Q, command_S, command_T, command_U,
         command_W, command_X, command_underscore, command_open,
         command_close, command_colon, command_semicolon.
  all: cmd_tac.
Qed.

(** A statement compiled inside the line consumes at least one
    character. *)
Lemma compile_statement_progress c :
  (pos c < len c)%nat ->
  (remaining (snd (compile_statement c)) < remaining c)%nat.
Proof.
  intros Hin. unfold compile_statement. rewrite !bind_eq. cbn [gets fst snd].
  set (c1 := snd (skip_space c)).
  assert (advance c c1) as [Hl1 Hp1]
    by apply scan_only_advance, scan_only_skip_space.
  assert (forall c2, advance (snd (get c1)) c2 -> (pos c1 < len c1)%nat ->
                     (remaining c2 < remaining c)%nat) as Hget.
  { intros c2 [Hl2 Hp2] Hin1.
    pose proof (remaining_get c1 Hin1) as Hr.
    assert (len (snd (get c1)) = len c1) as Hlg
      by apply (so_len _ _ (scan_only_get c1)).
    unfold remaining in *. lia. }
  destruct (peek c1 <? 0) eqn:E0.
  { cbn [ret snd]. unfold peek in E0.
    destruct (len c1 <=? pos c1)%nat eqn:E.
    - apply Nat.leb_le in E. unfold remaining. lia.
    - exfalso. unfold char_at in E0.
      destruct (String.get (pos c1) (src c1)) as [a|].
      + pose proof (chr_nonneg a). lia.
      + lia. }
  assert (pos c1 < len c1)%nat as Hin1 by (apply peek_nonneg_inside; lia).
  destruct (peek c1 =? chr ";").
  { rewrite bind_eq. cbn [gets fst snd].
    destruct (remaining c1) as [|fuel] eqn:Er;
      [unfold remaining in Er; lia|].
    cbn [skip_comment]. rewrite bind_eq.
    destruct (_ && _); [|apply Hget; [reflexivity | exact Hin1]].
    apply Hget; [apply adv_skip_comment | exact Hin1]. }
  destruct (peek c1 =? chr "010").
  { rewrite bind_eq. apply Hget; [reflexivity | exact Hin1]. }
  rewrite bind_eq.
  destruct (is_note_letter _).
  - apply Hget; [apply adv_compile_note | exact Hin1].
  - apply Hget; [apply adv_compile_command | exact Hin1].
Qed.

Lemma compile_line_loop_stops fuel :
  forall c, (remaining c <= fuel)%nat ->
    line_loop_condition (snd (compile_line_loop fuel c)) = false.
Proof.
  induction fuel as [|fuel IH]; intros c Hf; cbn [compile_line_loop];
    fold (line_loop_condition c);
    destruct (line_loop_condition c) eqn:E; try exact E.
  - unfold line_loop_condition in E. apply andb_true_iff in E as [E _].
    apply Nat.ltb_lt in E. unfold remaining in Hf. lia.
  - rewrite bind_eq. apply IH.
    unfold line_loop_condition in E. apply andb_true_iff in E as [E _].
    apply Nat.ltb_lt in E.
    pose proof (compile_statement_progress c E). lia.
Qed.

(** X22.  The statement loop of [mml_compile_line] runs to its end:
    every statement consumes at least one character, so after at most
    [strlen] statements the line is consumed or an error is recorded;
    the value returned is that error. *)
Lemma mml_compile_line_complete s n c :
  let r := mml_compile_line s n c in
  fst r = error (snd r)
  /\ ((len (snd r) <= pos (snd r))%nat \/ error (snd r) <> MML_OK).
Proof.
  unfold mml_compile_line. rewrite !bind_eq. cbn [modify gets fst snd].
  split; [reflexivity|].
  set (c0 := begin_line s n c).
  pose proof (compile_line_loop_stops (remaining c0) c0 (Nat.le_refl _)) as H.
  unfold line_loop_condition in H. apply andb_false_iff in H as [H | H].
  - left. apply Nat.ltb_ge in H. exact H.
  - right. intros E. rewrite E in H. discriminate.
Qed.

(** ** The channel invariant *)

#[local] Instance keeps_inv_preorder : PreOrder keeps_inv.
Proof.
  split.
  - intros c H. exact H.
  - intros a b c Hab Hbc H. apply Hbc, Hab, H.
Qed.

Lemma keeps_inv_same c c' :
  key_shift c' = key_shift c -> l_len96 c' = l_len96 c ->
  loops c' = loops c -> keeps_inv c c'.
Proof.
  intros Hk Hl Hs (H1 & H2 & H3). unfold channel_inv.
  rewrite Hk, Hl, Hs. auto.
Qed.

Lemma scan_only_keeps_inv c c' : scan_only c c' -> keeps_inv c c'.
Proof. intros []. apply keeps_inv_same; assumption. Qed.

Lemma frame_scan_keeps_inv {A} (m : M A) :
  frame scan_only m -> frame keeps_inv m.
Proof. intros H c. apply scan_only_keeps_inv, H. Qed.

Create HintDb inv discriminated.

Ltac inv_tac :=
  repeat (first [ solve [auto with inv]
                | apply frame_scan_keeps_inv; solve [auto with scan]
                | frame_step
                | apply frame_modify; intro; apply keeps_inv_same;
                  reflexivity ]).

Lemma inv_ensure_space need : frame keeps_inv (ensure_space need).
Proof.
  intros c. unfold ensure_space. destruct (_ >? _); [|reflexivity].
  revert c. inv_tac.
Qed.
#[local] Hint Resolve inv_ensure_space : inv.

Lemma inv_emit_byte v : frame keeps_inv (emit_byte v).
Proof. unfold emit_byte. inv_tac. Qed.

Lemma inv_emit_word_le v : frame keeps_inv (emit_word_le v).
Proof. unfold emit_word_le. inv_tac. Qed.
#[local] Hint Resolve inv_emit_byte inv_emit_word_le : inv.

Lemma inv_emit_octave n : frame keeps_inv (emit_octave n).
Proof. unfold emit_octave. inv_tac. Qed.

Lemma inv_set_octave n : frame keeps_inv (set_octave n).
Proof. unfold set_octave. inv_tac. Qed.

Lemma inv_discard_line fuel : frame keeps_inv (discard_line fuel).
Proof.
  induction fuel as [|fuel IH]; intros c; cbn [discard_line];
    destruct (_ && _); try reflexivity.
  apply (frame_bind keeps_inv); [|intros _; exact IH].
  apply frame_scan_keeps_inv, scan_only_get.
Qed.

Lemma inv_skip_comment fuel : frame keeps_inv (skip_comment fuel).
Proof. induction fuel as [|fuel IH]; cbn [skip_comment]; inv_tac. Qed.
#[local] Hint Resolve inv_emit_octave inv_set_octave inv_discard_line
  inv_skip_comment : inv.

Lemma inv_note_emit tone octave0 L tie :
  frame keeps_inv (note_emit tone octave0 L tie).
Proof. unfold note_emit. inv_tac. Qed.
#[local] Hint Resolve inv_note_emit : inv.

Lemma inv_compile_note note : frame keeps_inv (compile_note note).
Proof. unfold compile_note. inv_tac. Qed.

Lemma inv_expect_comma : frame keeps_inv expect_comma.
Proof. unfold expect_comma. inv_tac. Qed.

Lemma inv_func_range : frame keeps_inv func_range.
Proof. unfold func_range. inv_tac. Qed.

Lemma inv_parse_unsigned : frame keeps_inv parse_unsigned.
Proof. inv_tac. Qed.

Lemma inv_parse_signed : frame keeps_inv parse_signed.
Proof. inv_tac. Qed.
#[local] Hint Resolve inv_compile_note inv_expect_comma inv_func_range
  inv_parse_unsigned inv_parse_signed : inv.

Lemma inv_operand p err k :
  frame keeps_inv p -> frame keeps_inv err ->
  (forall v, frame keeps_inv (k v)) ->
  frame keeps_inv (operand p err k).
Proof. intros Hp He Hk. unfold operand. inv_tac. Qed.

Lemma inv_comma err k :
  frame keeps_inv err -> frame keeps_inv k -> frame keeps_inv (comma err k).
Proof. intros He Hk. unfold comma. inv_tac. Qed.

Lemma keeps_inv_poke i v c : keeps_inv c (poke i v c).
Proof. apply keeps_inv_same; reflexivity. Qed.

Lemma channel_inv_loop_store i ls c :
  0 <= saved_l_len96 ls -> channel_inv c -> channel_inv (loop_store i ls c).
Proof.
  intros Hls (H1 & H2 & H3). unfold loop_store, channel_inv.
  destruct (0 <=? i); [|auto].
  split; [exact H1|]. split; [exact H2|].
  cbn. apply Forall_insert; assumption.
Qed.

Lemma loop_load_saved i c :
  channel_inv c -> 0 <= saved_l_len96 (loop_load i c).
Proof.
  intros (_ & _ & H). unfold loop_load.
  destruct (0 <=? i); [|simpl; lia].
  destruct (loops c !! Z.to_nat i) as [ls|] eqn:E; [|simpl; lia].
  simpl. exact (proj1 (Forall_lookup _ _) H _ _ E).
Qed.

Lemma keeps_inv_restore_saved i c : keeps_inv c (restore_saved i c).
Proof.
  intros Hc. pose proof (loop_load_saved i c Hc) as Hs.
  unfold restore_saved.
  apply channel_inv_loop_store; [simpl; lia|].
  destruct Hc as (H1 & H2 & H3). unfold channel_inv.
  destruct (saved_l_len96 (loop_load i c) =? 0) eqn:E0;
    destruct (negb (saved_lp_len96 (loop_load i c) =? 0));
    destruct (negb (saved_octave (loop_load i c) =? 0));
    cbn; (split; [exact H1|]; split; [lia | exact H3]).
Qed.

Lemma inv_command_L : frame keeps_inv command_L.
Proof.
  intros c Hc. unfold command_L. rewrite bind_eq.
  pose proof (scan_only_parse_length_96 c) as Hs.
  pose proof (scan_only_keeps_inv _ _ Hs Hc) as Hc1.
  destruct (fst (parse_length_96 c)) as [[len96 flag]|] eqn:E;
    [|exact Hc1].
  apply parse_length_96_pos in E; [|apply Hc].
  revert Hc1. generalize (snd (parse_length_96 c)). intros c1 Hc1.
  destruct (has_flag flag PARA_F_NOVALUE); [apply inv_func_range, Hc1|].
  destruct (has_flag flag PARA_F_MINUS); [apply inv_func_range, Hc1|].
  destruct (_ || _); [apply inv_func_range, Hc1|].
  rewrite bind_eq. apply inv_emit_byte.
  destruct Hc1 as (H1 & H2 & H3).
  destruct (negb _); rewrite bind_eq; apply inv_emit_byte;
    unfold channel_inv; cbn; (split; [exact H1|]; split; [lia | exact H3]).
Qed.

Lemma inv_command_underscore : frame keeps_inv command_underscore.
Proof.
  intros c Hc. unfold command_underscore, operand. rewrite bind_eq.
  pose proof (scan_only_keeps_inv _ _ (scan_only_parse_signed c) Hc) as Hc1.
  destruct (fst (parse_signed c)) as [v|]; [|apply inv_func_range, Hc1].
  destruct (v <? -12) eqn:E1; [apply inv_func_range, Hc1|].
  destruct (v >? 12) eqn:E2; [apply inv_func_range, Hc1|].
  destruct Hc1 as (H1 & H2 & H3). unfold channel_inv. cbn.
  split; [lia|]. split; [exact H2 | exact H3].
Qed.

Lemma inv_command_open : frame keeps_inv command_open.
Proof.
  unfold command_open. inv_tac.
  apply frame_modify. intros c Hc.
  apply channel_inv_loop_store; [simpl; lia|].
  revert Hc. apply keeps_inv_same; reflexivity.
Qed.

Lemma inv_command_colon : frame keeps_inv command_colon.
Proof.
  unfold command_colon. inv_tac.
  apply frame_modify. intros c Hc.
  apply channel_inv_loop_store; [|exact Hc].
  simpl. destruct Hc as (_ & H & _). lia.
Qed.

Lemma inv_command_close : frame keeps_inv command_close.
Proof.
  unfold command_close. inv_tac.
  all: try (apply inv_operand; [inv_tac | inv_tac | intro]).
  all: inv_tac.
  all: try (apply frame_modify; intro;
            first [ apply keeps_inv_poke
                  | apply keeps_inv_restore_saved
                  | etransitivity; apply keeps_inv_poke ]).
Qed.
#[local] Hint Resolve inv_command_L inv_command_underscore inv_command_open
  inv_command_colon inv_command_close : inv.

Lemma inv_compile_command command :
  frame keeps_inv (compile_command command).
Proof.
  unfold compile_command.
  repeat match goal with
         | |- frame keeps_inv (if ?b then _ else _) => destruct b
         end.
  all: try solve [auto with inv].
  all: unfold command_O, command_gt, command_lt, command_V, command_lparen,
         command_rparen, command_I, command_J, command_M,
         command_N, command_P, command_Q, command_S, command_T, command_U,
         command_W, command_X, command_semicolon.
  all: repeat (first [ solve [auto with inv]
                     | apply frame_scan_keeps_inv; solve [auto with scan]
                     | apply inv_operand; [ | | intro ]
                     | apply inv_comma
                     | frame_step
                     | apply frame_modify; intro; apply keeps_inv_same;
                       reflexivity ]).
Qed.
#[local] Hint Resolve inv_compile_command : inv.

Lemma inv_compile_statement : frame keeps_inv compile_statement.
Proof. unfold compile_statement. inv_tac. Qed.

Lemma inv_compile_line_loop fuel : frame keeps_inv (compile_line_loop fuel).
Proof.
  induction fuel as [|fuel IH]; intros c; cbn [compile_line_loop];
    destruct (_ && _); try reflexivity.
  apply (frame_bind keeps_inv); [apply inv_compile_statement|].
  intros _. exact IH.
Qed.

(** Every state a channel goes through satisfies the invariant: it holds
    after [mml_channel_init] and is kept by [mml_compile_line] and
    [mml_finish_channel]. *)
Lemma channel_inv_reachable :
  (forall out_size, channel_inv (mml_channel_init out_size))
  /\ (forall s n c, channel_inv c ->
        channel_inv (snd (mml_compile_line s n c)))
  /\ (forall c, channel_inv c -> channel_inv (snd (mml_finish_channel c))).
Proof.
  split; [|split].
  - intros out_size. unfold channel_inv. cbn.
    repeat split; try lia. repeat constructor; simpl; lia.
  - intros s n c Hc. unfold mml_compile_line. rewrite !bind_eq.
    cbn [modify gets fst snd].
    apply inv_compile_line_loop.
    revert Hc. apply keeps_inv_same; reflexivity.
  - assert (frame keeps_inv mml_finish_channel) as H
      by (unfold mml_finish_channel; inv_tac).
    exact H.
Qed.

(** * The claims *)

(** ** C1: finishing a channel *)

(** When the buffer has no room left, [mml_finish_channel] still answers
    [MML_OK]: the failed [emit_byte] has recorded [MML_ERR_INTERNAL], and
    the next statement overwrites it. *)
Lemma finish_on_full_buffer (c : MML_Compiler) :
  nest_depth c = 0 ->
  out_len c + 1 > out_cap c ->
  fst (mml_finish_channel c) = MML_OK
  /\ error (snd (mml_finish_channel c)) = MML_OK
  /\ out (snd (mml_finish_channel c)) = out c.
Proof.
  intros Hn Hfull. unfold mml_finish_channel.
  rewrite bind_eq. cbn [gets fst snd]. rewrite Hn. cbn [Z.eqb negb].
  unfold emit_byte, ensure_space. rewrite !bind_eq.
  destruct (out_len c + 1 >? out_cap c) eqn:E; [|lia].
  rewrite ?bind_eq. cbn [modify ret fst snd].
  repeat split.
  pose proof (scan_only_set_error MML_ERR_INTERNAL
                (set_error_col (col c) c)) as Hs.
  cbn. rewrite (so_out _ _ Hs). reflexivity.
Qed.

(** With room for one more byte, the finish appends FF and returns
    [MML_OK]. *)
Lemma finish_with_room (c : MML_Compiler) :
  nest_depth c = 0 ->
  out_len c + 1 <= out_cap c ->
  fst (mml_finish_channel c) = MML_OK
  /\ error (snd (mml_finish_channel c)) = MML_OK
  /\ out (snd (mml_finish_channel c)) = out c ++ [255].
Proof.
  intros Hn Hroom. unfold mml_finish_channel.
  rewrite bind_eq. cbn [gets fst snd]. rewrite Hn. cbn [Z.eqb negb].
  unfold emit_byte, ensure_space. rewrite !bind_eq.
  destruct (out_len c + 1 >? out_cap c) eqn:E; [lia|].
  cbn. repeat split.
Qed.

(** C1 (the code departs from the claim).  A channel with a one-byte
    buffer compiles the line [c] into the byte 01 and is full; its loop
    nesting is closed.  [mml_finish_channel] then returns [MML_OK] and
    leaves [error = MML_OK], yet the last byte of the output is 01, not
    FF: the end mark was dropped and no [MML_ERR_INTERNAL] is reported. *)
Theorem finish_drops_end_mark :
  let c := snd (mml_compile_line "c" 1 (mml_channel_init 1)) in
  nest_depth c = 0
  /\ out c = [1]
  /\ out_len c = out_cap c
  /\ fst (mml_finish_channel c) = MML_OK
  /\ error (snd (mml_finish_channel c)) = MML_OK
  /\ out (snd (mml_finish_channel c)) = [1]
  /\ last (out (snd (mml_finish_channel c))) <> Some 255.
Proof. vm_compute. repeat split; discriminate. Qed.

(** ** C2: the value read by PARA *)

(** C2 (the code departs from the claim).  The accumulator of
    [parse_para] is narrowed to 16 bits before it is compared with
    [UINT16_MAX], so a digit run above 65535 wraps instead of saturating:
    [65536] reads as 0 and [65540] as 4, and the note [c65540] is accepted
    as a quarter note. *)
Theorem parse_para_wraps :
  fst (parse_para (begin_line "65536" 1 (mml_channel_init CH_BUF_SIZE)))
    = (0, 0)
  /\ fst (parse_para (begin_line "65540" 1 (mml_channel_init CH_BUF_SIZE)))
    = (0, 4)
  /\ fst (parse_para (begin_line "65535" 1 (mml_channel_init CH_BUF_SIZE)))
    = (0, 65535)
  /\ fst (mml_compile_line "c65540" 1 (mml_channel_init CH_BUF_SIZE)) = MML_OK
  /\ out (snd (mml_compile_line "c65540" 1 (mml_channel_init CH_BUF_SIZE)))
    = [1].
Proof. vm_compute. repeat split. Qed.

(** ** C3: the total of a length specification *)

(** C3 (the code departs from the claim).  With [L%255] in force, a note
    followed by 128 carets resolves to 129 * 255 = 32895 ticks.  The only
    range test is the one in [apply_dots]; the sum built by ['^'] is not
    tested, so the length is accepted and emitted in the two-byte form
    (header 31, then 7F 80). *)
Theorem caret_total_exceeds_32767 :
  let c0 := snd (mml_compile_line "L%255" 1 (mml_channel_init CH_BUF_SIZE)) in
  fst (parse_length_96 (begin_line (carets 128) 2 c0)) = Some (32895, 1)
  /\ 32767 < 32895
  /\ fst (mml_compile_line ("c" ++ carets 128)%string 2 c0) = MML_OK
  /\ out (snd (mml_compile_line ("c" ++ carets 128)%string 2 c0))
     = [249; 255; 49; 127; 128].
Proof. vm_compute. repeat split. Qed.

(** ** C4: dots *)

Lemma apply_dots_loop_odd (k : nat) :
  forall (n : nat) (m len96 : Z) (c : MML_Compiler),
    Z.odd m = true -> (k < n)%nat ->
    fst (apply_dots_loop n len96 (2 ^ Z.of_nat k * m) c) = None.
Proof.
  induction k as [|k IH]; intros n m len96 c Hm Hn.
  - destruct n as [|n]; [lia|]. cbn [apply_dots_loop].
    change (2 ^ Z.of_nat 0) with 1. rewrite Z.mul_1_l.
    rewrite <- Zodd_rem, Hm. reflexivity.
  - destruct n as [|n]; [lia|]. cbn [apply_dots_loop].
    assert (2 ^ Z.of_nat (S k) * m = 2 ^ Z.of_nat k * m * 2) as ->.
    { rewrite Nat2Z.inj_succ, Z.pow_succ_r by lia. ring. }
    rewrite Z.rem_mul by lia. cbn [Z.eqb negb].
    rewrite Z.quot_mul by lia.
    rewrite bind_eq. cbn [modify fst snd]. apply IH; [exact Hm | lia].
Qed.

(** C4 (as amended).  A dot is refused when the half it would add is an
    odd number of ticks: a base of [2^k * m] ticks with [m] odd takes at
    most [k] dots.  [L32.] (3 ticks) therefore fails with FUNC_RANGE on
    every channel. *)
Theorem dot_on_odd_ticks_rejected (k : nat) (m dots : Z) (c : MML_Compiler)
    (s : MML_Compiler) (n : Z) :
  Z.odd m = true ->
  Z.of_nat k < dots ->
  fst (apply_dots (2 ^ Z.of_nat k * m) dots c) = None
  /\ fst (mml_compile_line "L32." n s) = MML_ERR_FUNC_RANGE.
Proof.
  intros Hm Hd. split.
  - unfold apply_dots. rewrite bind_eq.
    rewrite apply_dots_loop_odd; [reflexivity | exact Hm | lia].
  - reflexivity.
Qed.

(** The amended C4 at [k = 0], [m = 3], one dot. *)
Lemma dot_on_odd_ticks_rejected_witness :
  fst (apply_dots (2 ^ Z.of_nat 0 * 3) 1 (mml_channel_init CH_BUF_SIZE)) = None
  /\ fst (mml_compile_line "L32." 1 (mml_channel_init CH_BUF_SIZE))
     = MML_ERR_FUNC_RANGE.
Proof.
  apply (dot_on_odd_ticks_rejected 0 3 1); [reflexivity | simpl; lia].
Defined.

(** C4 (counterexample to the claim as stated).  [L3] is a third of a
    whole note, 32 ticks, and the dot adds 16.  [L3.] compiles without
    error to F9 30 and sets the default length to 48 ticks. *)
Lemma dotted_L3_is_accepted :
  let r := mml_compile_line "L3." 1 (mml_channel_init CH_BUF_SIZE) in
  fst r = MML_OK
  /\ fst r <> MML_ERR_FUNC_RANGE
  /\ out (snd r) = [249; 48]
  /\ l_len96 (snd r) = 48.
Proof. vm_compute. repeat split; discriminate. Qed.

(** ** C5 and C6: two scenarios from the initial channel state *)

(** C5.  From the initial state the line [[ c d ]3], followed by the
    channel finish, yields F0 03 01 03 F1 FC FF.  Before the [']'] the loop
    body starts at offset 2 and four bytes are out, so the back-jump
    offset is 2 - (4 + 3) = -5; it is emitted in the one-byte form as
    -5 + 1 = -4 = FC, and the count 3 is stored at offset 1. *)
Theorem loop_scenario :
  (let c0 := mml_channel_init CH_BUF_SIZE in
   l_len96 c0 = 24 /\ lp_len96 c0 = 192 /\ octave c0 = 4
   /\ octave_last c0 = 4 /\ key_shift c0 = 0)
  /\ channel_bytes CH_BUF_SIZE "[ c d ]3"
    = (MML_OK, MML_OK, [240; 3; 1; 3; 241; 252; 255])
  /\ (let c := snd (mml_compile_line "[ c d " 1
                      (mml_channel_init CH_BUF_SIZE)) in
      out c = [240; 0; 1; 3]
      /\ loop_start (loop_load 0 c) = 2
      /\ loop_start (loop_load 0 c) - (out_len c + 3) = -5
      /\ u8 (Z.land (-5 + 1) 255) = 252).
Proof. vm_compute. repeat split. Qed.

(** C6.  From the initial state the line [c&d], followed by the channel
    finish, yields 41 03 FF: the tie bit (bit 6) is in the header of the
    first note, and the second note carries none. *)
Theorem tie_scenario :
  (let c0 := mml_channel_init CH_BUF_SIZE in
   l_len96 c0 = 24 /\ lp_len96 c0 = 192 /\ octave c0 = 4
   /\ octave_last c0 = 4 /\ key_shift c0 = 0)
  /\ channel_bytes CH_BUF_SIZE "c&d" = (MML_OK, MML_OK, [65; 3; 255])
  /\ 65 = Z.lor (Z.shiftl 1 6) 1
  /\ Z.testbit 65 6 = true
  /\ Z.testbit 3 6 = false.
Proof. vm_compute. repeat split. Qed.

(** ** C7: errors and lines *)

(** C7 (counterexample to the claim as stated).  The line [O9] leaves the
    channel with an OCTAVE error.  The next line [c] on the same channel
    returns [MML_OK], clears the error field and appends the note. *)
Lemma error_cleared_by_next_line :
  let c1 := snd (mml_compile_line "O9" 1 (mml_channel_init CH_BUF_SIZE)) in
  let r2 := mml_compile_line "c" 2 c1 in
  error c1 = MML_ERR_OCTAVE
  /\ fst r2 = MML_OK
  /\ error (snd r2) = MML_OK
  /\ out c1 = []
  /\ out (snd r2) = [1].
Proof. vm_compute. repeat split. Qed.

(** C7 (as amended).  The error state is per line.  A line compiles the
    same whether or not an earlier line left an error, because
    [mml_compile_line] starts by resetting [error] and [error_col].  Inside
    a line the first error is kept: [set_error] changes nothing once an
    error is present, and the statement loop does not run again. *)
Theorem error_state_is_per_line (c : MML_Compiler) (e : MML_Error) (ec : Z)
    (s : string) (n : Z) :
  e <> MML_OK ->
  let c_err := set_error_col ec (set_error_field e c) in
  mml_compile_line s n c_err = mml_compile_line s n c
  /\ (forall e', set_error e' c_err = (tt, c_err))
  /\ (forall fuel, compile_line_loop fuel c_err = (tt, c_err)).
Proof.
  intros He c_err. split; [reflexivity|]. split.
  - intros e'. unfold set_error. subst c_err. cbn [error set_error_col].
    cbn. rewrite (is_ok_false e He). reflexivity.
  - intros fuel. destruct fuel; cbn [compile_line_loop];
      subst c_err; cbn; rewrite (is_ok_false e He), andb_false_r; reflexivity.
Qed.

(** The amended C7 on a channel holding an OCTAVE error, for the line
    [c]. *)
Lemma error_state_is_per_line_witness :
  let c := mml_channel_init CH_BUF_SIZE in
  let c_err := set_error_col 2 (set_error_field MML_ERR_OCTAVE c) in
  mml_compile_line "c" 2 c_err = mml_compile_line "c" 2 c
  /\ (forall e', set_error e' c_err = (tt, c_err))
  /\ (forall fuel, compile_line_loop fuel c_err = (tt, c_err)).
Proof.
  apply (error_state_is_per_line (mml_channel_init CH_BUF_SIZE)
           MML_ERR_OCTAVE 2 "c" 2).
  discriminate.
Defined.

(** ** C8: the note header *)

(** C8 (the code departs from the claim).  After the line [L%255] the
    [L] default is 255 ticks.  The note [c] followed by 257 carets, a
    line of 258 characters, resolves to 258 * 255 = 65790 ticks and
    compiles without error.  Its header is 31: tone 1 in the low nibble
    and 11 in bits 5-4, as for every length above 255.  The two bytes
    that follow are FE 00, the low 16 bits of the length: they denote
    254 ticks, not 65790.  The length is narrowed to [uint16_t] when it
    is emitted, and nothing has bounded the sum of the caret terms
    before. *)
Theorem note_length_word_wraps :
  let c0 := snd (mml_compile_line "L%255" 1 (mml_channel_init CH_BUF_SIZE)) in
  let r := mml_compile_line ("c" ++ carets 257)%string 2 c0 in
  l_len96 c0 = 255 /\ lp_len96 c0 = 192 /\ out c0 = [249; 255]
  /\ fst (parse_length_96 (begin_line (carets 257) 2 c0)) = Some (65790, 1)
  /\ fst r = MML_OK
  /\ out (snd r) = out c0 ++ [49; 254; 0]
  /\ Z.land 49 15 = 1
  /\ Z.land (Z.shiftr 49 4) 3 = 3
  /\ 254 + 256 * 0 = 65790 mod 65536
  /\ 254 + 256 * 0 <> 65790.
Proof. vm_compute. repeat split. discriminate. Qed.

(** ** C9: the object file header *)

Lemma store_byte_other (i : Z) (j : nat) (v : Z) (buf : list Z) :
  i <> Z.of_nat j -> store_byte i v buf !! j = buf !! j.
Proof.
  intros H. unfold store_byte. destruct (0 <=? i) eqn:E; [|reflexivity].
  apply Z.leb_le in E. apply list_lookup_insert_ne. lia.
Qed.

Lemma memcpy_below (data : list Z) :
  forall (at_ : Z) (buf : list Z) (j : nat),
    Z.of_nat j < at_ -> memcpy at_ data buf !! j = buf !! j.
Proof.
  induction data as [|x data IH]; intros at_ buf j H; [reflexivity|].
  cbn [memcpy]. rewrite IH by lia. apply store_byte_other. lia.
Qed.

Lemma put_word_le_other (at_ v : Z) (buf : list Z) (j : nat) :
  Z.of_nat j <> at_ -> Z.of_nat j <> at_ + 1 ->
  put_word_le at_ v buf !! j = buf !! j.
Proof.
  intros H1 H2. unfold put_word_le.
  rewrite !store_byte_other by lia. reflexivity.
Qed.

Lemma length_store_byte i v buf : length (store_byte i v buf) = length buf.
Proof.
  unfold store_byte. destruct (0 <=? i); [apply length_insert | reflexivity].
Qed.

Lemma length_memcpy data :
  forall at_ buf, length (memcpy at_ data buf) = length buf.
Proof.
  induction data as [|x data IH]; intros at_ buf; [reflexivity|].
  cbn [memcpy]. rewrite IH. apply length_store_byte.
Qed.

Lemma length_put_word_le at_ v buf :
  length (put_word_le at_ v buf) = length buf.
Proof. unfold put_word_le. rewrite !length_store_byte. reflexivity. Qed.

Lemma store_byte_same (j : nat) (v : Z) (buf : list Z) :
  (j < length buf)%nat -> store_byte (Z.of_nat j) v buf !! j = Some (u8 v).
Proof.
  intros H. unfold store_byte.
  destruct (0 <=? Z.of_nat j) eqn:E; [|apply Z.leb_gt in E; lia].
  rewrite Nat2Z.id. apply list_lookup_insert_eq. exact H.
Qed.

Lemma put_word_le_low (j : nat) (v : Z) (buf : list Z) :
  (j < length buf)%nat ->
  put_word_le (Z.of_nat j) v buf !! j = Some (Z.land (u16 v) 255).
Proof.
  intros H. unfold put_word_le.
  rewrite store_byte_other by lia.
  rewrite store_byte_same by exact H. rewrite u8_low_byte. reflexivity.
Qed.

Lemma put_word_le_high (j : nat) (v : Z) (buf : list Z) :
  (S j < length buf)%nat ->
  put_word_le (Z.of_nat j) v buf !! S j = Some (Z.shiftr (u16 v) 8).
Proof.
  intros H. unfold put_word_le.
  replace (Z.of_nat j + 1) with (Z.of_nat (S j)) by lia.
  rewrite store_byte_same by (rewrite length_store_byte; exact H).
  rewrite u8_high_byte. reflexivity.
Qed.

(** The three address words of the header: [base + 8], [base + 8 + len1]
    and [base + 8 + len1 + len2] as little-endian 16-bit words. *)
Lemma object_header_words (baseaddr : Z) (ch1 ch2 ch3 outbuf : list Z) :
  let len1 := Z.of_nat (length ch1) in
  let len2 := Z.of_nat (length ch2) in
  let img := object_image baseaddr ch1 ch2 ch3 outbuf in
  8 + len1 + len2 < 65536 ->
  (8 <= length outbuf)%nat ->
  img !! 0%nat = Some (Z.land (u16 (baseaddr + 8)) 255)
  /\ img !! 1%nat = Some (Z.shiftr (u16 (baseaddr + 8)) 8)
  /\ img !! 2%nat = Some (Z.land (u16 (baseaddr + (8 + len1))) 255)
  /\ img !! 3%nat = Some (Z.shiftr (u16 (baseaddr + (8 + len1))) 8)
  /\ img !! 4%nat = Some (Z.land (u16 (baseaddr + (8 + len1 + len2))) 255)
  /\ img !! 5%nat = Some (Z.shiftr (u16 (baseaddr + (8 + len1 + len2))) 8).
Proof.
  intros len1 len2 img Hsmall Hlen. subst img len1 len2.
  unfold object_image, channel_offsets, fill_channel, ch_offset,
    CH1_START_OFFSET.
  rewrite !u16_small by (try rewrite u16_small; lia).
  cbn [foldl fst snd lookup list_lookup default from_option id].
  set (b0 := put_word_le 0 (baseaddr + 8) outbuf).
  set (m0 := memcpy 8 ch1 b0).
  set (b1 := put_word_le 2 _ m0).
  set (m1 := memcpy _ ch2 b1).
  set (b2 := put_word_le 4 _ m1).
  assert (length b0 = length outbuf) as L0 by apply length_put_word_le.
  assert (length m0 = length outbuf) as L1
    by (subst m0; rewrite length_memcpy; exact L0).
  assert (length b1 = length outbuf) as L2
    by (subst b1; rewrite length_put_word_le; exact L1).
  assert (length m1 = length outbuf) as L3
    by (subst m1; rewrite length_memcpy; exact L2).
  repeat split; rewrite memcpy_below by lia; subst b2.
  - rewrite put_word_le_other by lia. subst m1.
    rewrite memcpy_below by lia. subst b1.
    rewrite put_word_le_other by lia. subst m0.
    rewrite memcpy_below by lia.
    apply (put_word_le_low 0). lia.
  - rewrite put_word_le_other by lia. subst m1.
    rewrite memcpy_below by lia. subst b1.
    rewrite put_word_le_other by lia. subst m0.
    rewrite memcpy_below by lia.
    apply (put_word_le_high 0). lia.
  - rewrite put_word_le_other by lia. subst m1.
    rewrite memcpy_below by lia.
    apply (put_word_le_low 2). lia.
  - rewrite put_word_le_other by lia. subst m1.
    rewrite memcpy_below by lia.
    apply (put_word_le_high 2). lia.
  - apply (put_word_le_low 4). lia.
  - apply (put_word_le_high 4). lia.
Qed.

(** Bytes 6 and 7 of the object image are never written: they keep
    whatever the block returned by [malloc] held. *)
Lemma object_gap_untouched (baseaddr : Z) (ch1 ch2 ch3 outbuf : list Z)
    (j : nat) :
  8 + Z.of_nat (length ch1) + Z.of_nat (length ch2) < 65536 ->
  (j = 6 \/ j = 7)%nat ->
  object_image baseaddr ch1 ch2 ch3 outbuf !! j = outbuf !! j.
Proof.
  intros Hsmall Hj.
  unfold object_image, channel_offsets, fill_channel, ch_offset,
    CH1_START_OFFSET.
  rewrite !u16_small by (try rewrite u16_small; lia).
  cbn [foldl fst snd lookup list_lookup default from_option id].
  assert (Z.of_nat j = 6 \/ Z.of_nat j = 7) as Hz by lia.
  rewrite memcpy_below by lia. rewrite put_word_le_other by lia.
  rewrite memcpy_below by lia. rewrite put_word_le_other by lia.
  rewrite memcpy_below by lia. rewrite put_word_le_other by lia.
  reflexivity.
Qed.

(** C9 (the code departs from the claim).  Channel 1 is the line [c],
    channels 2 and 3 are empty; the three finished streams are 01 FF, FF
    and FF, 12 bytes in all with the header.  When the block [malloc]
    returns is filled with AA, the image is
    08 00 0A 00 0B 00 AA AA 01 FF FF FF: the three address words are
    right, and the two bytes at offset 6 are the allocator's, not zero. *)
Theorem object_header_gap_not_cleared :
  let ch1 := snd (channel_bytes CH_BUF_SIZE "c") in
  let ch2 := snd (channel_bytes CH_BUF_SIZE "") in
  let ch3 := snd (channel_bytes CH_BUF_SIZE "") in
  let outbuf := replicate (Z.to_nat (totallen ch1 ch2 ch3)) 170 in
  ch1 = [1; 255] /\ ch2 = [255] /\ ch3 = [255]
  /\ totallen ch1 ch2 ch3 = 12
  /\ object_image 0 ch1 ch2 ch3 outbuf
     = [8; 0; 10; 0; 11; 0; 170; 170; 1; 255; 255; 255]
  /\ object_image 0 ch1 ch2 ch3 outbuf !! 6%nat <> Some 0.
Proof. vm_compute. repeat split. discriminate. Qed.

(** ** C10: rests and transposition *)

(** C10.  A rest compiled under any key shift [k]: its pitch is tone 0
    in the logical octave; the whole statement behaves exactly as it
    does without the key shift; it does not raise NOTE_OVERFLOW; and
    when it compiles without error, the octave byte is emitted exactly
    when [octave_last] differs from the logical [octave] and the low
    nibble of the header is 0. *)
Theorem rest_ignores_key_shift (c : MML_Compiler) (k : Z) :
  error c <> MML_ERR_NOTE_OVERFLOW ->
  let ck := set_key_shift k c in
  fst (note_pitch (chr "R") ck) = Some (0, octave c)
  /\ snd (compile_note (chr "R") ck)
     = set_key_shift k (snd (compile_note (chr "R") c))
  /\ error (snd (compile_note (chr "R") ck)) <> MML_ERR_NOTE_OVERFLOW
  /\ (error (snd (compile_note (chr "R") ck)) = MML_OK ->
      exists h L,
        out (snd (compile_note (chr "R") ck))
        = out c ++ (if octave_last c =? octave c then []
                    else [128 + octave c])
                ++ [h] ++ length_bytes c L
        /\ Z.land h 15 = 0).
Proof.
  intros He ck. split; [reflexivity|]. split.
  { subst ck. rewrite ks_compile_rest. reflexivity. }
  split.
  { destruct (rest_compile_rest ck) as [H | [H | [H | H]]];
      rewrite H; [exact He | discriminate ..]. }
  intros Hok.
  destruct (compile_note_emitted _ _ Hok)
    as (tone & octave0 & L & flag & tie & c1 & c2 & Hp & _ & Hout).
  change (toupper (chr "R")) with (chr "R") in Hp.
  rewrite note_pitch_rest in Hp. injection Hp as <- <- _.
  exists (make_note_header c 0 L tie), L.
  split; [exact Hout|].
  pose proof (make_note_header_fields c 0 L tie) as (_ & Hn & _).
  rewrite Hn. reflexivity.
Qed.

(** C10 on the rest of the line [r] under a key shift of 12. *)
Lemma rest_ignores_key_shift_witness :
  let c := snd (get (begin_line "r" 1 (mml_channel_init CH_BUF_SIZE))) in
  let ck := set_key_shift 12 c in
  fst (note_pitch (chr "R") ck) = Some (0, octave c)
  /\ snd (compile_note (chr "R") ck)
     = set_key_shift 12 (snd (compile_note (chr "R") c))
  /\ error (snd (compile_note (chr "R") ck)) <> MML_ERR_NOTE_OVERFLOW
  /\ (error (snd (compile_note (chr "R") ck)) = MML_OK ->
      exists h L,
        out (snd (compile_note (chr "R") ck))
        = out c ++ (if octave_last c =? octave c then []
                    else [128 + octave c])
                ++ [h] ++ length_bytes c L
        /\ Z.land h 15 = 0).
Proof.
  apply (rest_ignores_key_shift
           (snd (get (begin_line "r" 1 (mml_channel_init CH_BUF_SIZE)))) 12).
  simpl. discriminate.
Defined.

(** * Further properties *)

(** ** The emitter *)

(** X1.  [emit_word_le] writes both bytes or none.  With room for two
    bytes it appends the low byte, then the high byte, of the 16-bit
    value and leaves the error alone; otherwise the output is unchanged,
    even when one byte of room is left, and an error is pending
    afterwards ([MML_ERR_INTERNAL] if none was). *)
Theorem emit_word_le_all_or_nothing (v : Z) (c : MML_Compiler) :
  let c' := snd (emit_word_le v c) in
  (out_len c + 2 <= out_cap c
   /\ error c' = error c
   /\ exists lo hi,
        out c' = out c ++ [lo; hi]
        /\ 0 <= lo < 256 /\ 0 <= hi < 256
        /\ lo + 256 * hi = v mod 65536)
  \/ (out_cap c < out_len c + 2
      /\ out c' = out c
      /\ error c' <> MML_OK
      /\ (error c = MML_OK -> error c' = MML_ERR_INTERNAL)).
Proof.
  unfold emit_word_le. rewrite bind_eq. unfold ensure_space.
  destruct (out_len c + 2 >? out_cap c) eqn:E.
  - right. rewrite !bind_eq. cbn [modify ret fst snd].
    split; [lia|].
    pose proof (scan_only_set_error MML_ERR_INTERNAL
                  (set_error_col (col c) c)) as Hs.
    split; [rewrite (so_out _ _ Hs); reflexivity|].
    split; [apply set_error_sets; discriminate|].
    intros Hok. unfold set_error. cbn. rewrite Hok. cbn.
    destruct (_ =? _); reflexivity.
  - left. cbn [fst snd modify]. split; [lia|]. split; [reflexivity|].
    exists (Z.land (u16 v) 255), (Z.shiftr (u16 v) 8).
    rewrite u8_low_byte, u8_high_byte. split; [reflexivity|].
    rewrite land_255, shiftr_8. pose proof (u16_range v) as Hr.
    fold (u16 v).
    split; [apply Z.mod_pos_bound; lia|].
    split; [split; [apply Z.div_pos; lia
                   | apply Z.div_lt_upper_bound; lia]|].
    rewrite Z.add_comm. symmetry. apply Z.div_mod. lia.
Qed.

(** ** Numbers *)

Lemma forall_range (P : Z -> bool) (lo : Z) (n : nat) :
  forallb P (map (fun i => lo + Z.of_nat i) (seq 0 n)) = true ->
  forall v, lo <= v < lo + Z.of_nat n -> P v = true.
Proof.
  intros H v Hv. rewrite forallb_forall in H. apply H.
  apply in_map_iff. exists (Z.to_nat (v - lo)). split; [lia|].
  apply in_seq. lia.
Qed.

(** X2.  The sign-and-magnitude byte of [M%], [M], [S] and [U%].  For an
    operand in -127..127 [sign_byte] is a byte, its bit 7 is set exactly
    for a negative operand, and the operand is read back from it. *)
Theorem sign_byte_round_trip (v : Z) :
  -127 <= v <= 127 ->
  0 <= sign_byte v <= 255
  /\ u8 (sign_byte v) = sign_byte v
  /\ Z.testbit (sign_byte v) 7 = (v <? 0)
  /\ sign_magnitude_value (sign_byte v) = v.
Proof.
  intros Hv.
  pose (P := fun v =>
    (0 <=? sign_byte v) && (sign_byte v <=? 255)
    && (u8 (sign_byte v) =? sign_byte v)
    && Bool.eqb (Z.testbit (sign_byte v) 7) (v <? 0)
    && (sign_magnitude_value (sign_byte v) =? v)).
  assert (P v = true) as H.
  { apply (forall_range P (-127) 255); [vm_compute; reflexivity | lia]. }
  unfold P in H. repeat (apply andb_true_iff in H as [H ?]).
  repeat split; try lia. apply Bool.eqb_prop. assumption.
Qed.

(** The operand -5 of [U%-5]. *)
Lemma sign_byte_round_trip_witness :
  0 <= sign_byte (-5) <= 255
  /\ u8 (sign_byte (-5)) = sign_byte (-5)
  /\ Z.testbit (sign_byte (-5)) 7 = (-5 <? 0)
  /\ sign_magnitude_value (sign_byte (-5)) = -5.
Proof. apply (sign_byte_round_trip (-5)). lia. Defined.



Lemma chars_between_nil c i : chars_between c i i = [].
Proof. unfold chars_between. rewrite Nat.sub_diag. reflexivity. Qed.

Lemma chars_between_cons c i j :
  (i < j)%nat ->
  chars_between c i j = char_at (set_pos i c) :: chars_between c (S i) j.
Proof.
  intros H. unfold chars_between.
  replace (j - i)%nat with (S (j - S i)) by lia. reflexivity.
Qed.

Lemma chars_between_src c c' i j :
  src c' = src c -> chars_between c' i j = chars_between c i j.
Proof.
  intros H. unfold chars_between. apply map_ext. intros k.
  unfold char_at. cbn. rewrite H. reflexivity.
Qed.

Lemma chars_between_app c i j k :
  (i <= j <= k)%nat ->
  chars_between c i k = chars_between c i j ++ chars_between c j k.
Proof.
  intros H. unfold chars_between.
  replace (k - i)%nat with ((j - i) + (k - j))%nat by lia.
  rewrite seq_app, map_app. replace (i + (j - i))%nat with j by lia.
  reflexivity.
Qed.

Lemma char_at_here c : char_at (set_pos (pos c) c) = char_at c.
Proof. reflexivity. Qed.








Lemma parse_para_loop_range fuel :
  forall v c, 0 <= v <= UINT16_MAX ->
    0 <= fst (parse_para_loop fuel v c) <= UINT16_MAX.
Proof.
  induction fuel as [|fuel IH]; intros v c Hv; [exact Hv|].
  cbn [parse_para_loop].
  destruct (negb (isdigit (peek c))) eqn:E; [exact Hv|].
  rewrite bind_eq. apply IH.
  destruct (_ >=? UINT16_MAX) eqn:E1; [unfold UINT16_MAX; lia|].
  pose proof (u16_range (v * 10 + (peek c - chr "0"))).
  unfold UINT16_MAX in *. lia.
Qed.

(** X4.  What [parse_para] can return.  The value fits 16 bits; the flags
    are NOVALUE, PERCENT and one of PLUS and MINUS at most, never TIE;
    and NOVALUE comes with the value 0 and a next character that is not
    a digit. *)
Theorem parse_para_result (c : MML_Compiler) :
  let flag := fst (fst (parse_para c)) in
  let value := snd (fst (parse_para c)) in
  0 <= value <= 65535
  /\ Z.land flag (Z.lor PARA_F_NOVALUE
                    (Z.lor PARA_F_PERCENT (Z.lor PARA_F_PLUS PARA_F_MINUS)))
     = flag
  /\ (has_flag flag PARA_F_PLUS && has_flag flag PARA_F_MINUS = false)
  /\ has_flag flag PARA_F_TIE = false
  /\ (has_flag flag PARA_F_NOVALUE = true -> value = 0)
  /\ isdigit (peek (snd (parse_para c))) = false.
Proof.
  unfold parse_para. rewrite !bind_eq. cbn [gets fst snd].
  set (c1 := snd (skip_space c)).
  set (m1 := if peek c1 =? chr "%"
             then get;; skip_space;; ret PARA_F_PERCENT else ret 0).
  assert (fst (m1 c1) = 0 \/ fst (m1 c1) = PARA_F_PERCENT) as H1.
  { subst m1. destruct (peek c1 =? chr "%"); [right|left];
      rewrite ?bind_eq; reflexivity. }
  set (f1 := fst (m1 c1)) in *. set (c2 := snd (m1 c1)).
  set (m2 := if peek c2 =? chr "-"
             then get;; skip_space;; ret (Z.lor f1 PARA_F_MINUS)
             else if peek c2 =? chr "+"
                  then get;; skip_space;; ret (Z.lor f1 PARA_F_PLUS)
                  else ret f1).
  assert (fst (m2 c2) = f1 \/ fst (m2 c2) = Z.lor f1 PARA_F_MINUS
          \/ fst (m2 c2) = Z.lor f1 PARA_F_PLUS) as H2.
  { subst m2. destruct (peek c2 =? chr "-");
      [right; left; rewrite ?bind_eq; reflexivity|].
    destruct (peek c2 =? chr "+"); [right; right|left];
      rewrite ?bind_eq; reflexivity. }
  set (f2 := fst (m2 c2)) in *. set (c3 := snd (m2 c2)).
  clearbody c3 f2 f1. clear m2 c2 m1.
  destruct (isdigit (peek c3)) eqn:E; cbn [negb].
  - rewrite !bind_eq. cbn [gets ret fst snd].
    pose proof (parse_para_loop_range (remaining c3) 0 c3) as Hr.
    pose proof (parse_para_loop_stops (remaining c3) 0 c3 (Nat.le_refl _)).
    unfold UINT16_MAX in Hr.
    destruct H1 as [-> | ->]; destruct H2 as [-> | [-> | ->]];
      (split; [apply Hr; lia|]); (split; [reflexivity|]);
      (split; [reflexivity|]); (split; [reflexivity|]);
      (split; [discriminate | assumption]).
  - cbn [ret fst snd].
    destruct H1 as [-> | ->]; destruct H2 as [-> | [-> | ->]];
      (split; [lia|]); (split; [reflexivity|]);
      (split; [reflexivity|]); (split; [reflexivity|]);
      (split; [reflexivity | assumption]).
Qed.

(** ** Dots *)

Lemma apply_dots_loop_even (k : nat) :
  forall (len96 h : Z) (c : MML_Compiler),
    fst (apply_dots_loop k len96 (2 ^ Z.of_nat k * h) c)
      = Some (len96 + (2 ^ Z.of_nat k - 1) * h)
    /\ error_col (snd (apply_dots_loop k len96 (2 ^ Z.of_nat k * h) c))
       = error_col c + Z.of_nat k.
Proof.
  induction k as [|k IH]; intros len96 h c.
  - cbn. split; [f_equal|]; lia.
  - cbn [apply_dots_loop].
    assert (2 ^ Z.of_nat (S k) * h = 2 ^ Z.of_nat k * h * 2) as ->.
    { rewrite Nat2Z.inj_succ, Z.pow_succ_r by lia. ring. }
    rewrite Z.rem_mul by lia. cbn [Z.eqb negb].
    rewrite Z.quot_mul by lia. rewrite bind_eq. cbn [modify fst snd].
    destruct (IH (len96 + 2 ^ Z.of_nat k * h) h
                (set_error_col (error_col c + 1) c)) as [-> ->].
    cbn [error_col set_error_col]. split; [f_equal|].
    + rewrite Nat2Z.inj_succ, Z.pow_succ_r by lia. ring.
    + lia.
Qed.

(** X5.  The value of a dotted length.  On a base of [2^k * h] ticks, [k]
    dots are all playable and give [(2^(k+1) - 1) * h] ticks, provided
    that total lies in 1..32767; the diagnostic column moves by [k]. *)
Theorem apply_dots_value (k : nat) (h : Z) (c : MML_Compiler) :
  1 <= (2 ^ (Z.of_nat k + 1) - 1) * h <= 32767 ->
  fst (apply_dots (2 ^ Z.of_nat k * h) (Z.of_nat k) c)
    = Some ((2 ^ (Z.of_nat k + 1) - 1) * h)
  /\ error_col (snd (apply_dots (2 ^ Z.of_nat k * h) (Z.of_nat k) c))
     = error_col c + Z.of_nat k.
Proof.
  intros Hr. unfold apply_dots. rewrite bind_eq, Nat2Z.id.
  destruct (apply_dots_loop_even k (2 ^ Z.of_nat k * h) h c) as [H1 H2].
  rewrite H1.
  assert (2 ^ Z.of_nat k * h + (2 ^ Z.of_nat k - 1) * h
          = (2 ^ (Z.of_nat k + 1) - 1) * h) as ->.
  { rewrite Z.pow_add_r by lia. ring. }
  destruct (_ <=? 0) eqn:E1; [lia|].
  destruct (_ >? 32767) eqn:E2; [lia|].
  cbn [orb ret fst snd]. split; [reflexivity | exact H2].
Qed.

(** A dotted quarter note: 24 = 2^1 * 12 ticks and one dot, 36 ticks. *)
Lemma apply_dots_value_witness :
  fst (apply_dots (2 ^ Z.of_nat 1 * 12) (Z.of_nat 1)
         (mml_channel_init CH_BUF_SIZE))
    = Some ((2 ^ (Z.of_nat 1 + 1) - 1) * 12)
  /\ error_col (snd (apply_dots (2 ^ Z.of_nat 1 * 12) (Z.of_nat 1)
                       (mml_channel_init CH_BUF_SIZE)))
     = error_col (mml_channel_init CH_BUF_SIZE) + Z.of_nat 1.
Proof. apply (apply_dots_value 1 12). simpl. lia. Defined.

(** ** Finishing with an open loop *)

(** X6.  [mml_finish_channel] on a channel whose loops are not all closed
    appends nothing and never reports success: it returns CLOSE_NEST, or
    the error the last line left when there is one. *)
Theorem finish_with_open_loop (c : MML_Compiler) :
  nest_depth c <> 0 ->
  let r := mml_finish_channel c in
  fst r <> MML_OK
  /\ fst r = (if is_ok (error c) then MML_ERR_CLOSE_NEST else error c)
  /\ error (snd r) = fst r
  /\ out (snd r) = out c
  /\ nest_depth (snd r) = nest_depth c.
Proof.
  intros Hn. unfold mml_finish_channel. rewrite bind_eq.
  cbn [gets fst snd]. apply Z.eqb_neq in Hn. rewrite Hn. cbn [negb].
  rewrite bind_eq. cbn [gets fst snd].
  pose proof (scan_only_set_error MML_ERR_CLOSE_NEST c) as Hs.
  split; [apply set_error_sets; discriminate|].
  split.
  { unfold set_error. destruct (is_ok (error c)) eqn:E; [|reflexivity].
    cbn. destruct (error_col c =? NOERROR); reflexivity. }
  split; [reflexivity|].
  split; [apply (so_out _ _ Hs) | apply (so_nest _ _ Hs)].
Qed.

(** The channel after the line [[c]: one loop is open. *)
Lemma finish_with_open_loop_witness :
  let c := snd (mml_compile_line "[c" 1 (mml_channel_init CH_BUF_SIZE)) in
  let r := mml_finish_channel c in
  fst r <> MML_OK
  /\ fst r = (if is_ok (error c) then MML_ERR_CLOSE_NEST else error c)
  /\ error (snd r) = fst r
  /\ out (snd r) = out c
  /\ nest_depth (snd r) = nest_depth c.
Proof.
  apply (finish_with_open_loop
           (snd (mml_compile_line "[c" 1 (mml_channel_init CH_BUF_SIZE)))).
  vm_compute. discriminate.
Defined.

(** ** What the emitter leaves alone *)

#[local] Instance emit_only_preorder : PreOrder emit_only.
Proof.
  split.
  - intros c. constructor; reflexivity.
  - intros a b c [] []. constructor; congruence.
Qed.

Lemma emit_only_set_error e : frame emit_only (set_error e).
Proof.
  intros c. unfold set_error. destruct (is_ok (error c)); [|reflexivity].
  destruct (_ =? _); constructor; reflexivity.
Qed.

Lemma emit_only_ensure_space need : frame emit_only (ensure_space need).
Proof.
  intros c. unfold ensure_space. destruct (_ >? _); [|reflexivity].
  rewrite !bind_eq. cbn [modify ret fst snd].
  transitivity (set_error_col (col c) c); [constructor; reflexivity|].
  apply emit_only_set_error.
Qed.

Lemma emit_only_emit_byte v : frame emit_only (emit_byte v).
Proof.
  intros c. unfold emit_byte. rewrite bind_eq.
  pose proof (emit_only_ensure_space 1 c) as H.
  destruct (fst (ensure_space 1 c)); [|exact H].
  cbn [modify snd]. etransitivity; [exact H|]. constructor; reflexivity.
Qed.

Lemma emit_only_emit_word_le v : frame emit_only (emit_word_le v).
Proof.
  intros c. unfold emit_word_le. rewrite bind_eq.
  pose proof (emit_only_ensure_space 2 c) as H.
  destruct (fst (ensure_space 2 c)); [|exact H].
  cbn [modify snd]. etransitivity; [exact H|]. constructor; reflexivity.
Qed.

Lemma emit_byte_nest v c :
  nest_depth (snd (emit_byte v c)) = nest_depth c.
Proof. apply (eo_nest _ _ (emit_only_emit_byte v c)). Qed.

Lemma emit_word_le_nest v c :
  nest_depth (snd (emit_word_le v c)) = nest_depth c.
Proof. apply (eo_nest _ _ (emit_only_emit_word_le v c)). Qed.

(** ** The ranges of the channel state *)

#[local] Instance keeps_wf_preorder : PreOrder keeps_wf.
Proof.
  split.
  - intros c H. exact H.
  - intros a b c Hab Hbc H. apply Hbc, Hab, H.
Qed.

Lemma keeps_wf_same c c' :
  octave c' = octave c -> octave_last c' = octave_last c ->
  nest_depth c' = nest_depth c -> l_len96 c' = l_len96 c ->
  lp_len96 c' = lp_len96 c -> key_shift c' = key_shift c ->
  loops c' = loops c -> keeps_wf c c'.
Proof.
  intros H1 H2 H3 H4 H5 H6 H7 []. constructor; congruence.
Qed.

Lemma scan_only_keeps_wf c c' : scan_only c c' -> keeps_wf c c'.
Proof. intros []. apply keeps_wf_same; assumption. Qed.

Lemma frame_scan_keeps_wf {A} (m : M A) :
  frame scan_only m -> frame keeps_wf m.
Proof. intros H c. apply scan_only_keeps_wf, H. Qed.

Create HintDb wf discriminated.

Ltac wf_tac :=
  repeat (first [ solve [auto with wf]
                | apply frame_scan_keeps_wf; solve [auto with scan]
                | frame_step
                | apply frame_modify; intro; apply keeps_wf_same;
                  reflexivity ]).

Lemma wf_ensure_space need : frame keeps_wf (ensure_space need).
Proof.
  intros c. unfold ensure_space. destruct (_ >? _); [|reflexivity].
  revert c. wf_tac.
Qed.
#[local] Hint Resolve wf_ensure_space : wf.

Lemma wf_emit_byte v : frame keeps_wf (emit_byte v).
Proof. unfold emit_byte. wf_tac. Qed.

Lemma wf_emit_word_le v : frame keeps_wf (emit_word_le v).
Proof. unfold emit_word_le. wf_tac. Qed.
#[local] Hint Resolve wf_emit_byte wf_emit_word_le : wf.

Lemma wf_emit_octave n : frame keeps_wf (emit_octave n).
Proof.
  intros c Hc. unfold emit_octave.
  destruct (n <? 1) eqn:E1;
    [apply (frame_scan_keeps_wf _ (scan_only_set_error _)), Hc|].
  destruct (n >? 8) eqn:E2;
    [apply (frame_scan_keeps_wf _ (scan_only_set_error _)), Hc|].
  cbn [orb]. rewrite bind_eq. cbn [modify snd].
  pose proof (wf_emit_byte (128 + u8 n) c Hc) as [].
  constructor; cbn; try assumption. lia.
Qed.

Lemma wf_set_octave n : frame keeps_wf (set_octave n).
Proof.
  intros c Hc. unfold set_octave.
  destruct (n <? 1) eqn:E1;
    [apply (frame_scan_keeps_wf _ (scan_only_set_error _)), Hc|].
  destruct (n >? 8) eqn:E2;
    [apply (frame_scan_keeps_wf _ (scan_only_set_error _)), Hc|].
  cbn. destruct Hc. constructor; cbn; try assumption. lia.
Qed.

Lemma wf_discard_line fuel : frame keeps_wf (discard_line fuel).
Proof.
  induction fuel as [|fuel IH]; intros c; cbn [discard_line];
    destruct (_ && _); try reflexivity.
  apply (frame_bind keeps_wf); [|intros _; exact IH].
  apply frame_scan_keeps_wf, scan_only_get.
Qed.

Lemma wf_skip_comment fuel : frame keeps_wf (skip_comment fuel).
Proof. induction fuel as [|fuel IH]; cbn [skip_comment]; wf_tac. Qed.
#[local] Hint Resolve wf_emit_octave wf_set_octave wf_discard_line
  wf_skip_comment : wf.

Lemma wf_note_emit tone octave0 L tie :
  frame keeps_wf (note_emit tone octave0 L tie).
Proof. unfold note_emit. wf_tac. Qed.
#[local] Hint Resolve wf_note_emit : wf.

Lemma wf_compile_note note : frame keeps_wf (compile_note note).
Proof. unfold compile_note. wf_tac. Qed.

Lemma wf_expect_comma : frame keeps_wf expect_comma.
Proof. unfold expect_comma. wf_tac. Qed.

Lemma wf_func_range : frame keeps_wf func_range.
Proof. unfold func_range. wf_tac. Qed.

Lemma wf_parse_unsigned : frame keeps_wf parse_unsigned.
Proof. wf_tac. Qed.

Lemma wf_parse_signed : frame keeps_wf parse_signed.
Proof. wf_tac. Qed.
#[local] Hint Resolve wf_compile_note wf_expect_comma wf_func_range
  wf_parse_unsigned wf_parse_signed : wf.

Lemma wf_operand p err k :
  frame keeps_wf p -> frame keeps_wf err ->
  (forall v, frame keeps_wf (k v)) ->
  frame keeps_wf (operand p err k).
Proof. intros Hp He Hk. unfold operand. wf_tac. Qed.

Lemma wf_comma err k :
  frame keeps_wf err -> frame keeps_wf k -> frame keeps_wf (comma err k).
Proof. intros He Hk. unfold comma. wf_tac. Qed.

Lemma keeps_wf_poke i v c : keeps_wf c (poke i v c).
Proof. apply keeps_wf_same; reflexivity. Qed.

Lemma keeps_wf_nest_reset c : keeps_wf c (set_nest_depth 0 c).
Proof. intros []. constructor; cbn; try assumption. unfold MML_MAX_NEST. lia. Qed.

Lemma channel_wf_loop_store i ls c :
  loop_wf ls -> channel_wf c -> channel_wf (loop_store i ls c).
Proof.
  intros Hls []. unfold loop_store.
  destruct (0 <=? i); [|constructor; assumption].
  constructor; cbn; try assumption.
  - rewrite length_insert. assumption.
  - apply Forall_insert; assumption.
Qed.

Lemma loop_load_wf i c : channel_wf c -> loop_wf (loop_load i c).
Proof.
  intros []. unfold loop_load.
  assert (loop_wf zero_loop) as Hz by (repeat split; left; reflexivity).
  destruct (0 <=? i); [|exact Hz].
  destruct (loops c !! Z.to_nat i) as [ls|] eqn:E; [|exact Hz].
  simpl. exact (proj1 (Forall_lookup _ _) wf_loops0 _ _ E).
Qed.

Lemma keeps_wf_restore_saved i c : keeps_wf c (restore_saved i c).
Proof.
  intros Hc. pose proof (loop_load_wf i c Hc) as (Hl & Hp & Ho).
  unfold restore_saved.
  apply channel_wf_loop_store.
  { repeat split; cbn; try (left; reflexivity).
    destruct (saved_octave (loop_load i c) =? 0) eqn:E0; cbn [negb]; left;
      [apply Z.eqb_eq, E0 | reflexivity]. }
  destruct Hc.
  destruct (saved_l_len96 (loop_load i c) =? 0) eqn:E1;
    destruct (saved_lp_len96 (loop_load i c) =? 0) eqn:E2;
    destruct (saved_octave (loop_load i c) =? 0) eqn:E3;
    cbn [negb]; constructor; cbn; try assumption; lia.
Qed.

Lemma wf_command_J : frame keeps_wf command_J.
Proof.
  unfold command_J. wf_tac.
  apply frame_modify. intro. apply keeps_wf_nest_reset.
Qed.

Lemma wf_command_X : frame keeps_wf command_X.
Proof.
  unfold command_X. wf_tac.
  apply frame_modify. intro. apply keeps_wf_nest_reset.
Qed.

Lemma wf_command_L : frame keeps_wf command_L.
Proof.
  intros c Hc. unfold command_L. rewrite bind_eq.
  pose proof (scan_only_parse_length_96 c) as Hs.
  pose proof (scan_only_keeps_wf _ _ Hs Hc) as Hc1.
  destruct (fst (parse_length_96 c)) as [[len96 flag]|] eqn:E;
    [|exact Hc1].
  apply parse_length_96_pos in E; [|apply Hc].
  revert Hc1. generalize (snd (parse_length_96 c)). intros c1 Hc1.
  destruct (has_flag flag PARA_F_NOVALUE); [apply wf_func_range, Hc1|].
  destruct (has_flag flag PARA_F_MINUS); [apply wf_func_range, Hc1|].
  destruct (len96 <? 0) eqn:E1; [apply wf_func_range, Hc1|].
  destruct (len96 >? 255) eqn:E2; [apply wf_func_range, Hc1|].
  cbn [orb]. rewrite bind_eq. apply wf_emit_byte.
  destruct Hc1.
  destruct (negb _); rewrite bind_eq; apply wf_emit_byte;
    constructor; cbn; try assumption; lia.
Qed.

Lemma wf_command_underscore : frame keeps_wf command_underscore.
Proof.
  intros c Hc. unfold command_underscore, operand. rewrite bind_eq.
  pose proof (scan_only_keeps_wf _ _ (scan_only_parse_signed c) Hc) as Hc1.
  destruct (fst (parse_signed c)) as [v|]; [|apply wf_func_range, Hc1].
  destruct (v <? -12) eqn:E1; [apply wf_func_range, Hc1|].
  destruct (v >? 12) eqn:E2; [apply wf_func_range, Hc1|].
  destruct Hc1. constructor; cbn; try assumption. lia.
Qed.

Lemma wf_command_open : frame keeps_wf command_open.
Proof.
  intros c Hc. unfold command_open. rewrite bind_eq. cbn [gets fst snd].
  destruct (nest_depth c >=? MML_MAX_NEST) eqn:E.
  - rewrite bind_eq. cbn [modify snd]. apply keeps_wf_nest_reset.
    apply wf_func_range, Hc.
  - rewrite !bind_eq. cbn [modify snd].
    set (c2 := snd (emit_byte 0 (snd (emit_byte 240 c)))).
    assert (channel_wf c2) as Hc2 by (apply wf_emit_byte, wf_emit_byte, Hc).
    assert (nest_depth c2 = nest_depth c) as Hn.
    { subst c2.
      pose proof (emit_byte_nest 0 (snd (emit_byte 240 c))) as H1.
      pose proof (emit_byte_nest 240 c) as H2. congruence. }
    apply channel_wf_loop_store;
      [repeat split; left; reflexivity|].
    destruct Hc2, Hc. constructor; cbn; try assumption. lia.
Qed.

Lemma wf_command_colon : frame keeps_wf command_colon.
Proof.
  unfold command_colon. wf_tac.
  - apply frame_modify. intro. apply keeps_wf_nest_reset.
  - apply frame_modify. intro. apply keeps_wf_nest_reset.
  - apply frame_modify. intros c Hc.
    apply channel_wf_loop_store; [|exact Hc].
    destruct Hc. repeat split; cbn; right; rewrite ?u8_small by lia;
      try split; lia.
Qed.

Lemma wf_command_close : frame keeps_wf command_close.
Proof.
  intros c Hc. unfold command_close. rewrite bind_eq. cbn [gets fst snd].
  destruct (nest_depth c <=? 0) eqn:E;
    [apply (frame_scan_keeps_wf _ (scan_only_set_error _)), Hc|].
  revert c Hc E.
  assert (forall nd, 0 < nd ->
            frame (fun c c' => channel_wf c -> nest_depth c = nd ->
                               channel_wf c')
              (operand parse_unsigned func_range (fun count =>
                 if (count <? 2) || (count >? 255) then func_range
                 else
                   ls <- gets (loop_load (nd - 1)) ;;
                   modify (poke (loop_start ls - 1) count) ;;
                   jump_pos <- gets out_len ;;
                   (if (loop_start ls - (jump_pos + 3) >=? -256)
                       && (loop_start ls - (jump_pos + 3) <=? -1) then
                      emit_byte 241 ;;
                      emit_byte
                        (u8 (Z.land (loop_start ls - (jump_pos + 3) + 1) 255))
                    else
                      emit_byte 242 ;;
                      emit_word_le (u16 (loop_start ls - (jump_pos + 3)))) ;;
                   (if negb (exit_mark ls =? LOOP_NOEXIT) then
                      modify (fun c =>
                        let jump_pos := out_len c in
                        let colon_pos := exit_mark ls - 3 in
                        let ex16 := u16 (jump_pos - (colon_pos + 3)) in
                        poke (colon_pos + 2) (u8 (Z.shiftr ex16 8))
                          (poke (colon_pos + 1) (u8 (Z.land ex16 255)) c))
                    else ret tt) ;;
                   modify (set_nest_depth (nd - 1)) ;;
                   modify (restore_saved (nd - 1))))) as H.
  2:{ intros c Hc E. apply (H (nest_depth c)); [lia | exact Hc | reflexivity]. }
  intros nd Hnd c Hc Hn. unfold operand. rewrite bind_eq.
  pose proof (scan_only_parse_unsigned c) as Hs.
  pose proof (scan_only_keeps_wf _ _ Hs Hc) as Hc1.
  pose proof (so_nest _ _ Hs) as Hn1. rewrite Hn in Hn1.
  revert Hc1 Hn1. generalize (snd (parse_unsigned c)). intros c1 Hc1 Hn1.
  destruct (fst (parse_unsigned c)) as [count|]; [|apply wf_func_range, Hc1].
  destruct (_ || _); [apply wf_func_range, Hc1|].
  rewrite !bind_eq. cbn [gets modify fst snd].
  apply keeps_wf_restore_saved.
  set (c2 := poke _ count c1).
  assert (channel_wf c2 /\ nest_depth c2 = nd) as [Hc2 Hn2]
    by (split; [apply keeps_wf_poke, Hc1 | exact Hn1]).
  clearbody c2.
  set (mj := if _ && _ then _ else _).
  assert (channel_wf (snd (mj c2)) /\ nest_depth (snd (mj c2)) = nd)
    as [Hc3 Hn3].
  { subst mj. destruct (_ && _); rewrite bind_eq; cbn [fst snd].
    - split; [apply wf_emit_byte, wf_emit_byte, Hc2|].
      rewrite !emit_byte_nest. exact Hn2.
    - split; [apply wf_emit_word_le, wf_emit_byte, Hc2|].
      rewrite emit_word_le_nest, emit_byte_nest. exact Hn2. }
  revert Hc3 Hn3. generalize (snd (mj c2)). intros c3 Hc3 Hn3.
  set (mp := if negb _ then _ else _).
  assert (channel_wf (snd (mp c3)) /\ nest_depth (snd (mp c3)) = nd)
    as [Hc4 Hn4].
  { subst mp. destruct (negb _); cbn [modify ret snd];
      [|split; assumption].
    split; [apply keeps_wf_poke, keeps_wf_poke, Hc3 | exact Hn3]. }
  destruct Hc4. constructor; cbn; try assumption.
  unfold MML_MAX_NEST in *. lia.
Qed.
#[local] Hint Resolve wf_command_J wf_command_X wf_command_L
  wf_command_underscore wf_command_open wf_command_colon wf_command_close
  : wf.

Lemma wf_compile_command command : frame keeps_wf (compile_command command).
Proof.
  unfold compile_command.
  repeat match goal with
         | |- frame keeps_wf (if ?b then _ else _) => destruct b
         end.
  all: try solve [auto with wf].
  all: unfold command_O, command_gt, command_lt, command_V, command_lparen,
         command_rparen, command_I, command_M,
         command_N, command_P, command_Q, command_S, command_T, command_U,
         command_W, command_semicolon.
  all: repeat (first [ solve [auto with wf]
                     | apply frame_scan_keeps_wf; solve [auto with scan]
                     | apply wf_operand; [ | | intro ]
                     | apply wf_comma
                     | frame_step
                     | apply frame_modify; intro; apply keeps_wf_same;
                       reflexivity ]).
Qed.
#[local] Hint Resolve wf_compile_command : wf.

Lemma wf_compile_statement : frame keeps_wf compile_statement.
Proof. unfold compile_statement. wf_tac. Qed.

Lemma wf_compile_line_loop fuel : frame keeps_wf (compile_line_loop fuel).
Proof.
  induction fuel as [|fuel IH]; intros c; cbn [compile_line_loop];
    destruct (_ && _); try reflexivity.
  apply (frame_bind keeps_wf); [apply wf_compile_statement|].
  intros _. exact IH.
Qed.

Lemma wf_mml_compile_line s n : frame keeps_wf (mml_compile_line s n).
Proof.
  intros c Hc. unfold mml_compile_line. rewrite !bind_eq.
  cbn [modify gets fst snd]. apply wf_compile_line_loop.
  revert Hc. apply keeps_wf_same; reflexivity.
Qed.

Lemma wf_mml_finish_channel : frame keeps_wf mml_finish_channel.
Proof. unfold mml_finish_channel. wf_tac. Qed.

Lemma channel_wf_init out_size : channel_wf (mml_channel_init out_size).
Proof.
  assert (loop_wf zero_loop) as Hz by (repeat split; left; reflexivity).
  constructor; cbn; unfold MML_MAX_NEST; try lia; try reflexivity.
  repeat (constructor; [exact Hz|]). constructor.
Qed.

Lemma channel_wf_after out_size lines :
  channel_wf (channel_after out_size lines).
Proof.
  unfold channel_after. generalize (channel_wf_init out_size).
  generalize (mml_channel_init out_size). 
  induction lines as [|l lines IH]; intros c Hc; [exact Hc|].
  cbn [foldl]. apply IH. apply wf_mml_compile_line, Hc.
Qed.

(** X7.  The ranges of the channel state.  After [mml_channel_init], any
    number of compiled lines, and also after the finish, the octaves are
    in 1..8, the nest depth in 0..4, both default lengths in 1..255 and
    the key shift in -12..12, whatever the lines contain and whichever
    errors they raise. *)
Theorem channel_state_ranges (out_size : Z) (lines : list (string * Z)) :
  let c := channel_after out_size lines in
  let in_range c :=
    1 <= octave c <= 8 /\ 1 <= octave_last c <= 8
    /\ 0 <= nest_depth c <= 4
    /\ 1 <= l_len96 c <= 255 /\ 1 <= lp_len96 c <= 255
    /\ -12 <= key_shift c <= 12 in
  in_range c /\ in_range (snd (mml_finish_channel c)).
Proof.
  intros c in_range.
  assert (forall c, channel_wf c -> in_range c) as H.
  { intros c0 []. subst in_range. cbn. unfold MML_MAX_NEST in *. tauto. }
  pose proof (channel_wf_after out_size lines) as Hc. fold c in Hc.
  split; apply H; [exact Hc | apply wf_mml_finish_channel, Hc].
Qed.

(** ** The output buffer *)

#[local] Instance grows_preorder : PreOrder grows.
Proof.
  split.
  - intros c. unfold grows. auto.
  - intros a b c (H1 & H2 & H3) (H4 & H5 & H6). unfold grows.
    split; [congruence|]. split; [lia|]. intros H. apply H6, H3, H.
Qed.

Lemma grows_same c c' :
  out c' = out c -> out_cap c' = out_cap c -> grows c c'.
Proof.
  intros H1 H2. unfold grows, out_len. rewrite H1, H2. auto.
Qed.

Lemma scan_only_grows c c' : scan_only c c' -> grows c c'.
Proof. intros []. apply grows_same; assumption. Qed.

Lemma frame_scan_grows {A} (m : M A) : frame scan_only m -> frame grows m.
Proof. intros H c. apply scan_only_grows, H. Qed.

Create HintDb grow discriminated.

Ltac grow_tac :=
  repeat (first [ solve [auto with grow]
                | apply frame_scan_grows; solve [auto with scan]
                | frame_step
                | apply frame_modify; intro; apply grows_same; reflexivity ]).

Lemma grows_emit_byte v : frame grows (emit_byte v).
Proof.
  intros c. unfold emit_byte, ensure_space. rewrite bind_eq.
  destruct (out_len c + 1 >? out_cap c) eqn:E.
  - rewrite !bind_eq. cbn [modify ret fst snd].
    apply scan_only_grows.
    transitivity (set_error_col (col c) c); [apply scan_only_set_error_col|].
    apply scan_only_set_error.
  - cbn [fst snd modify]. unfold grows, out_len. cbn.
    rewrite length_app. cbn. unfold out_len in E. split; [reflexivity|].
    split; lia.
Qed.

Lemma grows_emit_word_le v : frame grows (emit_word_le v).
Proof.
  intros c. unfold emit_word_le, ensure_space. rewrite bind_eq.
  destruct (out_len c + 2 >? out_cap c) eqn:E.
  - rewrite !bind_eq. cbn [modify ret fst snd].
    apply scan_only_grows.
    transitivity (set_error_col (col c) c); [apply scan_only_set_error_col|].
    apply scan_only_set_error.
  - cbn [fst snd modify]. unfold grows, out_len. cbn.
    rewrite length_app. cbn. unfold out_len in E. split; [reflexivity|].
    split; lia.
Qed.
#[local] Hint Resolve grows_emit_byte grows_emit_word_le : grow.

Lemma grows_poke i v c : grows c (poke i v c).
Proof.
  unfold grows, poke, out_len. cbn. rewrite length_store_byte. auto.
Qed.

Lemma grows_loop_store i ls c : grows c (loop_store i ls c).
Proof. unfold loop_store. destruct (0 <=? i); apply grows_same; reflexivity. Qed.

Lemma grows_restore_saved i c : grows c (restore_saved i c).
Proof.
  unfold restore_saved.
  repeat match goal with
         | |- context [if ?b then _ else _] => destruct b
         end;
    (etransitivity; [|apply grows_loop_store]); apply grows_same; reflexivity.
Qed.

Lemma grows_discard_line fuel : frame grows (discard_line fuel).
Proof.
  induction fuel as [|fuel IH]; intros c; cbn [discard_line];
    destruct (_ && _); try reflexivity.
  apply (frame_bind grows); [|intros _; exact IH].
  apply frame_scan_grows, scan_only_get.
Qed.

Lemma grows_skip_comment fuel : frame grows (skip_comment fuel).
Proof. induction fuel as [|fuel IH]; cbn [skip_comment]; grow_tac. Qed.
#[local] Hint Resolve grows_discard_line grows_skip_comment : grow.

Lemma grows_emit_octave n : frame grows (emit_octave n).
Proof. unfold emit_octave. grow_tac. Qed.

Lemma grows_set_octave n : frame grows (set_octave n).
Proof. unfold set_octave. grow_tac. Qed.
#[local] Hint Resolve grows_emit_octave grows_set_octave : grow.

Lemma grows_note_emit tone octave0 L tie :
  frame grows (note_emit tone octave0 L tie).
Proof. unfold note_emit. grow_tac. Qed.
#[local] Hint Resolve grows_note_emit : grow.

Lemma grows_compile_note note : frame grows (compile_note note).
Proof. unfold compile_note. grow_tac. Qed.

Lemma grows_expect_comma : frame grows expect_comma.
Proof. unfold expect_comma. grow_tac. Qed.

Lemma grows_func_range : frame grows func_range.
Proof. unfold func_range. grow_tac. Qed.

Lemma grows_parse_unsigned : frame grows parse_unsigned.
Proof. grow_tac. Qed.

Lemma grows_parse_signed : frame grows parse_signed.
Proof. grow_tac. Qed.
#[local] Hint Resolve grows_compile_note grows_expect_comma grows_func_range
  grows_parse_unsigned grows_parse_signed : grow.

Lemma grows_operand p err k :
  frame grows p -> frame grows err -> (forall v, frame grows (k v)) ->
  frame grows (operand p err k).
Proof. intros Hp He Hk. unfold operand. grow_tac. Qed.

Lemma grows_comma err k :
  frame grows err -> frame grows k -> frame grows (comma err k).
Proof. intros He Hk. unfold comma. grow_tac. Qed.

Lemma grows_compile_command command : frame grows (compile_command command).
Proof.
  unfold compile_command.
  repeat match goal with
         | |- frame grows (if ?b then _ else _) => destruct b
         end.
  all: unfold command_O, command_gt, command_lt, command_V, command_lparen,
         command_rparen, command_I, command_J, command_L, command_M,
         command_N, command_P, command_Q, command_S, command_T, command_U,
         command_W, command_X, command_underscore, command_open,
         command_close, command_colon, command_semicolon.
  all: repeat (first [ solve [auto with grow]
                     | apply frame_scan_grows; solve [auto with scan]
                     | apply grows_operand; [ | | intro ]
                     | apply grows_comma
                     | frame_step
                     | apply frame_modify; intro;
                       first [ apply grows_same; reflexivity
                             | apply grows_poke
                             | apply grows_restore_saved
                             | etransitivity;
                               [ | apply grows_loop_store ];
                               apply grows_same; reflexivity
                             | etransitivity;
                               [ apply grows_poke | apply grows_poke ] ] ]).
Qed.
#[local] Hint Resolve grows_compile_command : grow.

Lemma grows_compile_statement : frame grows compile_statement.
Proof. unfold compile_statement. grow_tac. Qed.

Lemma grows_compile_line_loop fuel : frame grows (compile_line_loop fuel).
Proof.
  induction fuel as [|fuel IH]; intros c; cbn [compile_line_loop];
    destruct (_ && _); try reflexivity.
  apply (frame_bind grows); [apply grows_compile_statement|].
  intros _. exact IH.
Qed.

Lemma grows_mml_compile_line s n : frame grows (mml_compile_line s n).
Proof.
  intros c. unfold mml_compile_line. rewrite !bind_eq.
  cbn [modify gets fst snd].
  transitivity (begin_line s n c); [apply grows_same; reflexivity|].
  apply grows_compile_line_loop.
Qed.

Lemma grows_mml_finish_channel : frame grows mml_finish_channel.
Proof. unfold mml_finish_channel. grow_tac. Qed.

Lemma grows_channel_after out_size lines :
  grows (mml_channel_init out_size) (channel_after out_size lines).
Proof.
  unfold channel_after.
  assert (forall c0 c, grows c0 c ->
            grows c0 (foldl (fun c l =>
                        snd (mml_compile_line (fst l) (snd l) c)) c lines))
    as H.
  { induction lines as [|l lines IH]; intros c0 c Hc; [exact Hc|].
    cbn [foldl]. apply IH. etransitivity; [exact Hc|].
    apply grows_mml_compile_line. }
  apply H. reflexivity.
Qed.

(** X8.  The output never leaves its buffer.  For a buffer of [out_size]
    bytes, after any lines and also after the finish, [out_len] is at
    most [out_size]; and neither a line nor the finish ever takes a byte
    back. *)
Theorem output_within_capacity (out_size : Z) (lines : list (string * Z)) :
  0 <= out_size ->
  let c := channel_after out_size lines in
  out_cap c = out_size
  /\ 0 <= out_len c <= out_size
  /\ out_len c <= out_len (snd (mml_finish_channel c)) <= out_size
  /\ (forall s n, out_len c <= out_len (snd (mml_compile_line s n c))).
Proof.
  intros Hs c.
  destruct (grows_channel_after out_size lines) as (H1 & H2 & H3).
  fold c in H1, H2, H3.
  change (out_cap (mml_channel_init out_size)) with out_size in H1, H3.
  change (out_len (mml_channel_init out_size)) with 0 in H3.
  specialize (H3 Hs). rewrite H1 in H3.
  destruct (grows_mml_finish_channel c) as (H4 & H5 & H6).
  rewrite H1 in H4, H6. rewrite H4 in H6. specialize (H6 H3).
  split; [exact H1|]. unfold out_len in *.
  split; [lia|]. split; [lia|].
  intros s n. destruct (grows_mml_compile_line s n c) as (_ & H & _). lia.
Qed.

(** A 16-byte buffer and two lines. *)
Lemma output_within_capacity_witness :
  let c := channel_after 16 [("L8c"%string, 1); ("[cde]4"%string, 2)] in
  out_cap c = 16
  /\ 0 <= out_len c <= 16
  /\ out_len c <= out_len (snd (mml_finish_channel c)) <= 16
  /\ (forall s n, out_len c <= out_len (snd (mml_compile_line s n c))).
Proof. apply (output_within_capacity 16). lia. Defined.

(** ** Notes: transposition and the octave byte *)

Lemma get_set_error_col v c :
  get (set_error_col v c) = (fst (get c), set_error_col v (snd (get c))).
Proof.
  unfold get, char_at. cbn.
  destruct (len c <=? pos c)%nat; [reflexivity|].
  destruct (_ =? _); reflexivity.
Qed.

Lemma skip_space_loop_set_error_col fuel :
  forall v c,
    skip_space_loop fuel (set_error_col v c)
    = (tt, set_error_col v (snd (skip_space_loop fuel c))).
Proof.
  induction fuel as [|fuel IH]; intros v c; [reflexivity|].
  cbn [skip_space_loop].
  change (peek (set_error_col v c)) with (peek c).
  destruct (is_blank (peek c)); [|reflexivity].
  rewrite !bind_eq, get_set_error_col. cbn [fst snd]. apply IH.
Qed.

Lemma skip_space_set_error_col v c :
  skip_space (set_error_col v c)
  = (tt, set_error_col v (snd (skip_space c))).
Proof. apply skip_space_loop_set_error_col. Qed.

(** X9.  Transposition is exact.  For a note letter under a key shift in
    -12..12, the tone and octave [note_pitch] returns name the pitch that
    lies [key_shift] semitones from the written one: counted in
    semitones, [12 * octave + tone] moved by exactly [key_shift], with
    the tone kept in 1..12; the octave is in 1..8 whenever a shift was
    applied. *)
Theorem note_pitch_transposes (ch : Z) (c : MML_Compiler)
    (tone octave0 : Z) :
  ch <> chr "R" ->
  -12 <= key_shift c <= 12 ->
  fst (note_pitch ch c) = Some (tone, octave0) ->
  let a := peek (snd (skip_space c)) in
  12 * octave0 + tone
    = 12 * octave c + accidental_tone ch a + key_shift c
  /\ 1 <= tone <= 12
  /\ 1 <= accidental_tone ch a <= 12
  /\ (key_shift c = 0 -> octave0 = octave c)
  /\ (key_shift c <> 0 -> 1 <= octave0 <= 8).
Proof.
  intros HR Hk. unfold note_pitch. rewrite !bind_eq. cbn [gets modify fst snd].
  apply Z.eqb_neq in HR. rewrite HR.
  destruct (notename_to_tonenum ch <? 0) eqn:En;
    [rewrite bind_eq; cbn; discriminate|].
  rewrite !bind_eq. cbn [gets fst snd].
  rewrite skip_space_set_error_col. cbn [fst snd].
  change (peek (set_error_col (col c) (snd (skip_space c))))
    with (peek (snd (skip_space c))).
  set (c2 := snd (skip_space c)).
  set (c2' := set_error_col (col c) c2).
  set (acc := if (peek c2 =? chr "#") || (peek c2 =? chr "+")
              then get;; ret (notename_to_tonenum ch + 1)
              else if peek c2 =? chr "-"
                   then get;; ret (notename_to_tonenum ch - 1)
                   else ret (notename_to_tonenum ch)).
  assert (scan_only c (snd (acc c2'))) as Hs.
  { transitivity c2; [apply scan_only_skip_space|].
    transitivity c2'; [apply scan_only_set_error_col|].
    subst acc. destruct ((peek c2 =? chr "#") || (peek c2 =? chr "+")).
    - rewrite bind_eq. cbn [fst snd ret]. apply scan_only_get.
    - destruct (peek c2 =? chr "-"); [|reflexivity].
      rewrite bind_eq. cbn [fst snd ret]. apply scan_only_get. }
  assert ((if (if fst (acc c2') >? 12 then 12 else fst (acc c2')) <? 1
           then 1
           else if fst (acc c2') >? 12 then 12 else fst (acc c2'))
          = accidental_tone ch (peek c2)) as Ht.
  { unfold accidental_tone. subst acc.
    destruct ((peek c2 =? chr "#") || (peek c2 =? chr "+")).
    - rewrite bind_eq. reflexivity.
    - destruct (peek c2 =? chr "-"); [rewrite bind_eq|]; reflexivity. }
  rewrite (so_key_shift _ _ Hs). rewrite !Ht.
  assert (1 <= accidental_tone ch (peek c2) <= 12) as Hr.
  { rewrite <- Ht. destruct (fst (acc c2') >? 12) eqn:E1.
    - cbn. lia.
    - destruct (fst (acc c2') <? 1) eqn:E2; lia. }
  set (t := accidental_tone ch (peek c2)) in *.
  clearbody t. clear Ht. clearbody acc.
  destruct (key_shift c =? 0) eqn:E0; cbn [negb].
  - cbn [ret fst]. intros [= <- <-]. repeat split; lia.
  - destruct (t + key_shift c >? 12) eqn:E3; cbn [fst snd].
    + destruct (_ || _) eqn:E5; [rewrite bind_eq; cbn; discriminate|].
      cbn [ret fst]. intros [= <- <-]. repeat split; lia.
    + destruct (t + key_shift c <? 1) eqn:E4; cbn [fst snd].
      * destruct (_ || _) eqn:E5; [rewrite bind_eq; cbn; discriminate|].
        cbn [ret fst]. intros [= <- <-]. repeat split; lia.
      * destruct (_ || _) eqn:E5; [rewrite bind_eq; cbn; discriminate|].
        cbn [ret fst]. intros [= <- <-]. repeat split; lia.
Qed.

(** The note [b] of the line [_3 b] in octave 4: D of octave 5. *)
Lemma note_pitch_transposes_witness :
  let c := set_key_shift 3
             (snd (get (begin_line "b" 1 (mml_channel_init CH_BUF_SIZE)))) in
  let a := peek (snd (skip_space c)) in
  12 * 5 + 3 = 12 * octave c + accidental_tone (chr "B") a + key_shift c
  /\ 1 <= 3 <= 12
  /\ 1 <= accidental_tone (chr "B") a <= 12
  /\ (key_shift c = 0 -> 5 = octave c)
  /\ (key_shift c <> 0 -> 1 <= 5 <= 8).
Proof.
  apply (note_pitch_transposes (chr "B")
           (set_key_shift 3
              (snd (get (begin_line "b" 1 (mml_channel_init CH_BUF_SIZE)))))
           3 5).
  - discriminate.
  - simpl. lia.
  - reflexivity.
Defined.

#[local] Instance note_only_preorder : PreOrder note_only.
Proof.
  split.
  - intros c. constructor; reflexivity.
  - intros a b c [] []. constructor; congruence.
Qed.

Lemma emit_only_note_only c c' : emit_only c c' -> note_only c c'.
Proof. intros []. constructor; assumption. Qed.

Lemma note_only_emit_octave n : frame note_only (emit_octave n).
Proof.
  intros c. unfold emit_octave.
  destruct (_ || _);
    [apply emit_only_note_only, emit_only_set_error|].
  rewrite bind_eq. cbn [modify snd].
  transitivity (snd (emit_byte (128 + u8 n) c));
    [apply emit_only_note_only, emit_only_emit_byte|].
  constructor; reflexivity.
Qed.

(** The state after the emission part of a note. *)
Lemma note_emit_state tone octave0 L tie c :
  let c' := snd (note_emit tone octave0 L tie c) in
  note_only c c' /\ (error c' = MML_OK -> octave_last c' = octave0).
Proof.
  unfold note_emit. rewrite !bind_eq. cbn [gets fst snd].
  set (c1 := snd ((if negb (octave_last c =? octave0)
                   then emit_octave octave0 else ret tt) c)).
  assert (note_only c c1 /\ (error c1 = MML_OK -> octave_last c1 = octave0))
    as [H01 Ho1].
  { subst c1. destruct (octave_last c =? octave0) eqn:E; cbn [negb].
    - split; [reflexivity|]. intros _. apply Z.eqb_eq, E.
    - split; [apply note_only_emit_octave|].
      unfold emit_octave. destruct (_ || _).
      + intros H. exfalso. revert H. apply set_error_sets. discriminate.
      + rewrite bind_eq. intros _. reflexivity. }
  set (h := make_note_header c1 tone L tie).
  set (c2 := snd (emit_byte h c1)).
  pose proof (emit_only_emit_byte h c1) as H12. fold c2 in H12.
  pose proof (emit_byte_emitted h c1) as (_ & _ & He12 & _). fold c2 in He12.
  set (m3 := if negb (L =? l_len96 c2) && negb (L =? lp_len96 c2)
             then if L <=? 255 then emit_byte (u8 L) else emit_word_le (u16 L)
             else ret tt).
  assert (emit_only c2 (snd (m3 c2))
          /\ (error c2 <> MML_OK -> error (snd (m3 c2)) <> MML_OK))
    as [H23 He23].
  { subst m3. destruct (_ && _); [|split; [reflexivity | auto]].
    destruct (L <=? 255).
    - split; [apply emit_only_emit_byte | apply emit_byte_emitted].
    - split; [apply emit_only_emit_word_le | apply emit_word_le_emitted]. }
  split.
  - transitivity c1; [exact H01|]. apply emit_only_note_only.
    transitivity c2; assumption.
  - intros Hok.
    rewrite (eo_octave_last _ _ H23), (eo_octave_last _ _ H12).
    apply Ho1. destruct (error c1) eqn:E1; try reflexivity; exfalso;
      (apply He23; [apply He12; discriminate | exact Hok]).
Qed.

(** A note statement that compiles without error ran its three parts. *)
Lemma compile_note_success note c :
  error (snd (compile_note note c)) = MML_OK ->
  exists tone octave0 L flag tie c1 c2 c4,
    note_pitch (toupper note) c = (Some (tone, octave0), c1)
    /\ parse_length_96 (set_error_col NOERROR c1) = (Some (L, flag), c2)
    /\ scan_only c c4
    /\ snd (compile_note note c) = snd (note_emit tone octave0 L tie c4).
Proof.
  unfold compile_note. rewrite bind_eq.
  destruct (note_pitch (toupper note) c) as [p c1] eqn:Ep.
  assert (scan_only c c1) as H01.
  { change c1 with (snd (p, c1)). rewrite <- Ep. apply scan_only_note_pitch. }
  cbn [fst snd]. destruct p as [[tone octave0]|].
  2:{ simpl. intros H. exfalso. revert H.
      change c1 with (snd (@None (Z * Z), c1)). rewrite <- Ep.
      apply note_pitch_None. rewrite Ep. reflexivity. }
  rewrite !bind_eq. cbn [modify fst snd].
  destruct (parse_length_96 (set_error_col NOERROR c1)) as [r c2] eqn:Er.
  assert (scan_only c1 c2) as H12.
  { transitivity (set_error_col NOERROR c1); [apply scan_only_set_error_col|].
    change c2 with (snd (r, c2)). rewrite <- Er.
    apply scan_only_parse_length_96. }
  cbn [fst snd]. destruct r as [[L flag]|].
  2:{ simpl. intros H. exfalso. revert H.
      change c2 with (snd (@None (Z * Z), c2)). rewrite <- Er.
      apply parse_length_96_None. rewrite Er. reflexivity. }
  destruct (has_flag flag PARA_F_PLUS).
  { intros H. exfalso. revert H. apply set_error_sets. discriminate. }
  destruct (has_flag flag PARA_F_MINUS).
  { intros H. exfalso. revert H. apply set_error_sets. discriminate. }
  rewrite !bind_eq. cbn [gets fst snd].
  set (c3 := snd (skip_space c2)).
  set (mt := if peek c3 =? chr "&" then get ;; ret true else ret false).
  intros _.
  exists tone, octave0, L, flag, (fst (mt c3)), c1, c2, (snd (mt c3)).
  split; [reflexivity|]. split; [exact Er|]. split; [|reflexivity].
  transitivity c1; [exact H01|]. transitivity c2; [exact H12|].
  transitivity c3; [apply scan_only_skip_space|].
  subst mt. destruct (peek c3 =? chr "&"); [|reflexivity].
  rewrite bind_eq. simpl. apply scan_only_get.
Qed.

(** X10.  What a note leaves behind.  A note or rest statement that
    compiles without error changes nothing of the channel state except
    [octave_last], which becomes the octave the note was emitted in
    (the logical octave, moved by the transposition if any): the lazy
    octave byte is due again only when a later note sits in another
    octave. *)
Theorem note_state_effect (note : Z) (c : MML_Compiler) :
  error (snd (compile_note note c)) = MML_OK ->
  let c' := snd (compile_note note c) in
  exists tone octave0 c1,
    note_pitch (toupper note) c = (Some (tone, octave0), c1)
    /\ octave_last c' = octave0
    /\ octave c' = octave c
    /\ l_len96 c' = l_len96 c /\ lp_len96 c' = lp_len96 c
    /\ key_shift c' = key_shift c
    /\ nest_depth c' = nest_depth c /\ loops c' = loops c.
Proof.
  intros Hok c'.
  destruct (compile_note_success note c Hok)
    as (tone & octave0 & L & flag & tie & c1 & c2 & c4 & Hp & _ & Hs & He).
  subst c'. rewrite He in *.
  destruct (note_emit_state tone octave0 L tie c4) as [Hn Ho].
  exists tone, octave0, c1. split; [exact Hp|].
  split; [apply Ho, Hok|].
  destruct Hn, Hs. repeat split; congruence.
Qed.

(** The note of the line [c] after [O5]: the octave byte is emitted and
    [octave_last] follows. *)
Lemma note_state_effect_witness :
  let c := snd (get (begin_line "c" 2
             (snd (mml_compile_line "O5" 1 (mml_channel_init CH_BUF_SIZE))))) in
  let c' := snd (compile_note (chr "C") c) in
  exists tone octave0 c1,
    note_pitch (toupper (chr "C")) c = (Some (tone, octave0), c1)
    /\ octave_last c' = octave0
    /\ octave c' = octave c
    /\ l_len96 c' = l_len96 c /\ lp_len96 c' = lp_len96 c
    /\ key_shift c' = key_shift c
    /\ nest_depth c' = nest_depth c /\ loops c' = loops c.
Proof.
  apply (note_state_effect (chr "C")
    (snd (get (begin_line "c" 2
       (snd (mml_compile_line "O5" 1 (mml_channel_init CH_BUF_SIZE))))))).
  reflexivity.
Defined.

(** ** The [L] command *)

(** X11.  An [L] statement that compiles without error resolved a length
    in 1..255 with digits and no minus sign; it stores that length as the
    [L] default (the [L+] default under a plus sign) and emits F9 (F7)
    followed by the same length, so that a later note of this length
    takes a header without length bytes. *)
Theorem command_L_effect (c : MML_Compiler) :
  1 <= l_len96 c ->
  error (snd (command_L c)) = MML_OK ->
  let c' := snd (command_L c) in
  exists len96 flag c1,
    parse_length_96 c = (Some (len96, flag), c1)
    /\ 1 <= len96 <= 255
    /\ has_flag flag PARA_F_NOVALUE = false
    /\ has_flag flag PARA_F_MINUS = false
    /\ (if has_flag flag PARA_F_PLUS
        then lp_len96 c' = len96 /\ l_len96 c' = l_len96 c
             /\ out c' = out c ++ [247; len96]
        else l_len96 c' = len96 /\ lp_len96 c' = lp_len96 c
             /\ out c' = out c ++ [249; len96]
             /\ length_form c' len96 = 0
             /\ length_bytes c' len96 = []).
Proof.
  intros Hl. unfold command_L. rewrite bind_eq.
  destruct (parse_length_96 c) as [r c1] eqn:Er.
  assert (scan_only c c1) as Hs.
  { change c1 with (snd (r, c1)). rewrite <- Er.
    apply scan_only_parse_length_96. }
  cbn [fst snd]. destruct r as [[len96 flag]|].
  2:{ cbn. intros H. exfalso. revert H.
      change c1 with (snd (@None (Z * Z), c1)). rewrite <- Er.
      apply parse_length_96_None. rewrite Er. reflexivity. }
  assert (1 <= len96) as Hpos.
  { apply (parse_length_96_pos c len96 flag Hl). rewrite Er. reflexivity. }
  destruct (has_flag flag PARA_F_NOVALUE) eqn:E1.
  { intros H. exfalso. revert H. apply set_error_sets. discriminate. }
  destruct (has_flag flag PARA_F_MINUS) eqn:E2.
  { intros H. exfalso. revert H. apply set_error_sets. discriminate. }
  destruct (len96 <? 0) eqn:E3; cbn [orb].
  { intros H. exfalso. revert H. apply set_error_sets. discriminate. }
  destruct (len96 >? 255) eqn:E4.
  { intros H. exfalso. revert H. apply set_error_sets. discriminate. }
  rewrite bind_eq. intros Hok.
  exists len96, flag, c1. split; [reflexivity|]. split; [lia|].
  split; [assumption|]. split; [assumption|].
  destruct (has_flag flag PARA_F_PLUS); cbn [negb] in *;
    rewrite bind_eq in *; cbn [modify fst snd] in *.
  - set (c2 := set_lp_len96 len96 c1) in *.
    pose proof (emit_byte_emitted 247 c2) as (Hl3 & Hp3 & He3 & Ho3).
    pose proof (emit_byte_emitted (u8 len96) (snd (emit_byte 247 c2)))
      as (Hl4 & Hp4 & He4 & Ho4).
    assert (error (snd (emit_byte 247 c2)) = MML_OK) as Hok3.
    { destruct (error (snd (emit_byte 247 c2))) eqn:E; try reflexivity;
        exfalso; (apply He4; [discriminate | exact Hok]). }
    rewrite Hl4, Hp4, Hl3, Hp3, (Ho4 Hok), (Ho3 Hok3).
    rewrite !(u8_small len96) by lia. subst c2. cbn.
    rewrite (so_l _ _ Hs), (so_out _ _ Hs), <- app_assoc.
    repeat split.
  - set (c2 := set_l_len96 len96 c1) in *.
    pose proof (emit_byte_emitted 249 c2) as (Hl3 & Hp3 & He3 & Ho3).
    pose proof (emit_byte_emitted (u8 len96) (snd (emit_byte 249 c2)))
      as (Hl4 & Hp4 & He4 & Ho4).
    assert (error (snd (emit_byte 249 c2)) = MML_OK) as Hok3.
    { destruct (error (snd (emit_byte 249 c2))) eqn:E; try reflexivity;
        exfalso; (apply He4; [discriminate | exact Hok]). }
    unfold length_bytes, length_form.
    rewrite Hl4, Hp4, Hl3, Hp3, (Ho4 Hok), (Ho3 Hok3).
    rewrite !(u8_small len96) by lia. subst c2. cbn.
    rewrite (so_lp _ _ Hs), (so_out _ _ Hs), <- app_assoc, Z.eqb_refl.
    repeat split.
Qed.

(** The statement [L8] on a fresh channel. *)
Lemma command_L_effect_witness :
  let c := snd (get (begin_line "L8" 1 (mml_channel_init CH_BUF_SIZE))) in
  let c' := snd (command_L c) in
  exists len96 flag c1,
    parse_length_96 c = (Some (len96, flag), c1)
    /\ 1 <= len96 <= 255
    /\ has_flag flag PARA_F_NOVALUE = false
    /\ has_flag flag PARA_F_MINUS = false
    /\ (if has_flag flag PARA_F_PLUS
        then lp_len96 c' = len96 /\ l_len96 c' = l_len96 c
             /\ out c' = out c ++ [247; len96]
        else l_len96 c' = len96 /\ lp_len96 c' = lp_len96 c
             /\ out c' = out c ++ [249; len96]
             /\ length_form c' len96 = 0
             /\ length_bytes c' len96 = []).
Proof.
  apply (command_L_effect
           (snd (get (begin_line "L8" 1 (mml_channel_init CH_BUF_SIZE))))).
  - simpl. lia.
  - reflexivity.
Defined.


(** ** Loops *)

Lemma emit_byte_ok v c :
  error (snd (emit_byte v c)) = MML_OK ->
  snd (emit_byte v c) = set_out (out c ++ [u8 v]) c.
Proof.
  unfold emit_byte. rewrite bind_eq.
  destruct (fst (ensure_space 1 c)) eqn:E.
  - rewrite (ensure_space_true _ _ E). reflexivity.
  - destruct (ensure_space_false _ _ E) as [_ He]. simpl.
    intros H. contradiction.
Qed.

Lemma emit_word_le_ok v c :
  error (snd (emit_word_le v c)) = MML_OK ->
  snd (emit_word_le v c)
  = set_out (out c ++ [u8 (Z.land (u16 v) 255); u8 (Z.shiftr (u16 v) 8)]) c.
Proof.
  unfold emit_word_le. rewrite bind_eq.
  destruct (fst (ensure_space 2 c)) eqn:E.
  - rewrite (ensure_space_true _ _ E). reflexivity.
  - destruct (ensure_space_false _ _ E) as [_ He]. simpl.
    intros H. contradiction.
Qed.

Lemma emit_byte_error v c :
  error c <> MML_OK -> error (snd (emit_byte v c)) <> MML_OK.
Proof. apply emit_byte_emitted. Qed.

Lemma emit_word_le_error v c :
  error c <> MML_OK -> error (snd (emit_word_le v c)) <> MML_OK.
Proof. apply emit_word_le_emitted. Qed.

Lemma error_loop_store i ls c : error (loop_store i ls c) = error c.
Proof. unfold loop_store. destruct (0 <=? i); reflexivity. Qed.

Lemma error_restore_saved i c : error (restore_saved i c) = error c.
Proof.
  unfold restore_saved. rewrite error_loop_store.
  destruct (negb (saved_octave _ =? 0)), (negb (saved_lp_len96 _ =? 0)),
    (negb (saved_l_len96 _ =? 0)); reflexivity.
Qed.

Lemma not_ok_dec (e : MML_Error) : e = MML_OK \/ e <> MML_OK.
Proof. destruct e; (left; reflexivity) || (right; discriminate). Qed.

(** What a successful ['['] does. *)
Lemma command_open_ok c :
  error (snd (command_open c)) = MML_OK ->
  nest_depth c < MML_MAX_NEST
  /\ snd (command_open c)
     = loop_store (nest_depth c)
         (mkLoop (out_len c + 2) LOOP_NOEXIT 0 0 0 0)
         (set_nest_depth (nest_depth c + 1)
            (set_out (out c ++ [240; 0]) c)).
Proof.
  unfold command_open. rewrite bind_eq. cbn [gets fst snd].
  destruct (nest_depth c >=? MML_MAX_NEST) eqn:E.
  { rewrite bind_eq. cbn [modify snd]. intros H. exfalso. revert H.
    change (error (set_nest_depth 0 (snd (func_range c))))
      with (error (snd (func_range c))).
    apply set_error_sets. discriminate. }
  rewrite !bind_eq. cbn [modify fst snd]. rewrite error_loop_store.
  change (error (set_nest_depth ?n ?x)) with (error x).
  intros Hok.
  destruct (not_ok_dec (error (snd (emit_byte 240 c)))) as [H1|H1];
    [|exfalso; revert Hok; apply emit_byte_error, H1].
  rewrite (emit_byte_ok _ _ Hok), (emit_byte_ok _ _ H1).
  split; [lia|]. cbn. unfold out_len. cbn.
  rewrite <- !app_assoc, !length_app. cbn.
  replace (Z.of_nat (length (out c) + 2)) with (Z.of_nat (length (out c)) + 2)
    by lia.
  reflexivity.
Qed.


Lemma loop_load_scan i c c' : scan_only c c' -> loop_load i c' = loop_load i c.
Proof. intros H. unfold loop_load. rewrite (so_loops _ _ H). reflexivity. Qed.

(** What a successful [']'] does. *)
Lemma command_close_ok c :
  error (snd (command_close c)) = MML_OK ->
  exists count c1,
    parse_unsigned c = (Some count, c1)
    /\ 2 <= count <= 255 /\ 0 < nest_depth c
    /\ let nd := nest_depth c in
       let ls := loop_load (nd - 1) c in
       let c2 :=
         set_out (store_byte (loop_start ls - 1) count (out c)
                    ++ close_jump (loop_start ls - (out_len c + 3))) c1 in
       let c3 :=
         if negb (exit_mark ls =? LOOP_NOEXIT) then patch_exit ls c2
         else c2 in
       snd (command_close c)
       = restore_saved (nd - 1) (set_nest_depth (nd - 1) c3).
Proof.
  unfold command_close. rewrite bind_eq. cbn [gets fst snd].
  destruct (nest_depth c <=? 0) eqn:End.
  { intros H. exfalso. revert H. apply set_error_sets. discriminate. }
  unfold operand. rewrite bind_eq.
  destruct (parse_unsigned c) as [r c1] eqn:Ep.
  assert (scan_only c c1) as Hs.
  { change c1 with (snd (r, c1)). rewrite <- Ep. apply scan_only_parse_unsigned. }
  cbn [fst snd]. destruct r as [count|].
  2:{ intros H. exfalso. revert H. apply set_error_sets. discriminate. }
  destruct (count <? 2) eqn:E2; cbn [orb].
  { intros H. exfalso. revert H. apply set_error_sets. discriminate. }
  destruct (count >? 255) eqn:E255.
  { intros H. exfalso. revert H. apply set_error_sets. discriminate. }
  rewrite !bind_eq. cbn [gets modify fst snd].
  rewrite (loop_load_scan _ _ _ Hs).
  set (ls := loop_load (nest_depth c - 1) c).
  set (c1' := poke (loop_start ls - 1) count c1).
  assert (out_len c1' = out_len c) as Hlen.
  { subst c1'. unfold out_len, poke. cbn. rewrite length_store_byte.
    rewrite (so_out _ _ Hs). reflexivity. }
  rewrite Hlen.
  set (offset := loop_start ls - (out_len c + 3)).
  set (mj := if (offset >=? -256) && (offset <=? -1)
             then emit_byte 241 ;; emit_byte (u8 (Z.land (offset + 1) 255))
             else emit_byte 242 ;; emit_word_le (u16 offset)).
  set (mx := if negb (exit_mark ls =? LOOP_NOEXIT)
             then modify (fun c0 =>
               let jump_pos := out_len c0 in
               let colon_pos := exit_mark ls - 3 in
               let ex16 := u16 (jump_pos - (colon_pos + 3)) in
               poke (colon_pos + 2) (u8 (Z.shiftr ex16 8))
                 (poke (colon_pos + 1) (u8 (Z.land ex16 255)) c0))
             else ret tt).
  rewrite error_restore_saved.
  change (error (set_nest_depth ?n ?x)) with (error x).
  assert (forall x, snd (mx x)
            = if negb (exit_mark ls =? LOOP_NOEXIT) then patch_exit ls x
              else x) as Hmx.
  { intros x. subst mx. destruct (negb _); reflexivity. }
  assert (forall x, error (snd (mx x)) = error x) as Hex.
  { intros x. rewrite Hmx. destruct (negb _); reflexivity. }
  rewrite Hex, Hmx. intros Hok.
  exists count, c1. split; [reflexivity|]. split; [lia|]. split; [lia|].
  cbn zeta. do 2 f_equal.
  assert (snd (mj c1')
          = set_out (out c1' ++ close_jump offset) c1') as ->.
  { revert Hok. subst mj. unfold close_jump.
    destruct ((offset >=? -256) && (offset <=? -1));
      rewrite bind_eq; intros Hok.
    - destruct (not_ok_dec (error (snd (emit_byte 241 c1')))) as [H1|H1];
        [|exfalso; revert Hok; apply emit_byte_error, H1].
      rewrite (emit_byte_ok _ _ Hok), (emit_byte_ok _ _ H1). cbn.
      rewrite <- app_assoc. cbn.
      rewrite !(u8_small (Z.land (offset + 1) 255)); [reflexivity| |].
      all: change 255 with (Z.ones 8); rewrite Z.land_ones by lia;
        apply Z.mod_pos_bound; lia.
    - destruct (not_ok_dec (error (snd (emit_byte 242 c1')))) as [H1|H1];
        [|exfalso; revert Hok; apply emit_word_le_error, H1].
      rewrite (emit_word_le_ok _ _ Hok), (emit_byte_ok _ _ H1). cbn.
      rewrite <- app_assoc. cbn.
      assert (u16 (u16 offset) = u16 offset) as ->
        by (unfold u16; apply Z.mod_mod; lia).
      rewrite u8_low_byte, u8_high_byte. reflexivity. }
  subst c1'. unfold poke. rewrite <- (so_out _ _ Hs). reflexivity.
Qed.


Lemma restore_saved_fields i c :
  let ls := loop_load i c in
  let c' := restore_saved i c in
  out c' = out c /\ nest_depth c' = nest_depth c
  /\ l_len96 c' = (if saved_l_len96 ls =? 0 then l_len96 c
                   else saved_l_len96 ls)
  /\ lp_len96 c' = (if saved_lp_len96 ls =? 0 then lp_len96 c
                    else saved_lp_len96 ls)
  /\ octave c' = (if saved_octave ls =? 0 then octave c else saved_octave ls)
  /\ octave_last c' = (if saved_octave ls =? 0 then octave_last c
                       else saved_octave_last ls).
Proof.
  cbn zeta. unfold restore_saved, loop_store.
  destruct (saved_l_len96 _ =? 0), (saved_lp_len96 _ =? 0),
    (saved_octave _ =? 0), (0 <=? i); cbn; repeat split.
Qed.

Lemma store_byte_app_second (l r : list Z) (a b v : Z) (i : Z) :
  i = Z.of_nat (length l) + 1 ->
  store_byte i v (l ++ a :: b :: r) = l ++ a :: u8 v :: r.
Proof.
  intros ->. unfold store_byte.
  destruct (0 <=? Z.of_nat (length l) + 1) eqn:E;
    [|apply Z.leb_gt in E; lia].
  rewrite insert_app_r_alt by lia.
  replace (Z.to_nat (Z.of_nat (length l) + 1) - length l)%nat with 1%nat
    by lia.
  reflexivity.
Qed.

(** X12.  A loop without exit.  When a [[] compiled without error, the
    statements of the body appended the bytes [B] and left the loop
    stack alone, and the closing []] compiles without error, then the
    channel holds F0, the repeat count (2..255) written back into the
    placeholder, the body, and the jump back over body and jump
    (F1 and one byte up to 253 body bytes, F2 and a 16-bit offset
    beyond); the nesting depth is back to its value before the loop and
    the defaults are those at the end of the body. *)
Theorem loop_bytes (c0 c2 : MML_Compiler) (B : list Z) :
  0 <= nest_depth c0 ->
  length (loops c0) = Z.to_nat MML_MAX_NEST ->
  error (snd (command_open c0)) = MML_OK ->
  out c2 = out (snd (command_open c0)) ++ B ->
  nest_depth c2 = nest_depth (snd (command_open c0)) ->
  loops c2 = loops (snd (command_open c0)) ->
  error (snd (command_close c2)) = MML_OK ->
  let c' := snd (command_close c2) in
  exists count c3,
    parse_unsigned c2 = (Some count, c3) /\ 2 <= count <= 255
    /\ out c' = out c0 ++ [240; count] ++ B
                  ++ close_jump (- (Z.of_nat (length B) + 3))
    /\ nest_depth c' = nest_depth c0
    /\ l_len96 c' = l_len96 c2 /\ lp_len96 c' = lp_len96 c2
    /\ octave c' = octave c2 /\ octave_last c' = octave_last c2.
Proof.
  intros Hnd Hlen Hopen Hout Hnest Hloops Hclose c'.
  destruct (command_open_ok c0 Hopen) as [Hmax Hc1].
  rewrite Hc1 in Hout, Hnest, Hloops. unfold loop_store in Hout, Hnest, Hloops.
  destruct (0 <=? nest_depth c0) eqn:E0; [|lia].
  cbn in Hout, Hnest, Hloops.
  destruct (command_close_ok c2 Hclose)
    as (count & c3 & Hp & Hcount & Hpos & Hc').
  cbn zeta in Hc'.
  assert (scan_only c2 c3) as Hs.
  { change c3 with (snd (Some count, c3)). rewrite <- Hp.
    apply scan_only_parse_unsigned. }
  assert (loop_load (nest_depth c2 - 1) c2
          = mkLoop (out_len c0 + 2) LOOP_NOEXIT 0 0 0 0) as Hls.
  { unfold loop_load. rewrite Hnest, Hloops.
    replace (nest_depth c0 + 1 - 1) with (nest_depth c0) by lia.
    rewrite E0, list_lookup_insert_eq; [reflexivity|].
    rewrite Hlen. unfold MML_MAX_NEST in *. lia. }
  rewrite Hls in Hc'. cbn [loop_start exit_mark] in Hc'.
  change (negb (LOOP_NOEXIT =? LOOP_NOEXIT)) with false in Hc'.
  cbn match in Hc'.
  set (c4 := set_nest_depth _ _) in Hc'.
  pose proof (restore_saved_fields (nest_depth c2 - 1) c4)
    as (Ro & Rn & Rl & Rp & Rv & Rw).
  assert (loop_load (nest_depth c2 - 1) c4 = loop_load (nest_depth c2 - 1) c2)
    as Hls4.
  { unfold loop_load. subst c4. cbn. rewrite (so_loops _ _ Hs). reflexivity. }
  rewrite Hls4, Hls in Rl, Rp, Rv, Rw. cbn in Rl, Rp, Rv, Rw.
  exists count, c3. split; [exact Hp|]. split; [exact Hcount|].
  subst c'. rewrite Hc', Ro, Rn, Rl, Rp, Rv, Rw.
  subst c4. cbn.
  rewrite (so_l _ _ Hs), (so_lp _ _ Hs), (so_octave _ _ Hs),
    (so_octave_last _ _ Hs).
  split; [|split; [lia | repeat split]].
  rewrite Hout, <- !app_assoc. cbn [app].
  rewrite (store_byte_app_second (out c0) B 240 0 count)
    by (unfold out_len; lia).
  rewrite (u8_small count) by lia.
  rewrite <- !app_assoc. cbn [app]. do 4 f_equal.
  f_equal. unfold out_len. rewrite Hout, !length_app. cbn [length]. lia.
Qed.


(** The loop of the line [[cd]3]. *)
Lemma loop_bytes_witness :
  let c0 := snd (get (begin_line "[cd]3" 1 (mml_channel_init CH_BUF_SIZE))) in
  let c2 := snd (get (snd (compile_statement
                 (snd (compile_statement (snd (command_open c0))))))) in
  let c' := snd (command_close c2) in
  exists count c3,
    parse_unsigned c2 = (Some count, c3) /\ 2 <= count <= 255
    /\ out c' = out c0 ++ [240; count] ++ [1; 3]
                  ++ close_jump (- (Z.of_nat (length [1; 3]) + 3))
    /\ nest_depth c' = nest_depth c0
    /\ l_len96 c' = l_len96 c2 /\ lp_len96 c' = lp_len96 c2
    /\ octave c' = octave c2 /\ octave_last c' = octave_last c2.
Proof.
  apply (loop_bytes
    (snd (get (begin_line "[cd]3" 1 (mml_channel_init CH_BUF_SIZE))))
    (snd (get (snd (compile_statement (snd (compile_statement
       (snd (command_open
          (snd (get (begin_line "[cd]3" 1
                       (mml_channel_init CH_BUF_SIZE))))))))))))
    [1; 3]).
  - simpl. lia.
  - reflexivity.
  - reflexivity.
  - reflexivity.
  - reflexivity.
  - reflexivity.
  - reflexivity.
Defined.


(** What a successful [':'] does. *)
Lemma command_colon_ok c :
  error (snd (command_colon c)) = MML_OK ->
  0 < nest_depth c
  /\ exit_mark (loop_load (nest_depth c - 1) c) = LOOP_NOEXIT
  /\ snd (command_colon c)
     = loop_store (nest_depth c - 1)
         (mkLoop (loop_start (loop_load (nest_depth c - 1) c))
            (out_len c + 3) (l_len96 c) (lp_len96 c)
            (u8 (octave c)) (u8 (octave_last c)))
         (set_out (out c ++ [243; 0; 0]) c).
Proof.
  unfold command_colon. rewrite bind_eq. cbn [gets fst snd].
  destruct (nest_depth c <=? 0) eqn:End.
  { rewrite bind_eq. cbn [modify snd]. intros H. exfalso. revert H.
    change (error (set_nest_depth 0 ?x)) with (error x).
    apply set_error_sets. discriminate. }
  rewrite bind_eq. cbn [gets fst snd].
  destruct (exit_mark (loop_load (nest_depth c - 1) c) =? LOOP_NOEXIT) eqn:Ex;
    cbn [negb].
  2:{ rewrite bind_eq. cbn [modify snd]. intros H. exfalso. revert H.
      change (error (set_nest_depth 0 ?x)) with (error x).
      apply set_error_sets. discriminate. }
  rewrite !bind_eq. cbn [modify fst snd]. rewrite error_loop_store.
  intros Hok.
  destruct (not_ok_dec (error (snd (emit_byte 243 c)))) as [H1|H1];
    [|exfalso; revert Hok; apply emit_word_le_error, H1].
  rewrite (emit_word_le_ok _ _ Hok), (emit_byte_ok _ _ H1).
  split; [lia|]. split; [apply Z.eqb_eq, Ex|].
  cbn. unfold out_len. cbn. rewrite <- !app_assoc, !length_app. cbn.
  replace (Z.of_nat (length (out c) + 3)) with (Z.of_nat (length (out c)) + 3)
    by lia.
  reflexivity.
Qed.

Lemma store_byte_app_third (l r : list Z) (a b d v : Z) (i : Z) :
  i = Z.of_nat (length l) + 2 ->
  store_byte i v (l ++ a :: b :: d :: r) = l ++ a :: b :: u8 v :: r.
Proof.
  intros ->. unfold store_byte.
  destruct (0 <=? Z.of_nat (length l) + 2) eqn:E;
    [|apply Z.leb_gt in E; lia].
  rewrite insert_app_r_alt by lia.
  replace (Z.to_nat (Z.of_nat (length l) + 2) - length l)%nat with 2%nat
    by lia.
  reflexivity.
Qed.

Lemma loop_load_store_same i ls c :
  0 <= i -> (Z.to_nat i < length (loops c))%nat ->
  loop_load i (loop_store i ls c) = ls.
Proof.
  intros Hi Hlt. unfold loop_load, loop_store.
  destruct (0 <=? i) eqn:E; [|apply Z.leb_gt in E; lia].
  cbn [loops set_loops]. rewrite list_lookup_insert_eq by exact Hlt.
  reflexivity.
Qed.

Lemma loop_load_in_range i c :
  0 <= i -> loop_start (loop_load i c) <> 0 ->
  (Z.to_nat i < length (loops c))%nat.
Proof.
  intros Hi. unfold loop_load.
  destruct (0 <=? i) eqn:E; [|apply Z.leb_gt in E; lia].
  destruct (loops c !! Z.to_nat i) eqn:El.
  - intros _. apply lookup_lt_Some in El. exact El.
  - cbn. intros H. contradiction.
Qed.

(** The state after a loop with an exit, [[ A : B ]n]. *)
Lemma loop_exit_state (c0 c2 c4 : MML_Compiler) (A B : list Z) :
  0 <= nest_depth c0 ->
  length (loops c0) = Z.to_nat MML_MAX_NEST ->
  error (snd (command_open c0)) = MML_OK ->
  out c2 = out (snd (command_open c0)) ++ A ->
  nest_depth c2 = nest_depth (snd (command_open c0)) ->
  loop_load (nest_depth c0) c2
  = loop_load (nest_depth c0) (snd (command_open c0)) ->
  error (snd (command_colon c2)) = MML_OK ->
  out c4 = out (snd (command_colon c2)) ++ B ->
  nest_depth c4 = nest_depth (snd (command_colon c2)) ->
  loop_load (nest_depth c0) c4
  = loop_load (nest_depth c0) (snd (command_colon c2)) ->
  error (snd (command_close c4)) = MML_OK ->
  let c' := snd (command_close c4) in
  let J := close_jump (- (Z.of_nat (length A) + Z.of_nat (length B) + 6)) in
  let ex := u16 (Z.of_nat (length B) + Z.of_nat (length J)) in
  exists count c5,
    parse_unsigned c4 = (Some count, c5) /\ 2 <= count <= 255
    /\ out c' = out c0 ++ [240; count] ++ A
                  ++ [243; Z.land ex 255; Z.shiftr ex 8] ++ B ++ J
    /\ nest_depth c' = nest_depth c0
    /\ l_len96 c' = (if l_len96 c2 =? 0 then l_len96 c4 else l_len96 c2)
    /\ lp_len96 c' = (if lp_len96 c2 =? 0 then lp_len96 c4 else lp_len96 c2)
    /\ octave c' = (if u8 (octave c2) =? 0 then octave c4
                    else u8 (octave c2))
    /\ octave_last c' = (if u8 (octave c2) =? 0 then octave_last c4
                         else u8 (octave_last c2)).
Proof.
  intros Hnd Hlen Hopen Hout2 Hnest2 Hlevel2 Hcolon Hout4 Hnest4 Hlevel4
    Hclose c' J ex.
  destruct (command_open_ok c0 Hopen) as [Hmax Hc1].
  assert (Z.to_nat (nest_depth c0) < length (loops c0))%nat as Hidx
    by (rewrite Hlen; unfold MML_MAX_NEST in *; lia).
  rewrite Hc1 in Hout2, Hnest2, Hlevel2.
  rewrite loop_load_store_same in Hlevel2 by assumption.
  unfold loop_store in Hout2, Hnest2.
  destruct (0 <=? nest_depth c0) eqn:E0; [|apply Z.leb_gt in E0; lia].
  cbn in Hout2, Hnest2.
  assert (Z.to_nat (nest_depth c0) < length (loops c2))%nat as Hidx2.
  { apply loop_load_in_range; [exact Hnd|]. rewrite Hlevel2.
    cbn [loop_start]. unfold out_len. lia. }
  destruct (command_colon_ok c2 Hcolon) as (_ & _ & Hc3).
  replace (nest_depth c2 - 1) with (nest_depth c0) in Hc3 by lia.
  rewrite Hlevel2 in Hc3. cbn [loop_start] in Hc3.
  rewrite Hc3 in Hout4, Hnest4, Hlevel4.
  rewrite loop_load_store_same in Hlevel4 by assumption.
  unfold loop_store in Hout4, Hnest4.
  rewrite E0 in Hout4, Hnest4.
  cbn in Hout4, Hnest4.
  destruct (command_close_ok c4 Hclose)
    as (count & c5 & Hp & Hcount & Hpos & Hc').
  cbn zeta in Hc'.
  assert (scan_only c4 c5) as Hs.
  { change c5 with (snd (Some count, c5)). rewrite <- Hp.
    apply scan_only_parse_unsigned. }
  set (L3 := mkLoop (out_len c0 + 2) (out_len c2 + 3) (l_len96 c2)
               (lp_len96 c2) (u8 (octave c2)) (u8 (octave_last c2))) in *.
  assert (loop_load (nest_depth c4 - 1) c4 = L3) as Hls4.
  { replace (nest_depth c4 - 1) with (nest_depth c0) by lia. exact Hlevel4. }
  assert (out_len c2 = out_len c0 + 2 + Z.of_nat (length A)) as Hl2.
  { unfold out_len. rewrite Hout2, !length_app. cbn [length]. lia. }
  assert (out_len c4 = out_len c2 + 3 + Z.of_nat (length B)) as Hl4.
  { unfold out_len. rewrite Hout4, !length_app. cbn [length]. lia. }
  rewrite Hls4 in Hc'.
  assert (negb (exit_mark L3 =? LOOP_NOEXIT) = true) as Hex.
  { subst L3. cbn [exit_mark]. unfold LOOP_NOEXIT, out_len in *.
    apply negb_true_iff, Z.eqb_neq. lia. }
  rewrite Hex in Hc'.
  replace (loop_start L3 - (out_len c4 + 3))
    with (- (Z.of_nat (length A) + Z.of_nat (length B) + 6)) in Hc'
    by (subst L3; cbn [loop_start]; lia).
  fold J in Hc'.
  set (c6 := set_out _ c5) in Hc'.
  set (c7 := set_nest_depth _ _) in Hc'.
  pose proof (restore_saved_fields (nest_depth c4 - 1) c7)
    as (Ro & Rn & Rl & Rp & Rv & Rw).
  assert (loop_load (nest_depth c4 - 1) c7 = L3) as Hls7.
  { rewrite <- Hls4. unfold loop_load. subst c7 c6. cbn.
    rewrite (so_loops _ _ Hs). reflexivity. }
  rewrite Hls7 in Rl, Rp, Rv, Rw. subst L3.
  cbn [saved_l_len96 saved_lp_len96 saved_octave saved_octave_last]
    in Rl, Rp, Rv, Rw.
  exists count, c5. split; [exact Hp|]. split; [exact Hcount|].
  subst c'. rewrite Hc', Ro, Rn, Rl, Rp, Rv, Rw.
  assert (l_len96 c7 = l_len96 c4 /\ lp_len96 c7 = lp_len96 c4
          /\ octave c7 = octave c4 /\ octave_last c7 = octave_last c4)
    as (-> & -> & -> & ->).
  { subst c7 c6. cbn.
    rewrite (so_l _ _ Hs), (so_lp _ _ Hs), (so_octave _ _ Hs),
      (so_octave_last _ _ Hs). repeat split. }
  split; [|split; [subst c7; cbn; lia | repeat split]].
  subst c7. cbn [out set_nest_depth].
  change (out (set_nest_depth ?n ?x)) with (out x).
  unfold patch_exit, poke. cbn [out set_out exit_mark].
  assert (out c6 = (out c0 ++ 240 :: count :: A)
                     ++ 243 :: 0 :: 0 :: (B ++ J)) as Ho6.
  { subst c6. cbn [out set_out loop_start].
    rewrite Hout4, Hout2, <- !app_assoc. cbn [app].
    rewrite (store_byte_app_second (out c0) _ 240 0 count)
      by (unfold out_len; lia).
    rewrite (u8_small count) by lia.
    repeat (progress (rewrite <- ?app_assoc; cbn [app])). reflexivity. }
  assert (out_len c6 = out_len c4 + Z.of_nat (length J)) as Hl6.
  { unfold out_len. subst c6. cbn [out set_out].
    rewrite length_app, length_store_byte. lia. }
  assert (Z.of_nat (length (out c0 ++ 240 :: count :: A))
          = out_len c2) as HlA.
  { rewrite Hl2. unfold out_len. rewrite length_app. cbn [length]. lia. }
  unfold out_len at 1 2. fold (out_len c6).
  replace (out_len c6 - (out_len c2 + 3 - 3 + 3))
    with (Z.of_nat (length B) + Z.of_nat (length J)) by lia.
  fold ex. rewrite Ho6.
  rewrite (store_byte_app_second _ _ 243 0) by lia.
  rewrite (store_byte_app_third _ _ 243) by (unfold out_len in *; lia).
  subst ex. rewrite !u8_low_byte, !u8_high_byte.
  repeat (progress (rewrite <- ?app_assoc; cbn [app])). reflexivity.
Qed.


(** X13.  A loop with an exit.  Let [[ A : B ]n] compile without error,
    where at the [:] and at the []] the nesting depth is the one the [[]
    set and the level of this loop in the loop stack is as the [[] and
    the [:] left it (so [A] and [B] may hold nested loops, which use the
    levels above and have closed again).  Then the channel holds F0 and
    the count, the first part of the body, F3 with the exit offset
    written back into its placeholder, the second part and the jump
    back.  The exit offset is the distance from behind the F3 operand to
    behind the jump, as a 16-bit little-endian word; the backward jump
    spans both parts, the F3 and the jump itself. *)
Theorem loop_exit_bytes (c0 c2 c4 : MML_Compiler) (A B : list Z) :
  loop_run c0 c2 c4 A B ->
  let c' := snd (command_close c4) in
  let J := close_jump (- (Z.of_nat (length A) + Z.of_nat (length B) + 6)) in
  let ex := u16 (Z.of_nat (length B) + Z.of_nat (length J)) in
  exists count c5,
    parse_unsigned c4 = (Some count, c5) /\ 2 <= count <= 255
    /\ out c' = out c0 ++ [240; count] ++ A
                  ++ [243; Z.land ex 255; Z.shiftr ex 8] ++ B ++ J
    /\ nest_depth c' = nest_depth c0.
Proof.
  intros [] c' J ex.
  destruct (loop_exit_state c0 c2 c4 A B) as (count & c5 & Hp & Hc & Ho & Hn & _);
    try assumption.
  exists count, c5. repeat split; try assumption; lia.
Qed.

(** The outer loop of the line [[c:[d]2e]2], whose second part holds a
    loop of its own: the states at the [:] and at the last []] are those
    the statement loop reaches, and the output is
    F0 02 01 F3 08 00 F0 02 03 F1 FD 05 F1 F4. *)
Lemma loop_exit_bytes_witness :
  let c0 := snd (get (begin_line "[c:[d]2e]2" 1
                        (mml_channel_init CH_BUF_SIZE))) in
  let c2 := snd (get (snd (compile_statement (snd (command_open c0))))) in
  let c4 := snd (get (snd (compile_statement (snd (compile_statement
              (snd (compile_statement (snd (compile_statement
                 (snd (command_colon c2))))))))))) in
  let A := [1] in
  let B := [240; 2; 3; 241; 253; 5] in
  (loop_run c0 c2 c4 A B
   /\ out (snd (command_close c4))
      = [240; 2; 1; 243; 8; 0; 240; 2; 3; 241; 253; 5; 241; 244])
  /\ let c' := snd (command_close c4) in
     let J :=
       close_jump (- (Z.of_nat (length A) + Z.of_nat (length B) + 6)) in
     let ex := u16 (Z.of_nat (length B) + Z.of_nat (length J)) in
     exists count c5,
       parse_unsigned c4 = (Some count, c5) /\ 2 <= count <= 255
       /\ out c' = out c0 ++ [240; count] ++ A
                     ++ [243; Z.land ex 255; Z.shiftr ex 8] ++ B ++ J
       /\ nest_depth c' = nest_depth c0.
Proof.
  intros c0 c2 c4 A B.
  assert (loop_run c0 c2 c4 A B) as H.
  { constructor; vm_compute; try reflexivity. discriminate. }
  split; [split; [exact H | vm_compute; reflexivity]|].
  exact (loop_exit_bytes c0 c2 c4 A B H).
Defined.

(** X14.  The defaults at a loop exit.  The [:] of a loop saves the two
    default lengths, the octave and the octave of the last octave byte,
    and the []] of that loop puts them back.  This holds for a channel
    state in range at the [:], whatever the statements of the second
    part did to the defaults, as long as at the []] the nesting depth is
    that of the [:] and the level of this loop in the loop stack is as
    the [:] left it; nested loops, which use the levels above, are
    allowed.  The bytes behind the loop are therefore compiled in the
    state the player has after leaving the loop through the exit. *)
Theorem loop_exit_restores_defaults (c0 c2 c4 : MML_Compiler) (A B : list Z) :
  loop_run c0 c2 c4 A B ->
  channel_wf c2 ->
  let c' := snd (command_close c4) in
  l_len96 c' = l_len96 c2 /\ lp_len96 c' = lp_len96 c2
  /\ octave c' = octave c2 /\ octave_last c' = octave_last c2.
Proof.
  intros [] Hwf c'.
  destruct (loop_exit_state c0 c2 c4 A B)
    as (count & c5 & _ & _ & _ & _ & Hl & Hp & Hv & Hw); try assumption.
  destruct Hwf.
  subst c'. rewrite Hl, Hp, Hv, Hw.
  rewrite !(u8_small (octave c2)), !(u8_small (octave_last c2)) by lia.
  destruct (l_len96 c2 =? 0) eqn:E1; [apply Z.eqb_eq in E1; lia|].
  destruct (lp_len96 c2 =? 0) eqn:E2; [apply Z.eqb_eq in E2; lia|].
  destruct (octave c2 =? 0) eqn:E3; [apply Z.eqb_eq in E3; lia|].
  repeat split.
Qed.

(** The outer loop of the line [[c:O5L8[d]2e]2]: the second part changes
    the octave and the [L] default and holds a loop of its own; at the
    last []] the octave is 5, the octave of the last octave byte 5 and
    the [L] default 12, and the []] puts 4, 4 and 24 back. *)
Lemma loop_exit_restores_defaults_witness :
  let c0 := snd (get (begin_line "[c:O5L8[d]2e]2" 1
                        (mml_channel_init CH_BUF_SIZE))) in
  let c2 := snd (get (snd (compile_statement (snd (command_open c0))))) in
  let c4 := snd (get (snd (compile_statement (snd (compile_statement
              (snd (compile_statement (snd (compile_statement
                 (snd (compile_statement (snd (compile_statement
                    (snd (command_colon c2))))))))))))))) in
  let B := [249; 12; 240; 2; 133; 3; 241; 252; 5] in
  (loop_run c0 c2 c4 [1] B /\ channel_wf c2)
  /\ (octave c4 = 5 /\ octave_last c4 = 5 /\ l_len96 c4 = 12)
  /\ (octave c2 = 4 /\ octave_last c2 = 4 /\ l_len96 c2 = 24)
  /\ let c' := snd (command_close c4) in
     l_len96 c' = l_len96 c2 /\ lp_len96 c' = lp_len96 c2
     /\ octave c' = octave c2 /\ octave_last c' = octave_last c2.
Proof.
  intros c0 c2 c4 B.
  assert (loop_run c0 c2 c4 [1] B) as H.
  { constructor; vm_compute; try reflexivity. discriminate. }
  assert (channel_wf c2) as Hwf.
  { constructor; try (vm_compute; split; discriminate);
      try (vm_compute; reflexivity).
    vm_compute.
    repeat (constructor; [repeat split; left; reflexivity|]).
    constructor. }
  split; [split; assumption|].
  split; [repeat split; vm_compute; reflexivity|].
  split; [repeat split; vm_compute; reflexivity|].
  exact (loop_exit_restores_defaults c0 c2 c4 [1] B H Hwf).
Defined.


(** ** The driver loop *)

Lemma skip_blanks_app ws p :
  all_chars (fun ch => (ch =? chr " ") || (ch =? chr "009")) ws = true ->
  skip_blanks (ws ++ p)%string = skip_blanks p.
Proof.
  induction ws as [|a ws IH]; intros H; [reflexivity|].
  cbn [all_chars] in H. apply andb_true_iff in H as [Ha Hws].
  cbn [String.append skip_blanks]. rewrite Ha. apply IH, Hws.
Qed.

Lemma skip_digits_app ds p :
  all_chars isdigit ds = true ->
  skip_digits (ds ++ p)%string = skip_digits p.
Proof.
  induction ds as [|a ds IH]; intros H; [reflexivity|].
  cbn [all_chars] in H. apply andb_true_iff in H as [Ha Hds].
  cbn [String.append skip_digits]. rewrite Ha. apply IH, Hds.
Qed.

Lemma skip_spaces_app sp p :
  all_chars (fun ch => ch =? chr " ") sp = true ->
  skip_spaces (sp ++ p)%string = skip_spaces p.
Proof.
  induction sp as [|a sp IH]; intros H; [reflexivity|].
  cbn [all_chars] in H. apply andb_true_iff in H as [Ha Hsp].
  cbn [String.append skip_spaces]. rewrite Ha. apply IH, Hsp.
Qed.

Lemma skip_digits_stops p :
  isdigit (head_code p) = false -> skip_digits p = p.
Proof. destruct p as [|a p]; [reflexivity|]. cbn. intros ->. reflexivity. Qed.

(** X15.  The line number of the original compiler's format.  A line
    that starts with blanks, a line number, spaces and one double quote
    is taken from the character behind the quote: the prefix is skipped
    whatever the number is, and only one quote is taken. *)
Theorem strip_prefix_line_number (ws ds sp body : string) :
  all_chars (fun ch => (ch =? chr " ") || (ch =? chr "009")) ws = true ->
  all_chars isdigit ds = true ->
  ds <> EmptyString ->
  all_chars (fun ch => ch =? chr " ") sp = true ->
  strip_prefix (ws ++ ds ++ sp ++ String "034" body)%string = body.
Proof.
  intros Hws Hds Hne Hsp. unfold strip_prefix.
  rewrite (skip_blanks_app _ _ Hws).
  destruct ds as [|d ds]; [contradiction|].
  cbn [all_chars] in Hds. apply andb_true_iff in Hds as [Hd Hds].
  assert (skip_blanks (String d ds ++ sp ++ String "034" body)%string
          = (String d ds ++ sp ++ String "034" body)%string) as ->.
  { cbn [String.append skip_blanks].
    assert ((chr d =? chr " ") || (chr d =? chr "009") = false) as ->;
      [|reflexivity].
    unfold isdigit in Hd. apply andb_true_iff in Hd as [H1 H2].
    change (chr " ") with 32. change (chr "009") with 9.
    apply orb_false_iff. split; apply Z.eqb_neq; lia. }
  cbn [String.append head_code]. rewrite Hd.
  cbn [skip_digits]. rewrite Hd.
  rewrite (skip_digits_app _ _ Hds).
  assert (skip_digits (sp ++ String "034" body)%string
          = (sp ++ String "034" body)%string) as ->.
  { apply skip_digits_stops. destruct sp as [|a sp]; [reflexivity|].
    cbn [all_chars] in Hsp. apply andb_true_iff in Hsp as [Ha _].
    cbn [String.append head_code]. apply Z.eqb_eq in Ha. rewrite Ha.
    reflexivity. }
  rewrite (skip_spaces_app _ _ Hsp). reflexivity.
Qed.

(** A tab, a blank, the number 10, a blank, the quote, then [Dcde]. *)
Lemma strip_prefix_line_number_witness :
  strip_prefix (String "009" " " ++ "10" ++ " " ++ String "034" "Dcde")%string
  = "Dcde"%string.
Proof.
  apply (strip_prefix_line_number (String "009" " ") "10" " " "Dcde").
  - reflexivity.
  - reflexivity.
  - discriminate.
  - reflexivity.
Defined.













(** A finish that answers [MML_OK] on a channel whose output fits has
    appended the end mark, or the buffer is exactly full. *)
Lemma finish_ok_out c :
  is_ok (fst (mml_finish_channel c)) = true ->
  out_len c <= out_cap c ->
  out (snd (mml_finish_channel c)) = out c ++ [255]
  \/ (out (snd (mml_finish_channel c)) = out c /\ out_len c = out_cap c).
Proof.
  intros Hok Hfit.
  destruct (Z.eq_dec (nest_depth c) 0) as [Hn|Hn].
  - destruct (Z_le_gt_dec (out_len c + 1) (out_cap c)) as [Hr|Hr].
    + left. apply finish_with_room; assumption.
    + right. split; [apply finish_on_full_buffer; assumption | lia].
  - exfalso. apply is_ok_true in Hok. revert Hok.
    unfold mml_finish_channel. rewrite bind_eq. cbn [gets fst snd].
    apply Z.eqb_neq in Hn. rewrite Hn. cbn [negb]. rewrite bind_eq.
    cbn [gets fst]. apply set_error_sets. discriminate.
Qed.

Lemma main_inv_init : main_inv main_init.
Proof.
  split; [reflexivity|]. unfold main_init, PSG_NCH. cbn [replicate psgch].
  repeat (apply Forall_cons_2;
          [cbn beta; split; [reflexivity | vm_compute; discriminate]|]).
  apply Forall_nil_2.
Qed.

Lemma main_inv_compile_on_channel p line st i :
  main_inv st -> main_inv (compile_on_channel p line st i).
Proof.
  intros [Hl Hf]. unfold compile_on_channel. destruct (_ && _); [|split; auto].
  destruct (psgch st !! i) as [ch|] eqn:E; [|split; auto].
  split; cbn [psgch]; [rewrite length_insert; exact Hl|].
  apply Forall_insert; [exact Hf|]. cbn [mmlcp].
  pose proof (Forall_lookup_1 _ _ _ _ Hf E) as [Hc Ho]. cbn beta in Hc, Ho.
  destruct (grows_mml_compile_line (string_tail p) (lineno st) (mmlcp ch))
    as (Hc' & _ & Ho').
  rewrite Hc' in Ho'. rewrite Hc'. split; [exact Hc|]. rewrite <- Hc.
  apply Ho'. lia.
Qed.

Lemma main_inv_process_line st line :
  main_inv st -> main_inv (process_line st line).
Proof.
  intros H. unfold process_line.
  set (st1 := mkMain (psgch st) (lineno st + 1) (abort st) (x_disabled st)).
  assert (main_inv st1) as H1 by exact H.
  assert (forall l st0, main_inv st0 ->
            main_inv (foldl (compile_on_channel (strip_prefix line) line)
                        st0 l)) as Hfold.
  { induction l as [|i l IH]; intros st0 H0; cbn [foldl]; [exact H0|].
    apply IH, main_inv_compile_on_channel, H0. }
  destruct (_ =? _); [|apply Hfold, H1].
  exact (Hfold _ _ H1).
Qed.

Lemma main_inv_lines lines :
  forall st, main_inv st -> main_inv (foldl process_line st lines).
Proof.
  induction lines as [|l lines IH]; intros st H; cbn [foldl]; [exact H|].
  apply IH, main_inv_process_line, H.
Qed.

(** The loop that closes the three channels. *)
Lemma finish_all st a b d :
  psgch st = [a; b; d] ->
  foldl finish_on_channel st (seq 0 PSG_NCH)
  = mkMain
      [mkPsgch (snd (mml_finish_channel (mmlcp a))) (last_line a);
       mkPsgch (snd (mml_finish_channel (mmlcp b))) (last_line b);
       mkPsgch (snd (mml_finish_channel (mmlcp d))) (last_line d)]
      (lineno st)
      (if is_ok (fst (mml_finish_channel (mmlcp d)))
       then if is_ok (fst (mml_finish_channel (mmlcp b)))
            then if is_ok (fst (mml_finish_channel (mmlcp a)))
                 then abort st else true
            else true
       else true)
      (x_disabled st).
Proof.
  intros Ep. unfold PSG_NCH. cbn [seq foldl].
  unfold finish_on_channel at 3. rewrite Ep. cbn [lookup list_lookup].
  unfold finish_on_channel at 2.
  cbn [psgch lookup list_lookup insert list_insert].
  unfold finish_on_channel at 1.
  cbn [psgch lookup list_lookup insert list_insert lineno abort x_disabled
       last_line mmlcp].
  reflexivity.
Qed.

(** X18.  What a successful run hands to the assembly.  When [main]
    reaches the assembly of the object file, there are three channel
    streams, none longer than the channel buffer, and each of them ends
    with the end mark FF unless it fills the buffer to its last byte. *)
Theorem main_success_end_marks (lines : list string) (chs : list (list Z)) :
  main_channels lines = Some chs ->
  length chs = PSG_NCH
  /\ Forall (fun b => Z.of_nat (length b) <= CH_BUF_SIZE
                      /\ (last b = Some 255
                          \/ Z.of_nat (length b) = CH_BUF_SIZE)) chs.
Proof.
  unfold main_channels, main_compile.
  pose proof (main_inv_lines lines main_init main_inv_init) as [Hl Hf].
  set (st := foldl process_line main_init lines) in *.
  destruct (psgch st) as [|a [|b [|d [|? ?]]]] eqn:Ep; try discriminate Hl.
  rewrite (finish_all st a b d Ep). cbn [abort psgch].
  destruct (is_ok (fst (mml_finish_channel (mmlcp d)))) eqn:E3; [|discriminate].
  destruct (is_ok (fst (mml_finish_channel (mmlcp b)))) eqn:E2; [|discriminate].
  destruct (is_ok (fst (mml_finish_channel (mmlcp a)))) eqn:E1; [|discriminate].
  destruct (abort st); [discriminate|].
  intros [= <-]. cbn [map mmlcp length]. split; [reflexivity|].
  assert (forall ch, (out_cap (mmlcp ch) = CH_BUF_SIZE
                      /\ out_len (mmlcp ch) <= CH_BUF_SIZE) ->
            is_ok (fst (mml_finish_channel (mmlcp ch))) = true ->
            let o := out (snd (mml_finish_channel (mmlcp ch))) in
            Z.of_nat (length o) <= CH_BUF_SIZE
            /\ (last o = Some 255 \/ Z.of_nat (length o) = CH_BUF_SIZE))
    as Hch.
  { intros ch [Hc Ho] Hok o. subst o.
    destruct (grows_mml_finish_channel (mmlcp ch)) as (Hc' & _ & Ho').
    rewrite Hc' in Ho'.
    split; [fold (out_len (snd (mml_finish_channel (mmlcp ch))));
            rewrite <- Hc; apply Ho'; lia|].
    destruct (finish_ok_out (mmlcp ch) Hok) as [H|[H1 H2]]; [lia| |].
    - left. rewrite H. apply last_snoc.
    - right. rewrite H1. fold (out_len (mmlcp ch)). lia. }
  apply Forall_cons in Hf as [Ha Hf]. apply Forall_cons in Hf as [Hb Hf].
  apply Forall_cons in Hf as [Hd _].
  repeat (apply Forall_cons; split); [| | |apply Forall_nil; exact I].
  - apply (Hch a Ha E1).
  - apply (Hch b Hb E2).
  - apply (Hch d Hd E3).
Qed.

(** Three lines, one for each channel. *)
Lemma main_success_end_marks_witness :
  length [[1; 255]; [3; 255]; [5; 255]] = PSG_NCH
  /\ Forall (fun b => Z.of_nat (length b) <= CH_BUF_SIZE
                      /\ (last b = Some 255
                          \/ Z.of_nat (length b) = CH_BUF_SIZE))
       [[1; 255]; [3; 255]; [5; 255]].
Proof.
  apply (main_success_end_marks ["Dc"; "Ed"; "Fe"]%string).
  reflexivity.
Defined.


(** ** The object file *)

Lemma store_byte_app_first (l r : list Z) (a v : Z) :
  store_byte (Z.of_nat (length l)) v (l ++ a :: r) = l ++ u8 v :: r.
Proof.
  unfold store_byte.
  destruct (0 <=? Z.of_nat (length l)) eqn:E; [|apply Z.leb_gt in E; lia].
  rewrite Nat2Z.id, insert_app_r_alt by lia.
  rewrite Nat.sub_diag. reflexivity.
Qed.

Lemma put_word_le_app (l r : list Z) (a b v : Z) :
  put_word_le (Z.of_nat (length l)) v (l ++ a :: b :: r)
  = l ++ Z.land (u16 v) 255 :: Z.shiftr (u16 v) 8 :: r.
Proof.
  unfold put_word_le. rewrite store_byte_app_first.
  rewrite (store_byte_app_second l r) by reflexivity.
  rewrite u8_low_byte, u8_high_byte. reflexivity.
Qed.

Lemma memcpy_app (data : list Z) :
  forall l old r : list Z,
    length old = length data ->
    memcpy (Z.of_nat (length l)) data (l ++ old ++ r)
    = l ++ map u8 data ++ r.
Proof.
  induction data as [|x data IH]; intros l old r H.
  - destruct old; [reflexivity | discriminate].
  - destruct old as [|o old]; [discriminate|]. cbn [memcpy map app].
    rewrite store_byte_app_first.
    replace (Z.of_nat (length l) + 1) with (Z.of_nat (length (l ++ [u8 x])))
      by (rewrite length_app; cbn [length]; lia).
    replace (l ++ u8 x :: old ++ r) with ((l ++ [u8 x]) ++ old ++ r)
      by (rewrite <- app_assoc; reflexivity).
    rewrite IH by (injection H; auto).
    rewrite <- app_assoc. reflexivity.
Qed.

(** X19.  The layout of the object file.  On a block of [totallen]
    bytes (eight header bytes and one span for each channel, with
    whatever contents) the assembly yields: the three start addresses,
    base address plus offset, as little-endian 16-bit words; bytes 6 and
    7 as the block held them; then the three channel streams one behind
    the other, byte for byte.  This holds as long as the first two
    streams end below offset 65536, where the 16-bit offsets do not
    wrap. *)
Theorem object_layout (baseaddr : Z) (ch1 ch2 ch3 : list Z)
    (h0 h1 h2 h3 h4 h5 h6 h7 : Z) (b1 b2 b3 : list Z) :
  length b1 = length ch1 ->
  length b2 = length ch2 ->
  length b3 = length ch3 ->
  8 + Z.of_nat (length ch1) + Z.of_nat (length ch2) < 65536 ->
  let outbuf := [h0; h1; h2; h3; h4; h5; h6; h7] ++ b1 ++ b2 ++ b3 in
  let w1 := u16 (baseaddr + 8) in
  let w2 := u16 (baseaddr + (8 + Z.of_nat (length ch1))) in
  let w3 := u16 (baseaddr + (8 + Z.of_nat (length ch1)
                               + Z.of_nat (length ch2))) in
  Z.of_nat (length outbuf) = totallen ch1 ch2 ch3
  /\ object_image baseaddr ch1 ch2 ch3 outbuf
     = [Z.land w1 255; Z.shiftr w1 8; Z.land w2 255; Z.shiftr w2 8;
        Z.land w3 255; Z.shiftr w3 8; h6; h7]
         ++ map u8 ch1 ++ map u8 ch2 ++ map u8 ch3.
Proof.
  intros H1 H2 H3 Hsmall outbuf w1 w2 w3.
  unfold totallen, object_image, channel_offsets, fill_channel, ch_offset,
    CH1_START_OFFSET.
  rewrite !u16_small by (try rewrite u16_small; lia).
  cbn [foldl fst snd lookup list_lookup default from_option id].
  split.
  { subst outbuf. rewrite !length_app, H1, H2, H3. cbn [length]. lia. }
  subst outbuf. cbn [app].
  rewrite (put_word_le_app [] _ h0 h1 (baseaddr + 8)
             : put_word_le 0 _ (h0 :: h1 :: _) = _).
  fold w1. cbn [app].
  rewrite (memcpy_app ch1
             [Z.land w1 255; Z.shiftr w1 8; h2; h3; h4; h5; h6; h7]
             b1 (b2 ++ b3) H1
           : memcpy 8 ch1 (_ :: _ :: h2 :: h3 :: h4 :: h5 :: h6 :: h7
                             :: b1 ++ b2 ++ b3) = _).
  cbn [app].
  rewrite (put_word_le_app [Z.land w1 255; Z.shiftr w1 8] _ h2 h3
             (baseaddr + (8 + Z.of_nat (length ch1)))
           : put_word_le 2 _ (_ :: _ :: h2 :: h3 :: _) = _).
  fold w2. cbn [app].
  set (hd := [Z.land w1 255; Z.shiftr w1 8; Z.land w2 255; Z.shiftr w2 8;
              h4; h5; h6; h7]).
  change (Z.land w1 255 :: Z.shiftr w1 8 :: Z.land w2 255 :: Z.shiftr w2 8
            :: h4 :: h5 :: h6 :: h7 :: map u8 ch1 ++ b2 ++ b3)
    with ((hd ++ map u8 ch1) ++ b2 ++ b3) .
  replace (8 + Z.of_nat (length ch1))
    with (Z.of_nat (length (hd ++ map u8 ch1))) at 3
    by (rewrite length_app, length_map; subst hd; cbn [length]; lia).
  rewrite (memcpy_app ch2 (hd ++ map u8 ch1) b2 b3 H2).
  subst hd. cbn [app].
  rewrite (put_word_le_app
             [Z.land w1 255; Z.shiftr w1 8; Z.land w2 255; Z.shiftr w2 8]
             _ h4 h5
             (baseaddr + (8 + Z.of_nat (length ch1) + Z.of_nat (length ch2)))
           : put_word_le 4 _ (_ :: _ :: _ :: _ :: h4 :: h5 :: _) = _).
  fold w3. cbn [app].
  set (hd := [Z.land w1 255; Z.shiftr w1 8; Z.land w2 255; Z.shiftr w2 8;
              Z.land w3 255; Z.shiftr w3 8; h6; h7]).
  replace (Z.land w1 255 :: Z.shiftr w1 8 :: Z.land w2 255 :: Z.shiftr w2 8
             :: Z.land w3 255 :: Z.shiftr w3 8 :: h6 :: h7
             :: map u8 ch1 ++ map u8 ch2 ++ b3)
    with ((hd ++ map u8 ch1 ++ map u8 ch2) ++ b3 ++ []) at 1
    by (rewrite app_nil_r, <- !app_assoc; reflexivity).
  replace (8 + Z.of_nat (length ch1) + Z.of_nat (length ch2))
    with (Z.of_nat (length (hd ++ map u8 ch1 ++ map u8 ch2)))
    by (rewrite !length_app, !length_map; subst hd; cbn [length]; lia).
  rewrite (memcpy_app ch3 _ b3 [] H3).
  rewrite app_nil_r, <- !app_assoc. reflexivity.
Qed.


(** Base address 8000h, the streams 01 FF, FF and FF, on a block of
    twelve bytes AA. *)
Lemma object_layout_witness :
  let outbuf := replicate 12 170 in
  Z.of_nat (length outbuf) = totallen [1; 255] [255] [255]
  /\ object_image 32768 [1; 255] [255] [255] outbuf
     = [8; 128; 10; 128; 11; 128; 170; 170; 1; 255; 255; 255].
Proof.
  apply (object_layout 32768 [1; 255] [255] [255]
           170 170 170 170 170 170 170 170 [170; 170] [170] [170]).
  - reflexivity.
  - reflexivity.
  - reflexivity.
  - cbn. lia.
Defined.


(** ** The octave commands *)

Lemma error_get c : error (snd (get c)) = error c.
Proof.
  unfold get. destruct (len c <=? pos c)%nat; [reflexivity|].
  destruct (_ =? _); reflexivity.
Qed.

Lemma error_skip_space_loop fuel :
  forall c, error (snd (skip_space_loop fuel c)) = error c.
Proof.
  induction fuel as [|fuel IH]; intros c; cbn [skip_space_loop];
    [reflexivity|].
  destruct (is_blank (peek c)); [|reflexivity].
  rewrite bind_eq, IH. apply error_get.
Qed.

Lemma error_parse_unsigned_loop fuel :
  forall v c, error (snd (parse_unsigned_loop fuel v c)) = error c.
Proof.
  induction fuel as [|fuel IH]; intros v c; cbn [parse_unsigned_loop];
    [reflexivity|].
  destruct (isdigit (peek c)); [|reflexivity].
  rewrite bind_eq, IH. apply error_get.
Qed.

Lemma error_parse_unsigned c : error (snd (parse_unsigned c)) = error c.
Proof.
  unfold parse_unsigned. rewrite !bind_eq. cbn [gets fst snd].
  assert (error (snd (skip_space c)) = error c) as Hs
    by apply error_skip_space_loop.
  destruct (negb _); [exact Hs|].
  rewrite !bind_eq. cbn [gets ret fst snd].
  rewrite error_parse_unsigned_loop. exact Hs.
Qed.

(** X20.  The octave steps.  [>] and [<] move the octave by their
    operand, by one when there is none, and emit nothing: the octave
    byte is left to the next note.  A step that would leave 1..8 is an
    OCTAVE error and the octave stays where it was. *)
Theorem octave_step (up : bool) (c : MML_Compiler) :
  error c = MML_OK ->
  let m := if up then command_gt else command_lt in
  let v := default 1 (fst (parse_unsigned c)) in
  let target := if up then octave c + v else octave c - v in
  let c' := snd (m c) in
  out c' = out c /\ octave_last c' = octave_last c
  /\ (if (1 <=? target) && (target <=? 8)
      then octave c' = target /\ error c' = MML_OK
      else octave c' = octave c /\ error c' = MML_ERR_OCTAVE).
Proof.
  intros Hok m v target c'.
  pose proof (scan_only_parse_unsigned c) as Hs.
  pose proof (error_parse_unsigned c) as He.
  assert (c' = snd (set_octave target
                      (match fst (parse_unsigned c) with
                       | None => set_error_col (col (snd (parse_unsigned c)) - 1)
                                   (snd (parse_unsigned c))
                       | Some _ => snd (parse_unsigned c)
                       end))) as ->.
  { subst c' m target v. unfold command_gt, command_lt.
    destruct up; rewrite !bind_eq;
      destruct (parse_unsigned c) as [[v|] c1];
      cbn [fst snd default from_option id];
      rewrite ?bind_eq; cbn [modify gets ret fst snd];
      cbn [snd] in Hs;
      change (octave (set_error_col (col c1 - 1) c1)) with (octave c1);
      rewrite (so_octave _ _ Hs); reflexivity. }
  set (c2 := match fst (parse_unsigned c) with
             | None => _ | Some _ => _ end).
  assert (out c2 = out c /\ octave_last c2 = octave_last c
          /\ octave c2 = octave c /\ error c2 = MML_OK) as (Ho & Hl & Hv & He2).
  { subst c2. destruct (fst (parse_unsigned c)); cbn;
      rewrite (so_out _ _ Hs), (so_octave_last _ _ Hs), (so_octave _ _ Hs),
        He, Hok; repeat split. }
  unfold set_octave.
  destruct (1 <=? target) eqn:E1; destruct (target <=? 8) eqn:E2;
    destruct (target <? 1) eqn:E3; destruct (target >? 8) eqn:E4;
    try lia; cbn [andb orb modify snd].
  1: { cbn. repeat split; assumption. }
  all: pose proof (scan_only_set_error MML_ERR_OCTAVE c2) as Hse;
    rewrite (so_out _ _ Hse), (so_octave_last _ _ Hse), (so_octave _ _ Hse);
    repeat split; try assumption;
    unfold set_error; rewrite He2; cbn [is_ok];
    destruct (_ =? _); reflexivity.
Qed.

(** [>] at octave 4 with the operand 2, and [<] with the operand 5. *)
Lemma octave_step_witness :
  (let c := begin_line "2" 1 (mml_channel_init CH_BUF_SIZE) in
   out (snd (command_gt c)) = [] /\ octave_last (snd (command_gt c)) = 4
   /\ octave (snd (command_gt c)) = 6 /\ error (snd (command_gt c)) = MML_OK)
  /\ (let c := begin_line "5" 1 (mml_channel_init CH_BUF_SIZE) in
      out (snd (command_lt c)) = [] /\ octave_last (snd (command_lt c)) = 4
      /\ octave (snd (command_lt c)) = 4
      /\ error (snd (command_lt c)) = MML_ERR_OCTAVE).
Proof.
  split.
  - apply (octave_step true (begin_line "2" 1 (mml_channel_init CH_BUF_SIZE))).
    reflexivity.
  - apply (octave_step false (begin_line "5" 1 (mml_channel_init CH_BUF_SIZE))).
    reflexivity.
Defined.


(** ** Comments *)

Lemma scan_only_skip_comment fuel : frame scan_only (skip_comment fuel).
Proof.
  induction fuel as [|fuel IH]; cbn [skip_comment];
    (apply (frame_bind scan_only); [apply scan_only_get|]);
    intros ch; destruct (_ && _); try exact IH; intros c; reflexivity.
Qed.

Lemma error_skip_comment fuel :
  forall c, error (snd (skip_comment fuel c)) = error c.
Proof.
  induction fuel as [|fuel IH]; intros c; cbn [skip_comment];
    rewrite bind_eq; destruct (_ && _); cbn [ret snd];
    rewrite ?IH; apply error_get.
Qed.

Lemma char_at_nonneg c : 0 <= char_at c.
Proof.
  unfold char_at. destruct (String.get _ _); [apply chr_nonneg | lia].
Qed.

Lemma skip_comment_at_end fuel c :
  (len c <= pos c)%nat -> snd (skip_comment fuel c) = c.
Proof.
  intros H. destruct fuel; cbn [skip_comment]; rewrite bind_eq; unfold get;
    apply Nat.leb_le in H; rewrite H; reflexivity.
Qed.

Lemma get_inside c :
  (pos c < len c)%nat ->
  fst (get c) = char_at c /\ pos (snd (get c)) = S (pos c)
  /\ len (snd (get c)) = len c /\ src (snd (get c)) = src c.
Proof.
  intros H. unfold get.
  destruct (len c <=? pos c)%nat eqn:E; [apply Nat.leb_le in E; lia|].
  destruct (_ =? _); repeat split.
Qed.

(** The comment loop passes characters that are not newlines, and
    stops behind the first newline or at the end of the line. *)
Lemma skip_comment_run fuel :
  forall c, (remaining c <= fuel)%nat -> (pos c < len c)%nat ->
    let c' := snd (skip_comment fuel c) in
    (pos c < pos c' <= len c')%nat
    /\ forallb (fun ch => negb (ch =? chr "010"))
         (chars_between c (pos c) (pos c' - 1)) = true
    /\ (consumed_newline c' \/ pos c' = len c').
Proof.
  induction fuel as [|fuel IH]; intros c Hf Hin;
    [unfold remaining in Hf; lia|].
  destruct (get_inside c Hin) as (Hg1 & Hg2 & Hg3 & Hg4).
  pose proof (char_at_nonneg c) as Hc.
  cbn [skip_comment]. rewrite bind_eq, Hg1.
  replace (char_at c >=? 0) with true by lia. cbn [andb].
  destruct (char_at c =? chr "010") eqn:En; cbn [negb].
  - cbn [ret snd]. rewrite Hg2, Hg3.
    replace (S (pos c) - 1)%nat with (pos c) by lia.
    rewrite chars_between_nil.
    split; [lia|]. split; [reflexivity|]. left.
    split; [rewrite Hg2; lia|].
    rewrite Hg2. replace (S (pos c) - 1)%nat with (pos c) by lia.
    apply Z.eqb_eq in En. rewrite <- En. unfold char_at. cbn.
    rewrite Hg4. reflexivity.
  - destruct (Nat.lt_ge_cases (S (pos c)) (len c)) as [Hlt|Hge].
    + destruct (IH (snd (get c))) as (H1 & H2 & H3).
      { unfold remaining in *. rewrite Hg2, Hg3. lia. }
      { rewrite Hg2, Hg3. exact Hlt. }
      cbn zeta in H1, H2, H3. rewrite Hg2 in H1, H2.
      rewrite (chars_between_src c (snd (get c))) in H2 by exact Hg4.
      set (c' := snd (skip_comment fuel (snd (get c)))) in *.
      split; [lia|]. split; [|exact H3].
      rewrite chars_between_cons by lia. cbn [forallb].
      rewrite char_at_here, En. exact H2.
    + rewrite skip_comment_at_end by (rewrite Hg2, Hg3; lia).
      rewrite Hg2, Hg3.
      replace (S (pos c) - 1)%nat with (pos c) by lia.
      rewrite chars_between_nil.
      split; [lia|]. split; [reflexivity|]. right. lia.
Qed.

(** X21.  Comments.  A statement that begins with [;] consumes the [;]
    and what follows, up to and including the next newline or, without
    one, to the end of the line: of the characters consumed, none but
    the last is a newline, and the last is one unless the line has
    ended.  It does nothing else: no byte is emitted, no default and no
    loop level changes, and no error is raised, whatever the comment
    contains. *)
Theorem comment_statement (c : MML_Compiler) :
  peek (snd (skip_space c)) = chr ";" ->
  let c1 := snd (skip_space c) in
  let c' := snd (compile_statement c) in
  scan_only c c' /\ error c' = error c
  /\ (pos c1 < pos c' <= len c')%nat
  /\ forallb (fun ch => negb (ch =? chr "010"))
       (chars_between c (pos c1) (pos c' - 1)) = true
  /\ (consumed_newline c' \/ pos c' = len c').
Proof.
  intros Hp c1 c'. subst c'. fold c1 in Hp. unfold compile_statement.
  rewrite !bind_eq. cbn [gets fst snd]. fold c1. rewrite Hp.
  change (chr ";" <? 0) with false. rewrite Z.eqb_refl.
  rewrite bind_eq. cbn [gets fst snd].
  assert (pos c1 < len c1)%nat as Hin.
  { apply peek_nonneg_inside. rewrite Hp. apply chr_nonneg. }
  destruct (skip_comment_run (remaining c1) c1 (Nat.le_refl _) Hin)
    as (H1 & H2 & H3). cbn zeta in H1, H2, H3.
  rewrite (chars_between_src c c1) in H2
    by apply (so_src _ _ (scan_only_skip_space c)).
  split; [|split; [|split; [exact H1 | split; [exact H2 | exact H3]]]].
  - transitivity c1; [apply scan_only_skip_space|].
    apply scan_only_skip_comment.
  - rewrite error_skip_comment. apply error_skip_space_loop.
Qed.

(** A comment with commands in it, in front of a second line: the
    statement starts at the [;] at position 2 and ends at position 10,
    behind the newline at position 9. *)
Lemma comment_statement_witness :
  let c := begin_line ("  ; [[ z9" ++ String "010" "cde") 1
             (mml_channel_init CH_BUF_SIZE) in
  let c1 := snd (skip_space c) in
  let c' := snd (compile_statement c) in
  (pos c1 = 2%nat /\ pos c' = 10%nat /\ len c' = 13%nat)
  /\ scan_only c c' /\ error c' = error c
  /\ (pos c1 < pos c' <= len c')%nat
  /\ forallb (fun ch => negb (ch =? chr "010"))
       (chars_between c (pos c1) (pos c' - 1)) = true
  /\ (consumed_newline c' \/ pos c' = len c').
Proof.
  split; [repeat split|].
  apply (comment_statement
           (begin_line ("  ; [[ z9" ++ String "010" "cde") 1
              (mml_channel_init CH_BUF_SIZE))).
  reflexivity.
Defined.

(** ** The note statement as a whole *)

Lemma toupper_idem n : toupper (toupper n) = toupper n.
Proof.
  unfold toupper.
  destruct ((97 <=? n) && (n <=? 122)) eqn:E.
  - apply andb_true_iff in E as [E1 E2].
    destruct ((97 <=? n - 32) && (n - 32 <=? 122)) eqn:E'; [|reflexivity].
    apply andb_true_iff in E' as [E3 E4]. lia.
  - rewrite E. reflexivity.
Qed.

(** The tone numbers [notename_to_tonenum] gives the seven letters. *)
Lemma tonenum_table n :
  0 <= notename_to_tonenum (toupper n) ->
  In (toupper n, notename_to_tonenum (toupper n))
     [(chr "C", 1); (chr "D", 3); (chr "E", 5); (chr "F", 6);
      (chr "G", 8); (chr "A", 10); (chr "B", 12)].
Proof.
  unfold notename_to_tonenum. rewrite toupper_idem. cbn zeta.
  repeat match goal with
         | |- context [if ?x =? ?y then _ else _] =>
             let H := fresh "E" in
             destruct (x =? y) eqn:H;
             [apply Z.eqb_eq in H; rewrite H; cbn [In]; tauto|]
         end.
  lia.
Qed.

(** The pitch of a note letter, counted in semitones. *)
Lemma note_pitch_semitones (ch : Z) (c : MML_Compiler) (tone octave0 : Z) :
  ch <> chr "R" ->
  -12 <= key_shift c <= 12 ->
  fst (note_pitch ch c) = Some (tone, octave0) ->
  0 <= notename_to_tonenum ch
  /\ 1 <= tone <= 12
  /\ 12 * octave0 + tone
     = 12 * octave c
       + accidental_tone ch (peek (snd (skip_space c))) + key_shift c.
Proof.
  intros HR Hk. unfold note_pitch. rewrite !bind_eq. cbn [gets modify fst snd].
  apply Z.eqb_neq in HR. rewrite HR.
  destruct (notename_to_tonenum ch <? 0) eqn:En;
    [rewrite bind_eq; cbn; discriminate|].
  rewrite !bind_eq. cbn [gets fst snd].
  rewrite skip_space_set_error_col. cbn [fst snd].
  change (peek (set_error_col (col c) (snd (skip_space c))))
    with (peek (snd (skip_space c))).
  set (c2 := snd (skip_space c)).
  set (c2' := set_error_col (col c) c2).
  set (acc := if (peek c2 =? chr "#") || (peek c2 =? chr "+")
              then get;; ret (notename_to_tonenum ch + 1)
              else if peek c2 =? chr "-"
                   then get;; ret (notename_to_tonenum ch - 1)
                   else ret (notename_to_tonenum ch)).
  assert (scan_only c (snd (acc c2'))) as Hs.
  { transitivity c2; [apply scan_only_skip_space|].
    transitivity c2'; [apply scan_only_set_error_col|].
    subst acc. destruct ((peek c2 =? chr "#") || (peek c2 =? chr "+")).
    - rewrite bind_eq. cbn [fst snd ret]. apply scan_only_get.
    - destruct (peek c2 =? chr "-"); [|reflexivity].
      rewrite bind_eq. cbn [fst snd ret]. apply scan_only_get. }
  assert ((if (if fst (acc c2') >? 12 then 12 else fst (acc c2')) <? 1
           then 1
           else if fst (acc c2') >? 12 then 12 else fst (acc c2'))
          = accidental_tone ch (peek c2)) as Ht.
  { unfold accidental_tone. subst acc.
    destruct ((peek c2 =? chr "#") || (peek c2 =? chr "+")).
    - rewrite bind_eq. reflexivity.
    - destruct (peek c2 =? chr "-"); [rewrite bind_eq|]; reflexivity. }
  rewrite (so_key_shift _ _ Hs). rewrite !Ht.
  assert (1 <= accidental_tone ch (peek c2) <= 12) as Hr.
  { rewrite <- Ht. destruct (fst (acc c2') >? 12) eqn:E1.
    - cbn. lia.
    - destruct (fst (acc c2') <? 1) eqn:E2; lia. }
  set (t := accidental_tone ch (peek c2)) in *.
  clearbody t. clear Ht. clearbody acc.
  destruct (key_shift c =? 0) eqn:E0; cbn [negb].
  - cbn [ret fst]. intros [= <- <-]. repeat split; lia.
  - destruct (t + key_shift c >? 12) eqn:E3; cbn [fst snd].
    + destruct (_ || _) eqn:E5; [rewrite bind_eq; cbn; discriminate|].
      cbn [ret fst]. intros [= <- <-]. repeat split; lia.
    + destruct (t + key_shift c <? 1) eqn:E4; cbn [fst snd].
      * destruct (_ || _) eqn:E5; [rewrite bind_eq; cbn; discriminate|].
        cbn [ret fst]. intros [= <- <-]. repeat split; lia.
      * destruct (_ || _) eqn:E5; [rewrite bind_eq; cbn; discriminate|].
        cbn [ret fst]. intros [= <- <-]. repeat split; lia.
Qed.

(** X23.  The bytes of a note statement.  On a channel with the key
    shift in -12..12 and an [L] default of at least 1, a note or rest
    that compiles without error appends an optional octave byte, the
    header [h] and the length bytes, for the length [L >= 1] it
    resolved.  The low nibble of [h] is the tone and bit 7 is clear.
    The tone is 0 for a rest; for a letter it is in 1..12 and, counted
    in semitones with the octave, the pitch is the letter's own tone
    (C 1, D 3, E 5, F 6, G 8, A 10, B 12) moved by the accidental,
    clipped to 1..12, and then by the key shift.  Bits 5-4 are 00 when
    [L] is the [L] default, else 01 when it is the [L+] default, else 10
    when [L <= 255], else 11, followed by nothing, nothing, the byte
    [L], or the low 16 bits of [L] as a little-endian word; that word is
    [L] itself as long as [L <= 65535]. *)
Theorem note_statement_bytes (note : Z) (c : MML_Compiler) :
  -12 <= key_shift c <= 12 ->
  1 <= l_len96 c ->
  error (snd (compile_note note c)) = MML_OK ->
  exists tone octave0 L flag c1 c2 pre h bytes w,
    note_pitch (toupper note) c = (Some (tone, octave0), c1)
    /\ parse_length_96 (set_error_col NOERROR c1) = (Some (L, flag), c2)
    /\ ((toupper note = chr "R" /\ tone = 0 /\ octave0 = octave c)
        \/ (exists letter,
              let a := peek (snd (skip_space c)) in
              let accidental :=
                if (a =? chr "#") || (a =? chr "+") then 1
                else if a =? chr "-" then -1 else 0 in
              In (toupper note, letter)
                 [(chr "C", 1); (chr "D", 3); (chr "E", 5); (chr "F", 6);
                  (chr "G", 8); (chr "A", 10); (chr "B", 12)]
              /\ 1 <= tone <= 12
              /\ 12 * octave0 + tone
                 = 12 * octave c
                   + Z.max 1 (Z.min 12 (letter + accidental))
                   + key_shift c))
    /\ 1 <= L
    /\ out (snd (compile_note note c)) = out c ++ pre ++ [h] ++ bytes
    /\ (pre = if octave_last c =? octave0 then [] else [128 + octave0])
    /\ 0 <= h < 128
    /\ Z.land h 15 = tone
    /\ Z.land (Z.shiftr h 4) 3
       = (if L =? l_len96 c then 0
          else if L =? lp_len96 c then 1
          else if L <=? 255 then 2
          else 3)
    /\ w = L mod 65536 /\ (L <= 65535 -> w = L)
    /\ bytes
       = (if L =? l_len96 c then []
          else if L =? lp_len96 c then []
          else if L <=? 255 then [L]
          else [w mod 256; w / 256]).
Proof.
  intros Hk Hl Hok.
  destruct (compile_note_emitted note c Hok)
    as (tone & octave0 & L & flag & tie & c1 & c2 & Hp & Hr & Hout).
  assert (scan_only c c1) as H01.
  { change c1 with (snd (Some (tone, octave0), c1)). rewrite <- Hp.
    apply scan_only_note_pitch. }
  assert (1 <= L) as HL.
  { apply (parse_length_96_pos (set_error_col NOERROR c1) L flag).
    - cbn. rewrite (so_l _ _ H01). exact Hl.
    - rewrite Hr. reflexivity. }
  assert (fst (note_pitch (toupper note) c) = Some (tone, octave0)) as Hp1
    by (rewrite Hp; reflexivity).
  pose proof (note_pitch_Some _ _ _ _ Hk Hp1) as Hcase.
  pose proof (make_note_header_fields c tone L tie) as (Hr1 & Hn & Hf & _).
  exists tone, octave0, L, flag, c1, c2,
    (if octave_last c =? octave0 then [] else [128 + octave0]),
    (make_note_header c tone L tie), (length_bytes c L), (L mod 65536).
  split; [exact Hp|]. split; [exact Hr|].
  split.
  { destruct Hcase as [(HR & Ht & Ho) | (HR & Ht)]; [left; tauto|].
    right. exists (notename_to_tonenum (toupper note)).
    destruct (note_pitch_semitones _ _ _ _ HR Hk Hp1) as (Hn0 & _ & Hsemi).
    cbn zeta. split; [apply tonenum_table, Hn0|]. split; [exact Ht|].
    rewrite Hsemi. unfold accidental_tone. cbn zeta.
    set (t := notename_to_tonenum (toupper note)). clearbody t.
    destruct (_ || _); [|destruct (_ =? chr "-")];
      match goal with
      | |- context [?x >? 12] => destruct (x >? 12) eqn:E1
      end;
      match goal with
      | |- context [?x <? 1] => destruct (x <? 1) eqn:E2
      end; lia. }
  split; [exact HL|]. split; [exact Hout|]. split; [reflexivity|].
  split; [exact Hr1|].
  split.
  { rewrite Hn. apply tone_nibble.
    destruct Hcase as [(_ & -> & _) | (_ & H)]; lia. }
  split; [exact Hf|].
  split; [reflexivity|].
  split; [intros Hle; apply Z.mod_small; lia|].
  unfold length_bytes, length_form.
  destruct (L =? l_len96 c); [reflexivity|].
  destruct (L =? lp_len96 c); [reflexivity|].
  destruct (L <=? 255) eqn:E.
  - rewrite u8_small by lia. reflexivity.
  - unfold u16. rewrite land_255, shiftr_8. reflexivity.
Qed.

(** The note [b+] under a key shift of 3 with the length 1 (96 ticks),
    after the statement loop has read its letter: B stays B under the
    sharp, the key shift makes it D of octave 5, and the length takes
    one byte. *)
Lemma note_statement_bytes_witness :
  let c := set_key_shift 3
             (snd (get (begin_line "b+1" 1 (mml_channel_init CH_BUF_SIZE)))) in
  out (snd (compile_note (chr "b") c)) = [133; 35; 96]
  /\ exists tone octave0 L flag c1 c2 pre h bytes w,
    note_pitch (toupper (chr "b")) c = (Some (tone, octave0), c1)
    /\ parse_length_96 (set_error_col NOERROR c1) = (Some (L, flag), c2)
    /\ ((toupper (chr "b") = chr "R" /\ tone = 0 /\ octave0 = octave c)
        \/ (exists letter,
              let a := peek (snd (skip_space c)) in
              let accidental :=
                if (a =? chr "#") || (a =? chr "+") then 1
                else if a =? chr "-" then -1 else 0 in
              In (toupper (chr "b"), letter)
                 [(chr "C", 1); (chr "D", 3); (chr "E", 5); (chr "F", 6);
                  (chr "G", 8); (chr "A", 10); (chr "B", 12)]
              /\ 1 <= tone <= 12
              /\ 12 * octave0 + tone
                 = 12 * octave c
                   + Z.max 1 (Z.min 12 (letter + accidental))
                   + key_shift c))
    /\ 1 <= L
    /\ out (snd (compile_note (chr "b") c)) = out c ++ pre ++ [h] ++ bytes
    /\ (pre = if octave_last c =? octave0 then [] else [128 + octave0])
    /\ 0 <= h < 128
    /\ Z.land h 15 = tone
    /\ Z.land (Z.shiftr h 4) 3
       = (if L =? l_len96 c then 0
          else if L =? lp_len96 c then 1
          else if L <=? 255 then 2
          else 3)
    /\ w = L mod 65536 /\ (L <= 65535 -> w = L)
    /\ bytes
       = (if L =? l_len96 c then []
          else if L =? lp_len96 c then []
          else if L <=? 255 then [L]
          else [w mod 256; w / 256]).
Proof.
  split; [reflexivity|].
  apply (note_statement_bytes (chr "b")
           (set_key_shift 3
              (snd (get (begin_line "b+1" 1
                           (mml_channel_init CH_BUF_SIZE)))))).
  - simpl. lia.
  - simpl. lia.
  - reflexivity.
Defined.
